(** * Resonate: the guess-scoring engine of [src/pages/Game.tsx]

    A shallow embedding of [normalizeTitle], [levenshteinDistance],
    [similarity] and the [handleGuessSubmit] handler, followed by the
    properties the design document states about them.

    Modelling conventions.
    - A JavaScript string is the list of its UTF-16 code units; [s.length]
      is [length s] and [s[i]] is [s !! i] ([None] for [undefined]).
    - [String.prototype.toLowerCase] belongs to the JavaScript runtime, not
      to the repository: it is a parameter of the development, constrained
      only by its behaviour on ASCII input where a statement needs it.
    - The regular expressions of [normalizeTitle] are translated by hand
      into scanners that follow the matching order of a global replace.
    - The numbers held in [dp] are non-negative integers (exact in a JS
      number below 2^53) and are modelled by [nat]; the ratio returned by
      [similarity] is modelled by an exact rational, and the comparisons
      made on it are checked against binary64 arithmetic for normalized
      forms of up to 256 code units.
    - The whole numbers of [formatDuration] and [storeTokens] are modelled
      by [Z] and stand for safe integers, of size below 2^53: there the
      binary64 operations of the code return the integers of the model,
      and [String] prints all their digits.  Statements about these two
      functions carry that range as a hypothesis. *)

From Stdlib Require Import QArith String Ascii.
From Stdlib Require Import Floats.PrimFloat Floats.SpecFloat Floats.FloatOps.
From Stdlib Require Import Numbers.Cyclic.Int63.Uint63.
From Stdlib Require DecimalZ.
From Stdlib Require Import Qround Qabs Lqa.
From stdpp Require Import base numbers list option gmap strings.

Local Open Scope nat_scope.

(** ** Strings as sequences of UTF-16 code units *)

Abbreviation codeunit := N (only parsing).
Abbreviation jsstring := (list codeunit) (only parsing).

(** An ASCII literal as a [jsstring]. *)
Definition js (s : string) : jsstring :=
  N_of_ascii <$> list_ascii_of_string s.

Definition LPAREN : codeunit := 40%N.
Definition RPAREN : codeunit := 41%N.
Definition LBRACKET : codeunit := 91%N.
Definition RBRACKET : codeunit := 93%N.
Definition SPACE : codeunit := 32%N.

Definition inRange (lo hi c : codeunit) : bool :=
  (lo <=? c)%N && (c <=? hi)%N.

(** The class [a-z0-9]. *)
Definition isLowerAlnum (c : codeunit) : bool :=
  inRange 97%N 122%N c || inRange 48%N 57%N c.

(** The class [\s], which is also what [trim] strips: ECMAScript WhiteSpace
    (TAB, VT, FF, SP, NBSP, ZWNBSP and the Unicode space separators) and
    LineTerminator (LF, CR, LS, PS). *)
Definition isWhiteSpace (c : codeunit) : bool :=
  inRange 9%N 13%N c
  || (c =? 32)%N || (c =? 160)%N || (c =? 5760)%N
  || inRange 8192%N 8202%N c
  || (c =? 8232)%N || (c =? 8233)%N || (c =? 8239)%N || (c =? 8287)%N
  || (c =? 12288)%N || (c =? 65279)%N.

Definition isAscii (c : codeunit) : bool := (c <? 128)%N.

(** Lower-casing of one ASCII code unit: [A-Z] moves to [a-z]. *)
Definition asciiLower (c : codeunit) : codeunit :=
  if inRange 65%N 90%N c then (c + 32)%N else c.

(** A lower-casing function that is exact on ASCII strings and leaves every
    other code unit alone; it instantiates the runtime parameter in
    examples. *)
Definition asciiToLowerCase (s : jsstring) : jsstring := asciiLower <$> s.

(** ** The normalizer *)

(** [.replace(/\([^)]*\)|\[[^\]]*\]/g, '')]: every match is deleted.  The
    scan goes left to right.
    At an opening delimiter the class [[^)]*] (resp. [[^\]]*]) can only run
    up to the first closing delimiter, so the alternative matches exactly
    when a closing delimiter occurs later, and the match ends at the first
    one; scanning resumes after it.  Where nothing matches the code unit is
    kept and the scan moves one position on. *)
Fixpoint stripAnnotations (s : jsstring) : jsstring :=
  match s with
  | [] => []
  | c :: t =>
      let fix afterClose (close : codeunit) (u : jsstring) : option jsstring :=
        match u with
        | [] => None
        | d :: u' =>
            if (d =? close)%N then Some (stripAnnotations u')
            else afterClose close u'
        end in
      if (c =? LPAREN)%N then
        match afterClose RPAREN t with
        | Some r => r
        | None => c :: stripAnnotations t
        end
      else if (c =? LBRACKET)%N then
        match afterClose RBRACKET t with
        | Some r => r
        | None => c :: stripAnnotations t
        end
      else c :: stripAnnotations t
  end.

(** [.replace(/[^a-z0-9\s]/g, '')]: every match is deleted. *)
Definition stripPunctuation (s : jsstring) : jsstring :=
  List.filter (fun c => isLowerAlnum c || isWhiteSpace c) s.

(** [.replace(/\s+/g, " ")]: [inRun] records that the scan is inside a run
    of whitespace whose single replacement space is already emitted. *)
Fixpoint collapseFrom (inRun : bool) (s : jsstring) : jsstring :=
  match s with
  | [] => []
  | c :: t =>
      if isWhiteSpace c then
        if inRun then collapseFrom true t else SPACE :: collapseFrom true t
      else c :: collapseFrom false t
  end.

Definition collapseWhitespace (s : jsstring) : jsstring := collapseFrom false s.

(** [.trim()]. *)
Fixpoint trimStart (s : jsstring) : jsstring :=
  match s with
  | [] => []
  | c :: t => if isWhiteSpace c then trimStart t else s
  end.

Definition trimEnd (s : jsstring) : jsstring := rev (trimStart (rev s)).

Definition trim (s : jsstring) : jsstring := trimEnd (trimStart s).

Section Normalizer.
Variable toLowerCase : jsstring -> jsstring.

Definition normalizeTitle (input : jsstring) : jsstring :=
  trim (collapseWhitespace (stripPunctuation (stripAnnotations (toLowerCase input)))).
End Normalizer.

(** ** The distance *)

(** [Math.min] of three numbers. *)
Definition min3 (x y z : nat) : nat := Nat.min (Nat.min x y) z.

(** The variables the two loops of [levenshteinDistance] mutate. *)
Record rowState : Type := RowState { dp : list nat; prev : nat }.

(** One pass of the body of [for (let j = 1; j <= n; j++)].  Reads of [dp]
    stay inside the array (its length is [n + 1] throughout), so the
    default of [!!!] is never observed. *)
Definition innerBody (a b : jsstring) (i : nat) (st : rowState) (j : nat) : rowState :=
  let temp := dp st !!! j in
  let dp' :=
    if decide (a !! (i - 1) = b !! (j - 1)) then <[j := prev st]> (dp st)
    else <[j := min3 (prev st + 1) (dp st !!! j + 1) (dp st !!! (j - 1) + 1)]> (dp st) in
  {| dp := dp'; prev := temp |}.

(** One pass of the body of [for (let i = 1; i <= m; i++)]. *)
Definition outerBody (a b : jsstring) (n : nat) (row : list nat) (i : nat) : list nat :=
  let prev0 := row !!! 0 in
  let row0 := <[0 := i]> row in
  dp (foldl (innerBody a b i) {| dp := row0; prev := prev0 |} (seq 1 n)).

Definition levenshteinDistance (a b : jsstring) : nat :=
  let m := length a in
  let n := length b in
  if m =? 0 then n
  else if n =? 0 then m
  else
    let dp0 := seq 0 (n + 1) in
    foldl (outerBody a b n) dp0 (seq 1 m) !!! n.

(** ** The scorer and the round controller *)

Inductive GuessResult : Type := Idle | Correct | Wrong.

Record GameTrack : Type := { name : jsstring; preview_url : option jsstring }.

(** The React state of the [Game] component that the handlers read and
    write; [audioPlaying] stands for the audio element and its timer, which
    [stopAudio] silences. *)
Record GameState : Type := {
  tracks : list GameTrack;
  currentIndex : Z;
  guess : jsstring;
  triesLeft : Z;
  revealed : bool;
  result : GuessResult;
  round : Z;
  correctCount : Z;
  wrongCount : Z;
  audioPlaying : bool
}.

(** [tracks[currentIndex] ?? null]. *)
Definition currentTrack (st : GameState) : option GameTrack :=
  if (0 <=? currentIndex st)%Z then tracks st !! Z.to_nat (currentIndex st) else None.

Definition stopAudio (st : GameState) : GameState :=
  {| tracks := tracks st; currentIndex := currentIndex st; guess := guess st;
     triesLeft := triesLeft st; revealed := revealed st; result := result st;
     round := round st; correctCount := correctCount st;
     wrongCount := wrongCount st; audioPlaying := false |}.

(** The initial values given to [useState]. *)
Definition initialState : GameState :=
  {| tracks := []; currentIndex := 0; guess := []; triesLeft := 3;
     revealed := false; result := Idle; round := 1; correctCount := 0;
     wrongCount := 0; audioPlaying := false |}.

(** The end of the loading effect: [setTracks(chosen); setCurrentIndex(0)]. *)
Definition loadTracks (chosen : list GameTrack) (st : GameState) : GameState :=
  {| tracks := chosen; currentIndex := 0; guess := guess st;
     triesLeft := triesLeft st; revealed := revealed st; result := result st;
     round := round st; correctCount := correctCount st;
     wrongCount := wrongCount st; audioPlaying := audioPlaying st |}.

Definition nextRound (st0 : GameState) : GameState :=
  let st := stopAudio st0 in
  {| tracks := tracks st;
     currentIndex := Z.min (currentIndex st + 1) (Z.of_nat (length (tracks st)) - 1);
     guess := []; triesLeft := 3; revealed := false; result := Idle;
     round := (round st + 1)%Z; correctCount := correctCount st;
     wrongCount := wrongCount st; audioPlaying := audioPlaying st |}.

(** The Replay button of the recap. *)
Definition replay (st : GameState) : GameState :=
  {| tracks := tracks st; currentIndex := 0; guess := guess st;
     triesLeft := triesLeft st; revealed := revealed st; result := result st;
     round := 1; correctCount := 0; wrongCount := 0;
     audioPlaying := audioPlaying st |}.

(** [!!currentTrack?.preview_url]: an empty URL is falsy. *)
Definition canPlay (st : GameState) : bool :=
  match currentTrack st with
  | Some {| preview_url := Some (_ :: _) |} => true
  | _ => false
  end.

Definition playSnippet (st : GameState) : GameState :=
  if canPlay st then
    {| tracks := tracks st; currentIndex := currentIndex st; guess := guess st;
       triesLeft := triesLeft st; revealed := revealed st; result := result st;
       round := round st; correctCount := correctCount st;
       wrongCount := wrongCount st; audioPlaying := true |}
  else st.

(** The text field's [onChange]. *)
Definition setGuess (g : jsstring) (st : GameState) : GameState :=
  {| tracks := tracks st; currentIndex := currentIndex st; guess := g;
     triesLeft := triesLeft st; revealed := revealed st; result := result st;
     round := round st; correctCount := correctCount st;
     wrongCount := wrongCount st; audioPlaying := audioPlaying st |}.

(** The threshold of [handleGuessSubmit]. *)
Definition THRESHOLD : Q := 7 # 10.

Section Scorer.
Variable toLowerCase : jsstring -> jsstring.

Definition similarity (aRaw bRaw : jsstring) : Q :=
  let a := normalizeTitle toLowerCase aRaw in
  let b := normalizeTitle toLowerCase bRaw in
  if (length a =? 0) && (length b =? 0) then 1%Q
  else
    let dist := levenshteinDistance a b in
    let maxLen :=
      if Nat.max (length a) (length b) =? 0 then 1
      else Nat.max (length a) (length b) in
    (1 - inject_Z (Z.of_nat dist) / inject_Z (Z.of_nat maxLen))%Q.

Definition handleGuessSubmit (st : GameState) : GameState :=
  match currentTrack st with
  | None => st
  | Some track =>
      let sim := similarity (guess st) (name track) in
      if Qle_bool THRESHOLD sim then
        let st1 := stopAudio st in
        {| tracks := tracks st1; currentIndex := currentIndex st1;
           guess := guess st1; triesLeft := triesLeft st1;
           revealed := true; result := Correct; round := round st1;
           correctCount := (correctCount st1 + 1)%Z;
           wrongCount := wrongCount st1; audioPlaying := audioPlaying st1 |}
      else
        let remaining := (triesLeft st - 1)%Z in
        if (remaining <=? 0)%Z then
          let st1 := stopAudio st in
          {| tracks := tracks st1; currentIndex := currentIndex st1;
             guess := guess st1; triesLeft := remaining;
             revealed := true; result := Wrong; round := round st1;
             correctCount := correctCount st1;
             wrongCount := (wrongCount st1 + 1)%Z;
             audioPlaying := audioPlaying st1 |}
        else
          {| tracks := tracks st; currentIndex := currentIndex st;
             guess := guess st; triesLeft := remaining;
             revealed := revealed st; result := Wrong; round := round st;
             correctCount := correctCount st; wrongCount := wrongCount st;
             audioPlaying := audioPlaying st |}
  end.

(** The states the component can be in.  The events are the end of
    loading, typing in the text field, the Play, Stop, Next and Replay
    buttons (the snippet's timer acts on the audio like Stop), and a
    submission, which the Guess button only lets through while the text
    is not blank and the answer is not yet revealed
    ([disabled={!guess.trim() || revealed}]). *)
Inductive reachable : GameState -> Prop :=
| reach_init : reachable initialState
| reach_load st chosen : reachable st -> reachable (loadTracks chosen st)
| reach_type st g : reachable st -> reachable (setGuess g st)
| reach_play st : reachable st -> reachable (playSnippet st)
| reach_stop st : reachable st -> reachable (stopAudio st)
| reach_next st : reachable st -> reachable (nextRound st)
| reach_replay st : reachable st -> reachable (replay st)
| reach_submit st :
    reachable st -> revealed st = false -> trim (guess st) <> [] ->
    reachable (handleGuessSubmit st).
End Scorer.

(** ** The edit distance of the design document *)

(** The cost table in the document's words: [distance(i,0) = i],
    [distance(0,j) = j], and [distance(i,j)] is [distance(i-1,j-1)] when
    [a[i-1]] and [b[j-1]] match, else one more than the least of
    [distance(i-1,j)], [distance(i,j-1)] and [distance(i-1,j-1)]. *)
Fixpoint distance (a b : jsstring) (i : nat) : nat -> nat :=
  match i with
  | 0 => fun j => j
  | S i' =>
      fix row (j : nat) : nat :=
        match j with
        | 0 => S i'
        | S j' =>
            if decide (a !! i' = b !! j') then distance a b i' j'
            else 1 + min3 (distance a b i' (S j')) (row j') (distance a b i' j')
        end
  end.

(** One single-character insertion, deletion or substitution, anywhere. *)
Inductive edit1 : jsstring -> jsstring -> Prop :=
| edit_insert p c s : edit1 (p ++ s) (p ++ c :: s)
| edit_delete p c s : edit1 (p ++ c :: s) (p ++ s)
| edit_substitute p c d s : edit1 (p ++ c :: s) (p ++ d :: s).

(** [editsTo k a b]: [k] successive single-character edits turn [a] into [b]. *)
Inductive editsTo : nat -> jsstring -> jsstring -> Prop :=
| edits_done a : editsTo 0 a a
| edits_step k a a' b : edit1 a a' -> editsTo k a' b -> editsTo (S k) a b.

(** The recurrence read from the front of the two strings; the table above
    is this function on reversed prefixes. *)
Fixpoint lev (a : jsstring) : jsstring -> nat :=
  match a with
  | [] => fun b => length b
  | x :: a' =>
      fix levRow (b : jsstring) : nat :=
        match b with
        | [] => S (length a')
        | y :: b' =>
            if decide (x = y) then lev a' b'
            else 1 + min3 (lev a' b) (levRow b') (lev a' b')
        end
  end.

(** ** Vocabulary of the statements *)

(** What [dp] and [prev] hold after the inner loop has run for
    [j = 1 .. k] inside pass [S i] of the outer loop: the new row up to
    [k], the old row beyond it, and the old entry at [k]. *)
Definition rowInv (a b : jsstring) (n i k : nat) (st : rowState) : Prop :=
  length (dp st) = S n
  ∧ (∀ j, j ≤ k → dp st !! j = Some (distance a b (S i) j))
  ∧ (∀ j, k < j → j ≤ n → dp st !! j = Some (distance a b i j))
  ∧ prev st = distance a b i k.

(** The input left after the first occurrence of [close], if there is one. *)
Fixpoint findClose (close : codeunit) (u : jsstring) : option jsstring :=
  match u with
  | [] => None
  | d :: u' => if (d =? close)%N then Some u' else findClose close u'
  end.

Definition isDelimiter (c : codeunit) : bool :=
  (c =? LPAREN)%N || (c =? RPAREN)%N || (c =? LBRACKET)%N || (c =? RBRACKET)%N.

(** The two kinds of group: [open] and [close] are the two parentheses or
    the two square brackets. *)
Definition groupDelimiters (open close : codeunit) : Prop :=
  (open = LPAREN ∧ close = RPAREN) ∨ (open = LBRACKET ∧ close = RBRACKET).

(** [withoutGroups s kept]: [kept] is the source [s] without its
    parenthesized and bracketed substrings.  Reading [s] from the left, a
    code unit that is no opening delimiter is kept; an opening delimiter
    that is closed further on starts a group, the shortest span that ends
    on a closing delimiter of its kind, and the whole group is left out;
    an opening delimiter that is never closed is kept. *)
Inductive withoutGroups : jsstring → jsstring → Prop :=
| without_nil : withoutGroups [] []
| without_keep c s kept :
    c ≠ LPAREN → c ≠ LBRACKET → withoutGroups s kept →
    withoutGroups (c :: s) (c :: kept)
| without_group open close body s kept :
    groupDelimiters open close → close ∉ body → withoutGroups s kept →
    withoutGroups (open :: body ++ close :: s) kept
| without_unclosed open close s kept :
    groupDelimiters open close → close ∉ s → withoutGroups s kept →
    withoutGroups (open :: s) (open :: kept).

(** ASCII punctuation, brackets included: the printable ASCII code units
    that are neither letters, digits nor the space. *)
Definition isPunctuation (c : codeunit) : bool :=
  inRange 33%N 47%N c || inRange 58%N 64%N c
  || inRange 91%N 96%N c || inRange 123%N 126%N c.

(** A lowercase ASCII letter, a digit or the space. *)
Definition isNormalChar (c : codeunit) : bool :=
  isLowerAlnum c || (c =? SPACE)%N.

(** No two spaces in a row. *)
Fixpoint singleSpaces (s : jsstring) : bool :=
  match s with
  | [] => true
  | c :: t =>
      negb ((c =? SPACE)%N && (if t is d :: _ then (d =? SPACE)%N else false))
      && singleSpaces t
  end.

(** The invariant of a normalized string. *)
Definition normalized (s : jsstring) : Prop :=
  Forall (λ c, isNormalChar c = true) s
  ∧ singleSpaces s = true
  ∧ head s ≠ Some SPACE
  ∧ list.last s ≠ Some SPACE.

(** [d] is the least number of single-character edits that turn [a] into
    [b]: the Levenshtein distance of the glossary. *)
Definition editDistance (a b : jsstring) (d : nat) : Prop :=
  editsTo d a b ∧ ∀ k, editsTo k a b → d ≤ k.

(** ** The ratio in binary64

    [similarity] above computes with exact rationals.  The definitions
    below redo its last line and the test of [handleGuessSubmit] in IEEE 754
    binary64, the arithmetic of a JS number, so that the two can be compared
    on the lengths a title can have. *)

Definition number (n : nat) : float := PrimFloat.of_uint63 (Uint63.of_Z (Z.of_nat n)).

(** [1 - dist / maxLen] with both operations rounded. *)
Definition ratio64 (dist maxLen : nat) : float :=
  (1 - number dist / number maxLen)%float.

(** The same expression over the rationals. *)
Definition ratioQ (dist maxLen : nat) : Q :=
  (1 - inject_Z (Z.of_nat dist) / inject_Z (Z.of_nat maxLen))%Q.

(** The literal [0.7]: the binary64 value nearest to seven tenths. *)
Definition THRESHOLD64 : float := 0x1.6666666666666p-1%float.

(** For one distance and one length: the threshold test and the tests
    against 1 and 0 come out the same in both arithmetics. *)
Definition ratioAgrees (maxLen dist : nat) : bool :=
  Bool.eqb (PrimFloat.leb THRESHOLD64 (ratio64 dist maxLen))
           (Qle_bool THRESHOLD (ratioQ dist maxLen))
  && Bool.eqb (PrimFloat.eqb (ratio64 dist maxLen) 1%float)
              (Qeq_bool (ratioQ dist maxLen) 1)
  && Bool.eqb (PrimFloat.eqb (ratio64 dist maxLen) 0%float)
              (Qeq_bool (ratioQ dist maxLen) 0).

(** ** Example rounds *)

Definition levitating : GameTrack :=
  {| name := js "Levitating"; preview_url := Some (js "https://p.scdn.co/mp3-preview/1") |}.

(** A round on the track "Levitating" with the guess "levitatin" typed in. *)
Definition levitatingRound : GameState :=
  setGuess (js "levitatin") (loadTracks [levitating] initialState).

(** The same track with the guess "stay" and a single try left. *)
Definition lastTryRound : GameState :=
  {| tracks := [levitating]; currentIndex := 0;
     guess := js "stay"; triesLeft := 1; revealed := false; result := Wrong;
     round := 1; correctCount := 0; wrongCount := 0; audioPlaying := true |}.

(** * The rest of the application *)

(** ** Playing a round *)

(** The Guess button's [disabled={!guess.trim() || revealed}]. *)
Definition guessDisabled (st : GameState) : bool :=
  (length (trim (guess st)) =? 0) || revealed st.

Section Play.
Variable toLowerCase : jsstring -> jsstring.

(** The player types [g] into the text field and presses Guess: the
    submission goes through only when the button is enabled. *)
Definition typeAndSubmit (g : jsstring) (st : GameState) : GameState :=
  let st1 := setGuess g st in
  if guessDisabled st1 then st1 else handleGuessSubmit toLowerCase st1.
End Play.

(** ** Binary64 numbers

    A JS number is an IEEE 754 binary64 value.  The definitions below say
    which numbers these are and what an arithmetic operation returns, so
    that the integer arithmetic used for [formatDuration] and
    [storeTokens] can be compared with the arithmetic of the runtime. *)

(** The finite binary64 numbers: [m * 2^e] with [|m| < 2^53] and
    [-1074 <= e <= 971]. *)
Definition representable (x : Q) : Prop :=
  ∃ m e : Z, (Z.abs m < 2 ^ 53)%Z ∧ (-1074 ≤ e ≤ 971)%Z
             ∧ (x == inject_Z m * 2 ^ e)%Q.

(** [r] is a binary64 number nearest to the real number [x]: what the
    runtime returns for an operation whose exact result is [x].  Which of
    two nearest numbers is taken plays no role below. *)
Definition nearest64 (x r : Q) : Prop :=
  representable r
  ∧ ∀ r', representable r' → (Qabs (r - x) <= Qabs (r' - x))%Q.

(** [Number.isSafeInteger]: the integers of size below 2^53. *)
Definition isSafeInteger (z : Z) : bool := (- 2 ^ 53 <? z)%Z && (z <? 2 ^ 53)%Z.

(** ** Numbers as text *)

Fixpoint digitsOf (d : Decimal.uint) : jsstring :=
  match d with
  | Decimal.Nil => []
  | Decimal.D0 d => 48%N :: digitsOf d
  | Decimal.D1 d => 49%N :: digitsOf d
  | Decimal.D2 d => 50%N :: digitsOf d
  | Decimal.D3 d => 51%N :: digitsOf d
  | Decimal.D4 d => 52%N :: digitsOf d
  | Decimal.D5 d => 53%N :: digitsOf d
  | Decimal.D6 d => 54%N :: digitsOf d
  | Decimal.D7 d => 55%N :: digitsOf d
  | Decimal.D8 d => 56%N :: digitsOf d
  | Decimal.D9 d => 57%N :: digitsOf d
  end.

(** [String(z)] and [`${z}`] for a safe integer [z]: its decimal digits,
    after a minus sign when it is negative.  (JS prints all the digits of
    an integer below 10^21; from 2^53 on a number need not be the integer
    that was computed, and such values are outside the model.) *)
Definition numberToString (z : Z) : jsstring :=
  match Z.to_int z with
  | Decimal.Pos d => digitsOf d
  | Decimal.Neg d => 45%N :: digitsOf d
  end.

(** [s.padStart(targetLength, padString)]. *)
Definition padStart (targetLength : nat) (padString s : jsstring) : jsstring :=
  if (targetLength <=? length s) || (length padString =? 0) then s
  else
    let fill := targetLength - length s in
    take fill (concat (replicate fill padString)) ++ s.

(** [formatDuration] of [App.tsx], on a whole number of milliseconds
    ([duration_ms] is an integer) in the safe range.  There [Math.floor] of
    the rounded quotient is [Z.div] (proved below as
    [formatDuration_quotients_exact]) and [%], which is exact on integers,
    is the remainder with the sign of the dividend.  Larger values of [ms]
    are outside the model. *)
Definition formatDuration (ms : Z) : jsstring :=
  let totalSeconds := (ms / 1000)%Z in
  let minutes := (totalSeconds / 60)%Z in
  let seconds := Z.rem totalSeconds 60 in
  numberToString minutes ++ [58%N] ++ padStart 2 [48%N] (numberToString seconds).

(** The two quotients of [formatDuration] as the runtime computes them, in
    binary64, to be compared with those of the model. *)

(** A whole number below 2^63 as a binary64 number (exact below 2^53). *)
Definition wholeNumber (z : Z) : float := PrimFloat.of_uint63 (Uint63.of_Z z).

(** [Math.floor] of a binary64 number that is finite and not negative. *)
Definition floor64 (f : float) : Z :=
  match Prim2SF f with
  | S754_finite false m e =>
      if (0 <=? e)%Z then (Z.pos m * 2 ^ e)%Z else (Z.pos m / 2 ^ (- e))%Z
  | _ => 0%Z
  end.

Definition totalSeconds64 (ms : Z) : Z := floor64 (wholeNumber ms / 1000)%float.

Definition minutes64 (ms : Z) : Z :=
  floor64 (wholeNumber (totalSeconds64 ms) / 60)%float.

Definition quotientsAgree (ms : Z) : bool :=
  (totalSeconds64 ms =? ms / 1000)%Z && (minutes64 ms =? ms / 1000 / 60)%Z.

(** ** PKCE helpers of [lib/spotifyAuth] *)

Definition CHARSET : jsstring :=
  js "ABCDEFGHIJKLMNOPQRSTUVWXYZabcdefghijklmnopqrstuvwxyz0123456789-._~".

(** [generateRandomString(len)].  [randomValues] is the [Uint8Array] of
    [len] entries after [crypto.getRandomValues] has filled it; the loop
    appends [charset[randomValues[i] % charset.length]] for each index. *)
Definition generateRandomString (len : nat) (randomValues : list N) : jsstring :=
  foldl (λ result i,
           result ++ [CHARSET !!! N.to_nat ((randomValues !!! i) mod N.of_nat (length CHARSET))])
        [] (seq 0 len).

Definition BASE64_ALPHABET : jsstring :=
  js "ABCDEFGHIJKLMNOPQRSTUVWXYZabcdefghijklmnopqrstuvwxyz0123456789+/".

Definition EQUALS : codeunit := 61%N.

(** The 6-bit groups of a byte sequence, three bytes giving four groups and
    a last group of one or two bytes giving two or three (RFC 4648). *)
Fixpoint sextets (bytes : list N) : list N :=
  match bytes with
  | [] => []
  | [b0] => [b0 / 4; (b0 mod 4) * 16]%N
  | [b0; b1] => [b0 / 4; (b0 mod 4) * 16 + b1 / 16; (b1 mod 16) * 4]%N
  | b0 :: b1 :: b2 :: rest =>
      [b0 / 4; (b0 mod 4) * 16 + b1 / 16; (b1 mod 16) * 4 + b2 / 64; b2 mod 64]%N
      ++ sextets rest
  end.

(** The browser's [btoa]: it throws on a code unit above 255, and
    otherwise writes each 6-bit group with the base64 alphabet and pads the
    output with [=] to a multiple of four characters. *)
Definition btoa (binary : jsstring) : option jsstring :=
  if forallb (λ c, (c <? 256)%N) binary then
    Some (((λ v, BASE64_ALPHABET !!! N.to_nat v) <$> sextets binary)
          ++ replicate ((3 - length binary mod 3) mod 3) EQUALS)
  else None.

(** [s.replace(/c/g, d)] for a single code unit [c]. *)
Definition replaceAll (c d : codeunit) (s : jsstring) : jsstring :=
  (λ x, if (x =? c)%N then d else x) <$> s.

Fixpoint dropEquals (s : jsstring) : jsstring :=
  match s with
  | [] => []
  | c :: t => if (c =? EQUALS)%N then dropEquals t else s
  end.

(** [s.replace(/=+$/, '')]: the run of [=] that ends the string goes. *)
Definition stripTrailingEquals (s : jsstring) : jsstring := rev (dropEquals (rev s)).

(** [base64UrlEncode(buffer)]: [None] stands for the exception of [btoa].
    [String.fromCharCode] of a byte is the code unit of that value. *)
Definition base64UrlEncode (buffer : list N) : option jsstring :=
  let binary := foldl (λ binary b, binary ++ [b]) [] buffer in
  match btoa binary with
  | None => None
  | Some base64 =>
      Some (stripTrailingEquals (replaceAll 47%N 95%N (replaceAll 43%N 45%N base64)))
  end.

(** The unreserved URL characters [A-Z a-z 0-9 - . _ ~]. *)
Definition isUnreserved (c : codeunit) : bool :=
  inRange 65%N 90%N c || inRange 97%N 122%N c || inRange 48%N 57%N c
  || (c =? 45)%N || (c =? 46)%N || (c =? 95)%N || (c =? 126)%N.

(** The base64url alphabet [A-Z a-z 0-9 - _]. *)
Definition isBase64Url (c : codeunit) : bool :=
  inRange 65%N 90%N c || inRange 97%N 122%N c || inRange 48%N 57%N c
  || (c =? 45)%N || (c =? 95)%N.

Definition isByte (b : N) : bool := (b <? 256)%N.

Section Challenge.
(** [sha256(input)]: [TextEncoder] and [crypto.subtle.digest] of the
    runtime, as the bytes of the digest. *)
Variable sha256 : jsstring -> list N.

Definition createCodeChallenge (verifier : jsstring) : option jsstring :=
  base64UrlEncode (sha256 verifier).
End Challenge.

(** A stand-in for the digest in examples: 32 zero bytes. *)
Definition zeroDigest (input : jsstring) : list N := replicate 32 0%N.

(** ** Loading a game *)

(** A JS number: a finite value or one of the three special ones. *)
Inductive jsnumber : Type := Num (q : Q) | NaN | PosInfinity | NegInfinity.

(** [allowedCounts.includes(n) ? n : 10] with [allowedCounts = [3, 10, 20]]. *)
Definition roundsOf (numTracksParam : jsnumber) : nat :=
  match numTracksParam with
  | Num q =>
      if Qeq_bool q 3 then 3
      else if Qeq_bool q 10 then 10
      else if Qeq_bool q 20 then 20
      else 10
  | _ => 10
  end.

(** A string or [null]/[undefined] used as a condition: the empty string is
    falsy too. *)
Definition truthy (s : option jsstring) : bool :=
  match s with Some (_ :: _) => true | _ => false end.

(** [Boolean(t.preview_url)]. *)
Definition previewable (t : GameTrack) : bool := truthy (preview_url t).

(** [pool.splice(idx, 1)]: the removed elements and the array afterwards.
    A negative index counts from the end, and an index past the end removes
    nothing. *)
Definition splice1 {A : Type} (idx : Z) (pool : list A) : list A * list A :=
  let len := Z.of_nat (length pool) in
  let start := if (idx <? 0)%Z then Z.max (len + idx) 0 else Z.min idx len in
  let k := Z.to_nat start in
  (take 1 (drop k pool), take k pool ++ drop (S k) pool).

(** What a [fetch] followed by [res.json()] comes to: the promise is
    rejected with an error, the status is not ok, or the body arrives. *)
Inductive FetchReply (A : Type) : Type :=
| FetchRejected (message : jsstring)
| FetchNotOk
| FetchOk (body : A).
Arguments FetchRejected {A} message.
Arguments FetchNotOk {A}.
Arguments FetchOk {A} body.

(** The two endpoints the game reads: [items] of the top tracks, and
    [items] of a playlist, whose [track] may be [null]. *)
Record SpotifyApi : Type := {
  topTracksReply : FetchReply (list GameTrack);
  playlistReply : jsstring -> FetchReply (list (option GameTrack))
}.

(** What the loading effect leaves in the component: [error],
    [totalRounds], and the argument of [setTracks] if it was called. *)
Record LoadResult : Type := {
  loadError : option jsstring;
  totalRounds : nat;
  loadedTracks : option (list GameTrack)
}.

Section Loading.
(** [random k] is the value of the [k]-th call of [Math.random()]. *)
Variable random : nat -> Q.

(** The [while (pool.length > 0 && chosen.length < rounds)] loop, run for
    at most [fuel] passes; [k] counts the draws made so far.  [None]: the
    loop is still running when the fuel is spent. *)
Fixpoint pickLoop (rounds fuel k : nat) (pool chosen : list GameTrack)
  : option (list GameTrack) :=
  if (0 <? length pool) && (length chosen <? rounds) then
    match fuel with
    | 0 => None
    | S fuel' =>
        let idx := Qfloor (random k * inject_Z (Z.of_nat (length pool))) in
        let '(removed, pool') := splice1 idx pool in
        match removed with
        | track :: _ => pickLoop rounds fuel' (S k) pool' (chosen ++ [track])
        | [] => pickLoop rounds fuel' (S k) pool' chosen
        end
    end
  else Some chosen.

(** The loading effect of [Game], given the token that
    [getValidAccessToken] returned, the [mode], [playlistId] and
    [numTracks] of the query string (the last one already through
    [Number]), and the server's replies.  [None]: the picking loop does not
    end within [fuel] passes. *)
Definition loadGame (fuel : nat) (token mode playlistId : option jsstring)
    (numTracksParam : jsnumber) (api : SpotifyApi) : option LoadResult :=
  if negb (truthy token) then
    Some {| loadError := Some (js "Please log in to play."); totalRounds := 10;
            loadedTracks := None |}
  else
    let rounds := roundsOf numTracksParam in
    let failed message :=
      Some {| loadError := Some message; totalRounds := rounds; loadedTracks := None |} in
    let pick (fetchedTracks : list GameTrack) :=
      if length fetchedTracks =? 0 then
        failed (js "No previewable tracks found in the selected source.")
      else
        match pickLoop rounds fuel 0 fetchedTracks [] with
        | None => None
        | Some chosen =>
            Some {| loadError := None; totalRounds := rounds;
                    loadedTracks := Some chosen |}
        end in
    if bool_decide (mode = Some (js "playlist")) then
      if negb (truthy playlistId) then
        failed (js "No playlist selected. Go back and choose one.")
      else
        match playlistReply api (default [] playlistId) with
        | FetchRejected message => failed message
        | FetchNotOk => failed (js "Failed to load tracks")
        | FetchOk items =>
            pick (omap (λ t : option GameTrack,
                          match t with
                          | Some track => if previewable track then Some track else None
                          | None => None
                          end) items)
        end
    else
      match topTracksReply api with
      | FetchRejected message => failed message
      | FetchNotOk => failed (js "Failed to load tracks")
      | FetchOk items => pick (List.filter previewable items)
      end.
End Loading.

(** A source of draws for examples: always the middle of the pool. *)
Definition halfDraws (k : nat) : Q := 1 # 2.

(** ** Web storage and the game history *)

(** [localStorage] and [sessionStorage]: strings under string keys. *)
Abbreviation Storage := (gmap string jsstring) (only parsing).

(** An entry of the history; the fields [id], [mode], [playlistId] and
    [totalRounds] of the source carry the prefix [entry_] here. *)
Record HistoryEntry : Type := {
  entry_id : jsstring;
  finishedAtIso : jsstring;
  entry_mode : jsstring;
  entry_playlistId : option jsstring;
  entry_totalRounds : nat;
  correct : Z;
  wrong : Z
}.

Definition STORAGE_KEY : string := "resonate_history_v1".

(** The entry the recap's Play again link builds, from
    [crypto.randomUUID()], [new Date().toISOString()], the [mode] and
    [playlistId] of the query string and the component's state. *)
Definition recapEntry (uuid nowIso : jsstring) (mode playlistId : option jsstring)
    (rounds : nat) (st : GameState) : HistoryEntry :=
  {| entry_id := uuid; finishedAtIso := nowIso;
     entry_mode := default (js "top") mode;
     entry_playlistId := playlistId;
     entry_totalRounds := rounds;
     correct := correctCount st; wrong := wrongCount st |}.

Section History.
(** [JSON.stringify] on an array of entries, and [JSON.parse] read as such
    an array; [None] stands for its exception. *)
Variable stringify : list HistoryEntry -> jsstring.
Variable parse : jsstring -> option (list HistoryEntry).

(** [readHistory] of the history page: an absent or empty item, or one
    that does not parse, reads as no entries. *)
Definition readHistory (ls : Storage) : list HistoryEntry :=
  match ls !! STORAGE_KEY with
  | Some (c :: raw) => default [] (parse (c :: raw))
  | _ => []
  end.

Definition writeHistory (entries : list HistoryEntry) (ls : Storage) : Storage :=
  <[STORAGE_KEY := stringify entries]> ls.

(** The Clear history button. *)
Definition handleClear (ls : Storage) : Storage := writeHistory [] ls.

(** The [onClick] of Play again in [Game]: the new entry goes in front of
    the stored ones and the first 200 are kept; an exception of
    [JSON.parse] is swallowed by the [catch], before anything is written. *)
Definition saveRecap (entry : HistoryEntry) (ls : Storage) : Storage :=
  let list :=
    match ls !! STORAGE_KEY with
    | Some (c :: raw) => parse (c :: raw)
    | _ => Some []
    end in
  match list with
  | None => ls
  | Some list => <[STORAGE_KEY := stringify (take 200 (entry :: list))]> ls
  end.

(** The stored history can be read: there is none yet, or it parses. *)
Definition readable (ls : Storage) : Prop :=
  match ls !! STORAGE_KEY with
  | Some (c :: raw) => is_Some (parse (c :: raw))
  | _ => True
  end.
End History.

(** A stand-in for JSON in examples: the entries are numbered by the
    enumeration of their fields and the number is written in binary after
    an opening bracket. *)
Definition entryFields (e : HistoryEntry)
  : jsstring * jsstring * jsstring * option jsstring * nat * Z * Z :=
  (entry_id e, finishedAtIso e, entry_mode e, entry_playlistId e,
   entry_totalRounds e, correct e, wrong e).

Definition fieldsEntry
    (f : jsstring * jsstring * jsstring * option jsstring * nat * Z * Z)
  : HistoryEntry :=
  let '(i, t, m, p, r, c, w) := f in
  {| entry_id := i; finishedAtIso := t; entry_mode := m; entry_playlistId := p;
     entry_totalRounds := r; correct := c; wrong := w |}.

Fixpoint positiveBits (p : positive) : jsstring :=
  match p with
  | xH => []
  | xO p => 48%N :: positiveBits p
  | xI p => 49%N :: positiveBits p
  end.

Fixpoint bitsPositive (s : jsstring) : option positive :=
  match s with
  | [] => Some xH
  | c :: t =>
      if (c =? 48)%N then xO <$> bitsPositive t
      else if (c =? 49)%N then xI <$> bitsPositive t
      else None
  end.

Definition standInStringify (entries : list HistoryEntry) : jsstring :=
  91%N :: positiveBits (encode (entryFields <$> entries)).

Definition standInParse (raw : jsstring) : option (list HistoryEntry) :=
  match raw with
  | [] => None
  | c :: bits =>
      if (c =? 91)%N then
        match bitsPositive bits with
        | Some p =>
            match decode p with
            | Some fields => Some (fieldsEntry <$> fields)
            | None => None
            end
        | None => None
        end
      else None
  end.

(** ** Spotify authorization ([lib/spotifyAuth]) *)

Definition PKCE_VERIFIER_KEY : string := "spotify_pkce_verifier".
Definition PKCE_STATE_KEY : string := "spotify_oauth_state".
Definition ACCESS_TOKEN_KEY : string := "spotify_access_token".
Definition REFRESH_TOKEN_KEY : string := "spotify_refresh_token".
Definition ACCESS_EXPIRES_AT_MS_KEY : string := "spotify_access_expires_at_ms".

(** The part of the browser the module acts on: the two storages, the
    messages shown by [alert] (oldest first), the [code] and [state]
    parameters and the path of the current URL, and the parameters of the
    URL given to [window.location.assign], if any. *)
Record Browser : Type := {
  localStorage : Storage;
  sessionStorage : Storage;
  alerts : list jsstring;
  searchCode : option jsstring;
  searchState : option jsstring;
  pathname : jsstring;
  assigned : option (list (string * jsstring))
}.

Definition withLocal (f : Storage -> Storage) (br : Browser) : Browser :=
  {| localStorage := f (localStorage br); sessionStorage := sessionStorage br;
     alerts := alerts br; searchCode := searchCode br;
     searchState := searchState br; pathname := pathname br;
     assigned := assigned br |}.

Definition withSession (f : Storage -> Storage) (br : Browser) : Browser :=
  {| localStorage := localStorage br; sessionStorage := f (sessionStorage br);
     alerts := alerts br; searchCode := searchCode br;
     searchState := searchState br; pathname := pathname br;
     assigned := assigned br |}.

(** [alert(message)]. *)
Definition alert (message : jsstring) (br : Browser) : Browser :=
  {| localStorage := localStorage br; sessionStorage := sessionStorage br;
     alerts := alerts br ++ [message]; searchCode := searchCode br;
     searchState := searchState br; pathname := pathname br;
     assigned := assigned br |}.

(** [window.history.replaceState({}, "", "/")]. *)
Definition replaceStateHome (br : Browser) : Browser :=
  {| localStorage := localStorage br; sessionStorage := sessionStorage br;
     alerts := alerts br; searchCode := None; searchState := None;
     pathname := [47%N]; assigned := assigned br |}.

(** [window.location.assign] of the authorize URL with these parameters. *)
Definition locationAssign (params : list (string * jsstring)) (br : Browser) : Browser :=
  {| localStorage := localStorage br; sessionStorage := sessionStorage br;
     alerts := alerts br; searchCode := searchCode br;
     searchState := searchState br; pathname := pathname br;
     assigned := Some params |}.

(** [import.meta.env]. *)
Record Env : Type := {
  VITE_SPOTIFY_CLIENT_ID : option jsstring;
  VITE_SPOTIFY_REDIRECT_URI : option jsstring;
  VITE_SPOTIFY_SCOPES : option jsstring
}.

Record TokenResponse : Type := {
  access_token : jsstring;
  expires_in : Z;
  refresh_token : option jsstring
}.

(** The two bodies posted to the token endpoint. *)
Inductive TokenRequest : Type :=
| AuthorizationCodeGrant (clientId code redirectUri codeVerifier : jsstring)
| RefreshTokenGrant (clientId refreshToken : jsstring).

(** What the [fetch] of the token endpoint comes to: a rejection (of the
    request or of reading the body) with its message, a status that is not
    ok with the text of the body, or the tokens. *)
Inductive TokenReply : Type :=
| TokenRejected (message : jsstring)
| TokenNotOk (status : Z) (text : jsstring)
| TokenOk (data : TokenResponse).

Definition getStoredPkceVerifier (br : Browser) : option jsstring :=
  sessionStorage br !! PKCE_VERIFIER_KEY.

Definition getStoredState (br : Browser) : option jsstring :=
  sessionStorage br !! PKCE_STATE_KEY.

Definition getStoredAccessToken (br : Browser) : option jsstring :=
  localStorage br !! ACCESS_TOKEN_KEY.

Definition getStoredRefreshToken (br : Browser) : option jsstring :=
  localStorage br !! REFRESH_TOKEN_KEY.

Definition clearAuthStorage (br : Browser) : Browser :=
  withSession (λ ss, delete PKCE_STATE_KEY (delete PKCE_VERIFIER_KEY ss))
    (withLocal (λ ls, delete ACCESS_EXPIRES_AT_MS_KEY
                        (delete REFRESH_TOKEN_KEY (delete ACCESS_TOKEN_KEY ls))) br).

(** [storeTokens(tokens)], [now] being the value of [Date.now()]:
    the expiry is brought forward by a safety window of 60 s.  The expiry
    is computed in [Z]; this is what the code computes when [safeExpiry]
    holds (proved below as [storeTokens_expiry_exact]), and other values of
    [expires_in] are outside the model. *)
Definition storeTokens (now : Z) (tokens : TokenResponse) (br : Browser) : Browser :=
  let safetyWindowMs := 60000%Z in
  let expiresAtMs := (now + expires_in tokens * 1000 - safetyWindowMs)%Z in
  withLocal (λ ls,
    let ls1 := <[ACCESS_TOKEN_KEY := access_token tokens]> ls in
    let ls2 := <[ACCESS_EXPIRES_AT_MS_KEY := numberToString expiresAtMs]> ls1 in
    match refresh_token tokens with
    | Some (c :: t) => <[REFRESH_TOKEN_KEY := c :: t]> ls2
    | _ => ls2
    end) br.

(** The values for which the expiry of [storeTokens] is computed without
    rounding: [now], the product, the sum and the difference are all safe
    integers. *)
Definition safeExpiry (now : Z) (tokens : TokenResponse) : bool :=
  isSafeInteger now
  && isSafeInteger (expires_in tokens * 1000)
  && isSafeInteger (now + expires_in tokens * 1000)
  && isSafeInteger (now + expires_in tokens * 1000 - 60000).

(** A number used as a condition: zero and [NaN] are falsy. *)
Definition numberTruthy (n : jsnumber) : bool :=
  match n with
  | Num q => negb (Qeq_bool q 0)
  | NaN => false
  | PosInfinity | NegInfinity => true
  end.

(** [now < n] for an integer [now]. *)
Definition lessThan (now : Z) (n : jsnumber) : bool :=
  match n with
  | Num q => negb (Qle_bool q (inject_Z now))
  | PosInfinity => true
  | NaN | NegInfinity => false
  end.

Definition DEFAULT_SCOPES : jsstring :=
  js "user-read-email user-read-private user-top-read user-read-recently-played playlist-read-private".

Section Auth.
Variable env : Env.
(** The token endpoint, as the reply it gives to each request. *)
Variable tokenEndpoint : TokenRequest -> TokenReply.
(** [Number(raw)] of the runtime. *)
Variable Number : jsstring -> jsnumber.

Definition getAccessTokenExpiryMs (br : Browser) : option jsnumber :=
  match localStorage br !! ACCESS_EXPIRES_AT_MS_KEY with
  | Some (c :: raw) => Some (Number (c :: raw))
  | _ => None
  end.

(** [exchangeCodeForTokens(code)]: [inl] is the message of the error
    thrown, before anything is stored. *)
Definition exchangeCodeForTokens (now : Z) (code : jsstring) (br : Browser)
  : jsstring + Browser :=
  match VITE_SPOTIFY_CLIENT_ID env, VITE_SPOTIFY_REDIRECT_URI env,
        getStoredPkceVerifier br with
  | Some (c1 :: clientId), Some (c2 :: redirectUri), Some (c3 :: verifier) =>
      match tokenEndpoint (AuthorizationCodeGrant (c1 :: clientId) code
                             (c2 :: redirectUri) (c3 :: verifier)) with
      | TokenRejected message => inl message
      | TokenNotOk status text =>
          inl (js "Token exchange failed: " ++ numberToString status ++ [32%N] ++ text)
      | TokenOk data =>
          inr (withSession (λ ss, delete PKCE_STATE_KEY (delete PKCE_VERIFIER_KEY ss))
                 (storeTokens now data br))
      end
  | _, _, _ => inl (js "Missing OAuth configuration or PKCE verifier")
  end.

Definition refreshAccessToken (now : Z) (br : Browser) : jsstring + Browser :=
  match VITE_SPOTIFY_CLIENT_ID env, getStoredRefreshToken br with
  | Some (c1 :: clientId), Some (c2 :: refreshToken) =>
      match tokenEndpoint (RefreshTokenGrant (c1 :: clientId) (c2 :: refreshToken)) with
      | TokenRejected message => inl message
      | TokenNotOk status text =>
          inl (js "Refresh failed: " ++ numberToString status ++ [32%N] ++ text)
      | TokenOk data => inr (storeTokens now data br)
      end
  | _, _ => inl (js "Missing clientId or refresh token")
  end.

(** The condition [access && expiry && now < expiry] of
    [getValidAccessToken]. *)
Definition tokenFresh (now : Z) (br : Browser) : bool :=
  truthy (getStoredAccessToken br)
  && match getAccessTokenExpiryMs br with
     | Some n => numberTruthy n && lessThan now n
     | None => false
     end.

(** [getValidAccessToken()]: [now] is the value of [Date.now()] at the
    check and [nowStore] its value when a refreshed token is stored. *)
Definition getValidAccessToken (now nowStore : Z) (br : Browser)
  : option jsstring * Browser :=
  if tokenFresh now br then (getStoredAccessToken br, br)
  else if truthy (getStoredRefreshToken br) then
    match refreshAccessToken nowStore br with
    | inr br' => (getStoredAccessToken br', br')
    | inl _ => (None, clearAuthStorage br)
    end
  else (None, br).

(** [handleSpotifyRedirectCallback()]. *)
Definition handleSpotifyRedirectCallback (now : Z) (br : Browser) : bool * Browser :=
  match searchCode br with
  | None => (false, br)
  | Some code =>
      let state := searchState br in
      let expectedState := getStoredState br in
      if negb (truthy state) || negb (truthy expectedState)
         || negb (bool_decide (state = expectedState))
      then
        (true, replaceStateHome
                 (clearAuthStorage
                    (alert (js "State mismatch. Please try logging in again.") br)))
      else
        let attempt :=
          match code with
          | [] => inl (js "Missing code")
          | _ :: _ => exchangeCodeForTokens now code br
          end in
        match attempt with
        | inr br' => (true, replaceStateHome br')
        | inl message =>
            (true, replaceStateHome
                     (clearAuthStorage
                        (alert (js "Spotify auth failed: " ++ message) br)))
        end
  end.

Section Start.
Variable sha256 : jsstring -> list N.

(** [startSpotifyAuth()], given the contents of the two arrays that
    [crypto.getRandomValues] fills for the verifier and for the state.  A
    rejection of [createCodeChallenge] leaves the browser as it is. *)
Definition startSpotifyAuth (verifierValues stateValues : list N) (br : Browser)
  : Browser :=
  let scope := default DEFAULT_SCOPES (VITE_SPOTIFY_SCOPES env) in
  match VITE_SPOTIFY_CLIENT_ID env, VITE_SPOTIFY_REDIRECT_URI env with
  | Some (c1 :: clientId), Some (c2 :: redirectUri) =>
      let verifier := generateRandomString 64 verifierValues in
      match createCodeChallenge sha256 verifier with
      | None => br
      | Some challenge =>
          let state := generateRandomString 24 stateValues in
          locationAssign
            [("client_id"%string, c1 :: clientId);
             ("response_type"%string, js "code");
             ("redirect_uri"%string, c2 :: redirectUri);
             ("code_challenge_method"%string, js "S256");
             ("code_challenge"%string, challenge);
             ("scope"%string, scope);
             ("state"%string, state)]
            (withSession (λ ss, <[PKCE_STATE_KEY := state]>
                                  (<[PKCE_VERIFIER_KEY := verifier]> ss)) br)
      end
  | _, _ =>
      alert (js "Missing Spotify OAuth env: VITE_SPOTIFY_CLIENT_ID or VITE_SPOTIFY_REDIRECT_URI") br
  end.
End Start.
End Auth.

(** Spotify sends the browser back to the application with [code] and
    [state] in the query string; the storages survive the navigation. *)
Definition redirectBack (code state : jsstring) (br : Browser) : Browser :=
  {| localStorage := localStorage br; sessionStorage := sessionStorage br;
     alerts := alerts br; searchCode := Some code; searchState := Some state;
     pathname := js "/callback"; assigned := None |}.

(** An empty browser at the application's root, for examples. *)
Definition freshBrowser : Browser :=
  {| localStorage := ∅; sessionStorage := ∅; alerts := [];
     searchCode := None; searchState := None; pathname := [47%N];
     assigned := None |}.

(** A [Number] for examples: exact on the decimal integers, [NaN]
    elsewhere. *)
Definition decimalNumber (raw : jsstring) : jsnumber :=
  match raw with
  | [] => Num 0
  | _ =>
      let digit c := inRange 48%N 57%N c in
      let value s := fold_left (λ n c, (10 * n + Z.of_N (c - 48))%Z) s 0%Z in
      match raw with
      | 45%N :: (_ :: _) as s =>
          if forallb digit s then Num (inject_Z (- value s)) else NaN
      | s => if forallb digit s then Num (inject_Z (value s)) else NaN
      end
  end.

(** A configured environment and two servers, for examples: one answers
    every request with the same tokens, the other with status 400. *)
Definition demoEnv : Env :=
  {| VITE_SPOTIFY_CLIENT_ID := Some (js "client-1");
     VITE_SPOTIFY_REDIRECT_URI := Some (js "http://127.0.0.1:5173/callback");
     VITE_SPOTIFY_SCOPES := None |}.

Definition demoTokens : TokenResponse :=
  {| access_token := js "access-1"; expires_in := 3600; refresh_token := None |}.

Definition acceptingEndpoint (request : TokenRequest) : TokenReply := TokenOk demoTokens.


(** * Properties *)

(** ** The rolling row computes the table *)

Lemma min3_cases x y z :
  (min3 x y z = x ∧ x ≤ y ∧ x ≤ z)
  ∨ (min3 x y z = y ∧ y ≤ x ∧ y ≤ z)
  ∨ (min3 x y z = z ∧ z ≤ x ∧ z ≤ y).
Proof. unfold min3. lia. Qed.

Lemma distance_0_r a b i : distance a b i 0 = i.
Proof. by destruct i. Qed.

Lemma distance_S_S a b i j :
  distance a b (S i) (S j) =
    if decide (a !! i = b !! j) then distance a b i j
    else 1 + min3 (distance a b i (S j)) (distance a b (S i) j) (distance a b i j).
Proof. reflexivity. Qed.

Lemma innerBody_inv a b n i k st :
  S k ≤ n → rowInv a b n i k st → rowInv a b n i (S k) (innerBody a b (S i) st (S k)).
Proof.
  intros Hk (Hlen & Hnew & Hold & Hprev).
  assert (Hcur : dp st !!! S k = distance a b i (S k)).
  { apply list_lookup_total_correct, Hold; lia. }
  assert (Hleft : dp st !!! k = distance a b (S i) k).
  { apply list_lookup_total_correct, Hnew; lia. }
  unfold innerBody. cbn [dp prev].
  replace (S i - 1) with i by lia. replace (S k - 1) with k by lia.
  set (v := if decide (a !! i = b !! k) then _ else _).
  assert (Hv : v !! S k = Some (distance a b (S i) (S k)) ∧
               (∀ j, j ≠ S k → v !! j = dp st !! j) ∧ length v = S n).
  { subst v. rewrite distance_S_S, Hcur, Hleft, Hprev.
    destruct (decide (a !! i = b !! k));
      rewrite length_insert;
      (split; [rewrite list_lookup_insert_eq by lia|
               split; [intros j Hj; by rewrite list_lookup_insert_ne|done]]).
    - done.
    - f_equal. unfold min3. lia. }
  destruct Hv as (Hat & Hoth & Hlen').
  repeat split; cbn [dp prev]; [done| | |done].
  - intros j Hj. destruct (decide (j = S k)) as [->|Hne]; [done|].
    rewrite Hoth by done. apply Hnew. lia.
  - intros j Hj Hjn. rewrite Hoth by lia. apply Hold; lia.
Qed.

Lemma innerLoop_inv a b n i k st :
  k ≤ n → rowInv a b n i 0 st →
  rowInv a b n i k (foldl (innerBody a b (S i)) st (seq 1 k)).
Proof.
  intros Hk H0. induction k as [|k IH]; [done|].
  rewrite seq_S, foldl_app. cbn [foldl]. apply innerBody_inv; [lia|].
  apply IH. lia.
Qed.

Lemma outerBody_row a b n i :
  outerBody a b n (distance a b i <$> seq 0 (S n)) (S i)
  = distance a b (S i) <$> seq 0 (S n).
Proof.
  unfold outerBody.
  set (st0 := {| dp := _; prev := _ |}).
  assert (H0 : rowInv a b n i 0 st0).
  { subst st0. repeat split; cbn [dp prev].
    - by rewrite length_insert, length_fmap, length_seq.
    - intros j Hj. assert (j = 0) as -> by lia. done.
    - intros j Hj Hjn. rewrite list_lookup_insert_ne by lia.
      rewrite list_lookup_fmap, lookup_seq_lt by lia. done. }
  destruct (innerLoop_inv a b n i n st0 (le_n _) H0) as (Hlen & Hnew & _ & _).
  apply list_eq. intros j.
  destruct (decide (j ≤ n)) as [Hj|Hj].
  - rewrite Hnew by done.
    rewrite list_lookup_fmap, lookup_seq_lt by lia. done.
  - rewrite !lookup_ge_None_2; [done| |lia].
    rewrite length_fmap, length_seq. lia.
Qed.

Lemma outerLoop_row a b n k :
  foldl (outerBody a b n) (seq 0 (n + 1)) (seq 1 k)
  = distance a b k <$> seq 0 (S n).
Proof.
  induction k as [|k IH].
  - cbn [seq foldl]. replace (n + 1) with (S n) by lia.
    rewrite <- (list_fmap_id (seq 0 (S n))) at 1. done.
  - rewrite seq_S, foldl_app, IH. cbn [foldl]. apply outerBody_row.
Qed.

Lemma levenshteinDistance_table a b :
  levenshteinDistance a b = distance a b (length a) (length b).
Proof.
  unfold levenshteinDistance.
  destruct (length a =? 0) eqn:Hm.
  { apply Nat.eqb_eq in Hm. by rewrite Hm. }
  destruct (length b =? 0) eqn:Hn.
  { apply Nat.eqb_eq in Hn. by rewrite Hn, distance_0_r. }
  rewrite outerLoop_row. apply list_lookup_total_correct.
  rewrite list_lookup_fmap, lookup_seq_lt by lia. done.
Qed.

(** ** The recurrence is the least number of edits *)

Lemma lev_nil_r a : lev a [] = length a.
Proof. by destruct a. Qed.

Lemma lev_cons_cons x a y b :
  lev (x :: a) (y :: b) =
    if decide (x = y) then lev a b
    else 1 + min3 (lev a (y :: b)) (lev (x :: a) b) (lev a b).
Proof. reflexivity. Qed.

Lemma lev_sym a b : lev a b = lev b a.
Proof.
  revert b. induction a as [|x a IHa]; intros b.
  - by rewrite lev_nil_r.
  - induction b as [|y b IHb]; [done|].
    rewrite !lev_cons_cons, IHb, !IHa.
    destruct (decide (x = y)), (decide (y = x)); try congruence.
    unfold min3. lia.
Qed.

Lemma lev_cons_cons_le x a y b :
  lev (x :: a) (y :: b) ≤ S (lev a b).
Proof. rewrite lev_cons_cons. case_decide; unfold min3; lia. Qed.

(** Putting one code unit in front of the first string moves the value by
    at most one, either way. *)
Lemma lev_cons_l_bounded n :
  ∀ a b c, length a + length b ≤ n →
    lev (c :: a) b ≤ S (lev a b) ∧ lev a b ≤ S (lev (c :: a) b).
Proof.
  induction n as [n IH] using lt_wf_ind. intros a b c Hn.
  destruct b as [|y b].
  { rewrite !lev_nil_r. cbn. lia. }
  cbn [length] in Hn.
  assert (Hab : ∀ d, lev (d :: a) b ≤ S (lev a b) ∧ lev a b ≤ S (lev (d :: a) b)).
  { intros d. apply (IH (length a + length b)); lia. }
  assert (Hba : ∀ d, lev a (d :: b) ≤ S (lev a b) ∧ lev a b ≤ S (lev a (d :: b))).
  { intros d. rewrite (lev_sym a (d :: b)), (lev_sym a b).
    apply (IH (length b + length a)); lia. }
  rewrite lev_cons_cons.
  destruct (Hab c) as [H1 H2]. destruct (Hba y) as [H3 H4].
  case_decide; unfold min3; lia.
Qed.

Lemma lev_cons_l a b c : lev (c :: a) b ≤ S (lev a b).
Proof. by apply (lev_cons_l_bounded (length a + length b)). Qed.

Lemma lev_uncons_l a b c : lev a b ≤ S (lev (c :: a) b).
Proof. by apply (lev_cons_l_bounded (length a + length b)). Qed.

Lemma lev_subst_l a b c d : lev (c :: a) b ≤ S (lev (d :: a) b).
Proof.
  destruct b as [|y b]; [by rewrite !lev_nil_r; cbn; lia|].
  pose proof (lev_cons_cons_le c a y b).
  pose proof (lev_cons_l a (y :: b) c).
  pose proof (lev_uncons_l a b d).
  rewrite (lev_cons_cons d). case_decide; unfold min3; lia.
Qed.

(** A bound that holds below a common first code unit holds above it. *)
Lemma lev_under_cons x u u' :
  (∀ b, lev u b ≤ S (lev u' b)) → ∀ b, lev (x :: u) b ≤ S (lev (x :: u') b).
Proof.
  intros Hu b. induction b as [|y b IHb].
  - specialize (Hu []). rewrite !lev_nil_r in *. cbn. lia.
  - rewrite !lev_cons_cons.
    pose proof (Hu b). pose proof (Hu (y :: b)).
    case_decide; unfold min3; lia.
Qed.

Lemma lev_edit1 a a' : edit1 a a' → ∀ b, lev a b ≤ S (lev a' b).
Proof.
  intros [p c s|p c s|p c d s]; induction p as [|x p IH]; cbn [app];
    auto using lev_uncons_l, lev_cons_l, lev_subst_l, lev_under_cons.
Qed.

Lemma lev_lower_bound k a b : editsTo k a b → lev a b ≤ k.
Proof.
  induction 1 as [a|k a a' b He _ IH].
  - induction a as [|x a IHa]; [done|].
    rewrite lev_cons_cons. by case_decide.
  - pose proof (lev_edit1 _ _ He b). lia.
Qed.

Lemma edit1_cons x a a' : edit1 a a' → edit1 (x :: a) (x :: a').
Proof.
  intros [p c s|p c s|p c d s].
  - apply (edit_insert (x :: p)).
  - apply (edit_delete (x :: p)).
  - apply (edit_substitute (x :: p)).
Qed.

Lemma editsTo_cons x k a b : editsTo k a b → editsTo k (x :: a) (x :: b).
Proof. induction 1; econstructor; eauto using edit1_cons. Qed.

Lemma editsTo_weaken_min3 x y z a b :
  editsTo (S x) a b → editsTo (S y) a b → editsTo (S z) a b →
  editsTo (1 + min3 x y z) a b.
Proof.
  intros Hx Hy Hz.
  destruct (min3_cases x y z) as [(-> & _)|[(-> & _)|(-> & _)]]; done.
Qed.

Lemma lev_upper_bound a b : editsTo (lev a b) a b.
Proof.
  revert b. induction a as [|x a IHa]; intros b.
  - induction b as [|y b IHb]; [constructor|].
    cbn in *. apply edits_step with [y]; [apply (edit_insert [] y [])|].
    by apply editsTo_cons.
  - induction b as [|y b IHb].
    + rewrite lev_nil_r. cbn [length].
      apply edits_step with a; [apply (edit_delete [] x a)|].
      rewrite <- lev_nil_r. apply IHa.
    + rewrite lev_cons_cons. case_decide as Hxy.
      * subst y. apply editsTo_cons, IHa.
      * apply editsTo_weaken_min3.
        -- apply edits_step with a; [apply (edit_delete [] x a)|apply IHa].
        -- apply edits_step with (y :: x :: a); [apply (edit_insert [] y (x :: a))|].
           apply editsTo_cons, IHb.
        -- apply edits_step with (y :: a); [apply (edit_substitute [] x y a)|].
           apply editsTo_cons, IHa.
Qed.

Lemma edit1_rev a a' : edit1 a a' → edit1 (rev a) (rev a').
Proof.
  intros [p c s|p c s|p c d s]; rewrite !rev_app_distr; cbn [rev];
    rewrite <- !app_assoc; cbn [app]; constructor.
Qed.

Lemma editsTo_rev k a b : editsTo k a b → editsTo k (rev a) (rev b).
Proof. induction 1; econstructor; eauto using edit1_rev. Qed.

Lemma lev_rev a b : lev (rev a) (rev b) = lev a b.
Proof.
  apply Nat.le_antisymm.
  - apply lev_lower_bound, editsTo_rev, lev_upper_bound.
  - apply lev_lower_bound.
    pose proof (editsTo_rev _ _ _ (lev_upper_bound (rev a) (rev b))) as H.
    by rewrite !rev_involutive in H.
Qed.

(** The table entry at [(i, j)] is the recurrence on the prefixes of
    lengths [i] and [j], read from their ends. *)
Lemma distance_lev_prefix a b i j :
  i ≤ length a → j ≤ length b →
  distance a b i j = lev (rev (take i a)) (rev (take j b)).
Proof.
  revert j. induction i as [|i IHi]; intros j Hi Hj.
  - rewrite take_0. cbn [rev lev distance]. rewrite length_rev, length_take. lia.
  - destruct (lookup_lt_is_Some_2 a i) as [x Hx]; [lia|].
    rewrite (take_S_r _ _ _ Hx), rev_app_distr. cbn [rev app].
    induction j as [|j IHj].
    + rewrite take_0, distance_0_r, lev_nil_r. cbn [rev length].
      rewrite length_rev, length_take. lia.
    + destruct (lookup_lt_is_Some_2 b j) as [y Hy]; [lia|].
      rewrite (take_S_r _ _ _ Hy), rev_app_distr. cbn [rev app].
      rewrite distance_S_S, lev_cons_cons, IHj by lia.
      rewrite !IHi by lia.
      rewrite (take_S_r _ _ _ Hy), rev_app_distr. cbn [rev app].
      rewrite Hx, Hy.
      destruct (decide (Some x = Some y)), (decide (x = y)); congruence.
Qed.

Lemma levenshteinDistance_lev a b : levenshteinDistance a b = lev a b.
Proof.
  rewrite levenshteinDistance_table, distance_lev_prefix by done.
  rewrite !firstn_all. apply lev_rev.
Qed.

Lemma lev_refl a : lev a a = 0.
Proof. pose proof (lev_lower_bound 0 a a (edits_done a)). lia. Qed.

Lemma lev_eq_0 a b : lev a b = 0 ↔ a = b.
Proof.
  split; [|intros ->; apply lev_refl].
  intros H. pose proof (lev_upper_bound a b) as He. rewrite H in He.
  by inversion He.
Qed.

Lemma lev_le_max a b : lev a b ≤ Nat.max (length a) (length b).
Proof.
  revert b. induction a as [|x a IHa]; intros b; [cbn; lia|].
  destruct b as [|y b]; [rewrite lev_nil_r; lia|].
  pose proof (lev_cons_cons_le x a y b). specialize (IHa b). cbn [length]. lia.
Qed.

(** ** The normalizer *)

Ltac charclass :=
  unfold isNormalChar, isPunctuation, isDelimiter, isLowerAlnum, isWhiteSpace,
    isAscii, asciiLower, inRange, LPAREN, RPAREN, LBRACKET, RBRACKET, SPACE in *;
  repeat match goal with
    | |- context [if ?b then _ else _] => destruct b eqn:?
    end;
  repeat (progress rewrite ?orb_true_iff, ?andb_true_iff, ?orb_false_iff,
            ?andb_false_iff, ?N.leb_le, ?N.leb_gt, ?N.eqb_eq, ?N.eqb_neq,
            ?N.ltb_lt, ?N.ltb_ge in *);
  lia.

Lemma alnum_not_whitespace c : isLowerAlnum c = true → isWhiteSpace c = false.
Proof. intros H. destruct (isWhiteSpace c) eqn:E; [|done]. charclass. Qed.

Lemma normalChar_whitespace c :
  isNormalChar c = true → isWhiteSpace c = true → c = SPACE.
Proof. intros H1 H2. charclass. Qed.

Lemma normalChar_not_space c :
  isNormalChar c = true → c ≠ SPACE → isWhiteSpace c = false.
Proof.
  intros H1 H2. destruct (isWhiteSpace c) eqn:E; [|done].
  by destruct H2; apply normalChar_whitespace.
Qed.

Lemma normalChar_keep c :
  isNormalChar c = true → isLowerAlnum c || isWhiteSpace c = true.
Proof. intros H. charclass. Qed.

Lemma normalChar_ascii c : isNormalChar c = true → isAscii c = true.
Proof. intros H. charclass. Qed.

Lemma normalChar_lower c : isNormalChar c = true → asciiLower c = c.
Proof. intros H. charclass. Qed.

Lemma normalChar_not_delimiter c : isNormalChar c = true → isDelimiter c = false.
Proof. intros H. destruct (isDelimiter c) eqn:E; [|done]. charclass. Qed.

Lemma punctuation_ascii c : isPunctuation c = true → isAscii c = true.
Proof. intros H. charclass. Qed.

Lemma punctuation_lower c : isPunctuation c = true → asciiLower c = c.
Proof. intros H. charclass. Qed.

Lemma punctuation_dropped c :
  isPunctuation c = true → isLowerAlnum c || isWhiteSpace c = false.
Proof.
  intros H. destruct (isLowerAlnum c || isWhiteSpace c) eqn:E; [|done]. charclass.
Qed.

(** *** Annotation stripping *)

Lemma stripAnnotations_cons c t :
  stripAnnotations (c :: t) =
    if (c =? LPAREN)%N then
      match findClose RPAREN t with
      | Some rest => stripAnnotations rest
      | None => c :: stripAnnotations t
      end
    else if (c =? LBRACKET)%N then
      match findClose RBRACKET t with
      | Some rest => stripAnnotations rest
      | None => c :: stripAnnotations t
      end
    else c :: stripAnnotations t.
Proof.
  cbn [stripAnnotations].
  match goal with
  | |- context [?f RPAREN t] => set (afterClose := f)
  end.
  assert (Hf : ∀ close u, afterClose close u = stripAnnotations <$> findClose close u).
  { intros close u. induction u as [|d u IH]; [done|].
    cbn. by destruct (d =? close)%N. }
  rewrite !Hf.
  by destruct (findClose RPAREN t), (findClose RBRACKET t).
Qed.

Lemma findClose_None close t : findClose close t = None ↔ close ∉ t.
Proof.
  induction t as [|d t IH]; cbn.
  - split; [intros _; apply not_elem_of_nil|done].
  - rewrite not_elem_of_cons. destruct (N.eqb_spec d close) as [->|Hne].
    + split; [done|]. by intros [[] _].
    + rewrite IH. split; [intros ?; split; [by intros ->|done]|by intros [_ ?]].
Qed.

Lemma findClose_first close body rest :
  close ∉ body → findClose close (body ++ close :: rest) = Some rest.
Proof.
  induction body as [|d body IH]; cbn; intros Hb.
  - by rewrite N.eqb_refl.
  - apply not_elem_of_cons in Hb as [Hd Hb].
    destruct (N.eqb_spec d close); [congruence|auto].
Qed.

Lemma findClose_Some close t rest :
  findClose close t = Some rest →
  ∃ body, t = body ++ close :: rest ∧ close ∉ body.
Proof.
  revert rest. induction t as [|d t IH]; cbn; intros rest H; [done|].
  destruct (N.eqb_spec d close) as [->|Hne].
  - injection H as ->. exists []. split; [done|apply not_elem_of_nil].
  - destruct (IH _ H) as (body & -> & Hb). exists (d :: body).
    split; [done|]. rewrite not_elem_of_cons. auto.
Qed.

Lemma stripAnnotations_keep c t :
  c ≠ LPAREN → c ≠ LBRACKET →
  stripAnnotations (c :: t) = c :: stripAnnotations t.
Proof.
  intros H1 H2. rewrite stripAnnotations_cons.
  by destruct (N.eqb_spec c LPAREN), (N.eqb_spec c LBRACKET).
Qed.

Lemma stripAnnotations_fixed s :
  Forall (λ c, isDelimiter c = false) s → stripAnnotations s = s.
Proof.
  induction 1 as [|c t Hc _ IH]; [done|].
  rewrite stripAnnotations_keep, IH; [done| |]; intros ->; done.
Qed.

(** Stripping only deletes: what is left was in the input. *)
Lemma stripAnnotations_elem_of x s : x ∈ stripAnnotations s → x ∈ s.
Proof.
  remember (length s) as n eqn:Hn. revert s Hn.
  induction n as [n IH] using lt_wf_ind. intros [|c t] Hn; [done|].
  cbn [length] in Hn. rewrite stripAnnotations_cons.
  assert (Ht : x ∈ c :: stripAnnotations t → x ∈ c :: t).
  { rewrite !elem_of_cons. intros [?|?]; [by left|right].
    apply (IH (length t)); [lia|done..]. }
  assert (Hrest : ∀ close rest, findClose close t = Some rest →
                    x ∈ stripAnnotations rest → x ∈ c :: t).
  { intros close rest Hf Hx. apply findClose_Some in Hf as (body & -> & _).
    apply (IH (length rest)) in Hx; [|subst n; rewrite length_app; cbn; lia|done].
    rewrite elem_of_cons, elem_of_app, elem_of_cons. auto. }
  destruct (c =? LPAREN)%N; [destruct (findClose RPAREN t) eqn:E; eauto|].
  destruct (c =? LBRACKET)%N; [destruct (findClose RBRACKET t) eqn:E; eauto|].
  done.
Qed.

(** After stripping, no kept opening delimiter has its closing delimiter
    anywhere to its right: every group the scan could match is gone. *)
Lemma stripAnnotations_complete s p q :
  (stripAnnotations s = p ++ LPAREN :: q → RPAREN ∉ q)
  ∧ (stripAnnotations s = p ++ LBRACKET :: q → RBRACKET ∉ q).
Proof.
  remember (length s) as n eqn:Hn. revert s p Hn.
  induction n as [n IH] using lt_wf_ind. intros [|c t] p Hn.
  { cbn. split; intros H; by destruct p. }
  cbn [length] in Hn. rewrite stripAnnotations_cons.
  assert (Hrest : ∀ close rest, findClose close t = Some rest →
            (stripAnnotations rest = p ++ LPAREN :: q → RPAREN ∉ q)
            ∧ (stripAnnotations rest = p ++ LBRACKET :: q → RBRACKET ∉ q)).
  { intros close rest Hf. apply findClose_Some in Hf as (body & -> & _).
    apply (IH (length rest)); [subst n; rewrite length_app; cbn; lia|done]. }
  assert (Hcons : ∀ open close, (c = open → close ∉ t) →
            c :: stripAnnotations t = p ++ open :: q →
            (∀ p', stripAnnotations t = p' ++ open :: q → close ∉ q) →
            close ∉ q).
  { intros open close Hc Heq Hind. destruct p as [|c' p'].
    - cbn in Heq. injection Heq as -> <-.
      intros Hx. apply stripAnnotations_elem_of in Hx. by apply Hc.
    - cbn in Heq. injection Heq as _ Heq. by apply (Hind p'). }
  assert (Htail : ∀ p', (stripAnnotations t = p' ++ LPAREN :: q → RPAREN ∉ q)
            ∧ (stripAnnotations t = p' ++ LBRACKET :: q → RBRACKET ∉ q)).
  { intros p'. apply (IH (length t)); [lia|done]. }
  destruct (N.eqb_spec c LPAREN) as [->|Hp].
  { destruct (findClose RPAREN t) eqn:E; [by eapply Hrest|].
    apply findClose_None in E. split; intros Heq.
    - apply (Hcons LPAREN RPAREN); [done..|]. intros p'. apply Htail.
    - apply (Hcons LBRACKET RBRACKET); [done..|]. intros p'. apply Htail. }
  destruct (N.eqb_spec c LBRACKET) as [->|Hb].
  { destruct (findClose RBRACKET t) eqn:E; [by eapply Hrest|].
    apply findClose_None in E. split; intros Heq.
    - apply (Hcons LPAREN RPAREN); [done..|]. intros p'. apply Htail.
    - apply (Hcons LBRACKET RBRACKET); [done..|]. intros p'. apply Htail. }
  split; intros Heq.
  - apply (Hcons LPAREN RPAREN); [done..|]. intros p'. apply Htail.
  - apply (Hcons LBRACKET RBRACKET); [done..|]. intros p'. apply Htail.
Qed.

(** *** Punctuation, whitespace and trimming *)

Lemma stripPunctuation_kept s :
  Forall (λ c, isLowerAlnum c = true ∨ isWhiteSpace c = true) (stripPunctuation s).
Proof.
  unfold stripPunctuation.
  induction s as [|c s IH]; cbn [List.filter]; [constructor|].
  destruct (isLowerAlnum c || isWhiteSpace c) eqn:E; [|done].
  constructor; [by apply orb_true_iff|done].
Qed.

Lemma stripPunctuation_fixed s :
  Forall (λ c, isNormalChar c = true) s → stripPunctuation s = s.
Proof.
  unfold stripPunctuation.
  induction 1 as [|c s Hc _ IH]; cbn [List.filter]; [done|].
  by rewrite (normalChar_keep c Hc), IH.
Qed.

Lemma stripPunctuation_all_dropped s :
  Forall (λ c, isLowerAlnum c || isWhiteSpace c = false) s →
  stripPunctuation s = [].
Proof.
  unfold stripPunctuation.
  induction 1 as [|c s Hc _ IH]; cbn [List.filter]; [done|]. by rewrite Hc.
Qed.

Lemma singleSpaces_cons c t :
  singleSpaces (c :: t) = true ↔
  (c = SPACE → head t ≠ Some SPACE) ∧ singleSpaces t = true.
Proof.
  cbn [singleSpaces]. rewrite andb_true_iff, negb_true_iff, andb_false_iff.
  destruct t as [|d t']; cbn [head hd_error].
  - split; [intros [_ ?]; by split|intros [_ ?]; split; [by right|done]].
  - rewrite !N.eqb_neq. split.
    + intros [[?|?] ?]; (split; [|done]); [done|congruence].
    + intros [H ?]. split; [|done].
      destruct (decide (c = SPACE)); [right|by left].
      intros ->. by apply H.
Qed.

Lemma singleSpaces_app p q :
  singleSpaces (p ++ q) = true → singleSpaces p = true ∧ singleSpaces q = true.
Proof.
  induction p as [|c p IH]; [done|]. cbn [app].
  rewrite !singleSpaces_cons. intros [Hc Hpq].
  destruct (IH Hpq) as [Hp Hq]. repeat split; [|done..].
  intros E Hh. apply (Hc E). destruct p; [done|exact Hh].
Qed.

(** A whitespace run is replaced by one space, and the output of the
    collapse never has two spaces in a row. *)
Lemma collapseFrom_normal inRun s :
  Forall (λ c, isLowerAlnum c = true ∨ isWhiteSpace c = true) s →
  Forall (λ c, isNormalChar c = true) (collapseFrom inRun s)
  ∧ singleSpaces (collapseFrom inRun s) = true
  ∧ (inRun = true → head (collapseFrom inRun s) ≠ Some SPACE).
Proof.
  intros Hs. revert inRun.
  induction Hs as [|c s Hc _ IH]; intros inRun; [by destruct inRun|].
  cbn [collapseFrom].
  destruct (IH true) as (Ht1 & Ht2 & Ht3), (IH false) as (Hf1 & Hf2 & _).
  destruct (isWhiteSpace c) eqn:Ews.
  - destruct inRun; [by auto|].
    repeat split; [by constructor| |done].
    apply singleSpaces_cons. auto.
  - assert (isLowerAlnum c = true) as Hal by (destruct Hc; congruence).
    assert (c ≠ SPACE) by (intros ->; done).
    repeat split.
    + constructor; [|done]. unfold isNormalChar. by rewrite Hal.
    + apply singleSpaces_cons. auto.
    + intros _. cbn. congruence.
Qed.

Lemma collapseFrom_fixed s :
  Forall (λ c, isNormalChar c = true) s → singleSpaces s = true →
  collapseFrom false s = s ∧ (head s ≠ Some SPACE → collapseFrom true s = s).
Proof.
  induction 1 as [|c s Hc _ IH]; [done|].
  rewrite singleSpaces_cons. intros [Hsp Hs].
  destruct (IH Hs) as [IH1 IH2]. cbn [collapseFrom head hd_error].
  destruct (decide (c = SPACE)) as [->|Hne].
  - cbn. split; [by rewrite IH2; auto|done].
  - rewrite (normalChar_not_space c) by done. by rewrite IH1.
Qed.

Lemma trimStart_suffix s : ∃ w, s = w ++ trimStart s.
Proof.
  induction s as [|c s [w IH]]; [by exists []|]. cbn.
  destruct (isWhiteSpace c).
  - exists (c :: w). cbn. by f_equal.
  - by exists [].
Qed.

Lemma trimStart_head s c :
  head (trimStart s) = Some c → isWhiteSpace c = false.
Proof.
  induction s as [|d s IH]; cbn; [done|].
  destruct (isWhiteSpace d) eqn:E; [done|]. cbn. congruence.
Qed.

Lemma trimStart_fixed s :
  (∀ c, head s = Some c → isWhiteSpace c = false) → trimStart s = s.
Proof. destruct s as [|c s]; cbn; [done|]. intros H. by rewrite H. Qed.

Lemma trimEnd_prefix s : ∃ w, s = trimEnd s ++ w.
Proof.
  destruct (trimStart_suffix (rev s)) as [w Hw]. exists (rev w).
  unfold trimEnd. by rewrite <- rev_app_distr, <- Hw, rev_involutive.
Qed.

Lemma last_rev (l : jsstring) : list.last (rev l) = head l.
Proof. destruct l as [|x l]; [done|]. cbn. apply last_snoc. Qed.

Lemma trimEnd_last s c :
  list.last (trimEnd s) = Some c → isWhiteSpace c = false.
Proof. unfold trimEnd. rewrite last_rev. apply trimStart_head. Qed.

Lemma trimEnd_fixed s :
  (∀ c, list.last s = Some c → isWhiteSpace c = false) → trimEnd s = s.
Proof.
  intros H. unfold trimEnd. rewrite trimStart_fixed; [apply rev_involutive|].
  intros c Hc. apply H. by rewrite <- (rev_involutive s), last_rev.
Qed.

Lemma trim_infix s : ∃ w1 w2, s = w1 ++ trim s ++ w2.
Proof.
  destruct (trimStart_suffix s) as [w1 H1].
  destruct (trimEnd_prefix (trimStart s)) as [w2 H2].
  exists w1, w2. unfold trim. by rewrite <- H2.
Qed.

Lemma trim_normalized s :
  Forall (λ c, isNormalChar c = true) s → singleSpaces s = true →
  normalized (trim s).
Proof.
  intros Hall Hsp. destruct (trim_infix s) as (w1 & w2 & Hs).
  rewrite Hs in Hall, Hsp.
  apply Forall_app in Hall as [_ Hall]. apply Forall_app in Hall as [Hall _].
  apply singleSpaces_app in Hsp as [_ Hsp]. apply singleSpaces_app in Hsp as [Hsp _].
  repeat split; [done..| |].
  - intros Hh. unfold trim in Hh.
    destruct (trimEnd_prefix (trimStart s)) as [w Hw].
    destruct (trimEnd (trimStart s)) as [|c u] eqn:E; [done|].
    cbn in Hh. injection Hh as ->.
    by pose proof (trimStart_head s SPACE ltac:(by rewrite Hw)).
  - intros Hl. by pose proof (trimEnd_last _ _ Hl).
Qed.

Lemma trim_fixed s : normalized s → trim s = s.
Proof.
  intros (Hall & _ & Hh & Hl). unfold trim.
  assert (Hws : ∀ c, c ∈ s → c ≠ SPACE → isWhiteSpace c = false).
  { intros c Hc. apply normalChar_not_space. rewrite list.Forall_forall in Hall. by apply Hall. }
  rewrite trimStart_fixed.
  - apply trimEnd_fixed. intros c Hc. apply Hws; [|congruence].
    apply last_Some in Hc as [l' ->]. rewrite elem_of_app, elem_of_cons. auto.
  - intros c Hc. apply Hws; [|congruence].
    apply head_Some in Hc as [l' ->]. apply elem_of_cons. auto.
Qed.

(** ** Arithmetic of the ratio *)

Lemma ratio_bounds d m :
  d ≤ m → 1 ≤ m →
  (0 <= 1 - inject_Z (Z.of_nat d) / inject_Z (Z.of_nat m)
   ∧ 1 - inject_Z (Z.of_nat d) / inject_Z (Z.of_nat m) <= 1)%Q.
Proof.
  intros Hd Hm. destruct m as [|m]; [lia|].
  change (Z.of_nat (S m)) with (Z.pos (Pos.of_succ_nat m)).
  unfold Qle, Qminus, Qplus, Qopp, Qdiv, Qmult, Qinv, inject_Z. cbn.
  lia.
Qed.

Lemma ratio_eq_1 d m :
  1 ≤ m → (1 - inject_Z (Z.of_nat d) / inject_Z (Z.of_nat m) == 1)%Q ↔ d = 0.
Proof.
  intros Hm. destruct m as [|m]; [lia|].
  change (Z.of_nat (S m)) with (Z.pos (Pos.of_succ_nat m)).
  unfold Qeq, Qminus, Qplus, Qopp, Qdiv, Qmult, Qinv, inject_Z. cbn.
  lia.
Qed.

Lemma ratio_eq_0 d m :
  1 ≤ m → (1 - inject_Z (Z.of_nat d) / inject_Z (Z.of_nat m) == 0)%Q ↔ d = m.
Proof.
  intros Hm. destruct m as [|m]; [lia|].
  change (Z.of_nat (S m)) with (Z.pos (Pos.of_succ_nat m)).
  unfold Qeq, Qminus, Qplus, Qopp, Qdiv, Qmult, Qinv, inject_Z. cbn.
  lia.
Qed.

Lemma ratio_threshold d m :
  1 ≤ m →
  (THRESHOLD <= 1 - inject_Z (Z.of_nat d) / inject_Z (Z.of_nat m))%Q
  ↔ 10 * d ≤ 3 * m.
Proof.
  intros Hm. destruct m as [|m]; [lia|].
  change (Z.of_nat (S m)) with (Z.pos (Pos.of_succ_nat m)).
  unfold THRESHOLD, Qle, Qminus, Qplus, Qopp, Qdiv, Qmult, Qinv, inject_Z. cbn.
  lia.
Qed.

Lemma editDistance_lev a b d : editDistance a b d ↔ d = lev a b.
Proof.
  split.
  - intros [Hd Hmin]. apply Nat.le_antisymm.
    + apply Hmin, lev_upper_bound.
    + by apply lev_lower_bound.
  - intros ->. split; [apply lev_upper_bound|intros k; apply lev_lower_bound].
Qed.

Lemma forallb_true_Forall (P : codeunit → bool) (s : jsstring) :
  forallb P s = true → Forall (λ c, P c = true) s.
Proof.
  induction s as [|c s IH]; cbn; [constructor|].
  rewrite andb_true_iff. intros [? ?]. constructor; auto.
Qed.

Lemma asciiLower_delimiter c d :
  isDelimiter d = true → asciiLower c = d ↔ c = d.
Proof.
  intros Hd. unfold asciiLower.
  destruct (inRange 65 90 c) eqn:E; split; intros H; charclass.
Qed.

Lemma stripAnnotations_app_keep pre s :
  Forall (λ c, c ≠ LPAREN ∧ c ≠ LBRACKET) pre →
  stripAnnotations (pre ++ s) = pre ++ stripAnnotations s.
Proof.
  induction 1 as [|c pre [? ?] _ IH]; [done|].
  cbn [app]. by rewrite stripAnnotations_keep, IH.
Qed.

(** Up to 256 code units the rounding of binary64 changes none of the
    comparisons made on the ratio, the boundary [dist / maxLen = 3 / 10]
    included. *)
Lemma ratio64_agrees_upto_256 :
  forallb (λ maxLen, forallb (ratioAgrees maxLen) (seq 0 (S maxLen))) (seq 1 256) = true.
Proof. vm_compute. reflexivity. Qed.

Lemma ratioAgrees_upto_256 maxLen dist :
  1 ≤ maxLen ≤ 256 → dist ≤ maxLen → ratioAgrees maxLen dist = true.
Proof.
  intros Hm Hd. pose proof ratio64_agrees_upto_256 as H.
  rewrite List.forallb_forall in H. specialize (H maxLen).
  rewrite List.forallb_forall in H. apply H; apply List.in_seq; lia.
Qed.

(** ** What is left of a source without its groups *)

(** The scan of [stripAnnotations] leaves exactly the source without its
    groups. *)
Lemma withoutGroups_stripAnnotations s kept :
  withoutGroups s kept → stripAnnotations s = kept.
Proof.
  induction 1 as [|c s kept H1 H2 _ IH|open close body s kept Hp Hb _ IH
                 |open close s kept Hp Hs _ IH].
  - done.
  - by rewrite stripAnnotations_keep, IH.
  - rewrite stripAnnotations_cons.
    destruct Hp as [[-> ->]|[-> ->]]; cbn [N.eqb Pos.eqb LPAREN LBRACKET];
      by rewrite findClose_first.
  - rewrite stripAnnotations_cons.
    destruct Hp as [[-> ->]|[-> ->]]; cbn [N.eqb Pos.eqb LPAREN LBRACKET];
      by rewrite (proj2 (findClose_None _ _) Hs), IH.
Qed.

(** Every source can be read in this way. *)
Lemma withoutGroups_total s : withoutGroups s (stripAnnotations s).
Proof.
  remember (length s) as n eqn:Hn. revert s Hn.
  induction n as [n IH] using lt_wf_ind. intros [|c t] Hn; [constructor|].
  cbn [length] in Hn.
  assert (Ht : withoutGroups t (stripAnnotations t)) by (apply (IH (length t)); [lia|done]).
  assert (Hopen : ∀ open close, groupDelimiters open close → c = open →
            withoutGroups (c :: t)
              match findClose close t with
              | Some rest => stripAnnotations rest
              | None => c :: stripAnnotations t
              end).
  { intros open close Hp ->. destruct (findClose close t) as [rest|] eqn:E.
    - apply findClose_Some in E as (body & -> & Hb).
      apply (without_group open close); [done..|].
      apply (IH (length rest)); [subst n; rewrite length_app; cbn; lia|done].
    - apply (without_unclosed open close); [done| |done].
      by apply findClose_None. }
  rewrite stripAnnotations_cons.
  destruct (N.eqb_spec c LPAREN) as [E1|E1].
  { apply (Hopen LPAREN RPAREN); [by left|done]. }
  destruct (N.eqb_spec c LBRACKET) as [E2|E2].
  { apply (Hopen LBRACKET RBRACKET); [by right|done]. }
  by apply without_keep.
Qed.

(** Lower-casing ASCII letters moves no delimiter, so the groups of the
    lower-cased source are the groups of the source. *)
Lemma withoutGroups_asciiLower s kept :
  withoutGroups s kept → withoutGroups (asciiLower <$> s) (asciiLower <$> kept).
Proof.
  assert (Hnotin : ∀ (close : codeunit) (body : jsstring),
            isDelimiter close = true → close ∉ body → close ∉ asciiLower <$> body).
  { intros close body Hc Hb (c & E & Hin)%list_elem_of_fmap. symmetry in E.
    apply (asciiLower_delimiter c close Hc) in E. by subst. }
  assert (Hpair : ∀ open close, groupDelimiters open close →
            isDelimiter open = true ∧ isDelimiter close = true
            ∧ asciiLower open = open ∧ asciiLower close = close).
  { by intros open close [[-> ->]|[-> ->]]. }
  induction 1 as [|c s kept H1 H2 _ IH|open close body s kept Hp Hb _ IH
                 |open close s kept Hp Hs _ IH].
  - constructor.
  - cbn [fmap list_fmap]. apply without_keep; [| |done]; intros E.
    + by apply (asciiLower_delimiter c LPAREN) in E.
    + by apply (asciiLower_delimiter c LBRACKET) in E.
  - destruct (Hpair _ _ Hp) as (Ho & Hc & Eo & Ec).
    rewrite fmap_cons, fmap_app, fmap_cons, Eo, Ec.
    apply (without_group open close); [done| |done]. by apply Hnotin.
  - destruct (Hpair _ _ Hp) as (Ho & Hc & Eo & Ec).
    rewrite !fmap_cons, Eo.
    apply (without_unclosed open close); [done| |done]. by apply Hnotin.
Qed.

(** What the scan has left holds no group any more: a second scan changes
    nothing. *)
Lemma stripAnnotations_idempotent s :
  stripAnnotations (stripAnnotations s) = stripAnnotations s.
Proof.
  assert (Hclosed : ∀ l,
    (∀ p q, l = p ++ LPAREN :: q → RPAREN ∉ q) →
    (∀ p q, l = p ++ LBRACKET :: q → RBRACKET ∉ q) →
    stripAnnotations l = l).
  { induction l as [|c l IH]; intros Hp Hb; [done|].
    assert (Hl : stripAnnotations l = l).
    { apply IH; intros p q ->.
      - by apply (Hp (c :: p)).
      - by apply (Hb (c :: p)). }
    rewrite stripAnnotations_cons, Hl.
    destruct (N.eqb_spec c LPAREN) as [->|E1].
    { by rewrite (proj2 (findClose_None _ _) (Hp [] l eq_refl)). }
    destruct (N.eqb_spec c LBRACKET) as [->|E2].
    { by rewrite (proj2 (findClose_None _ _) (Hb [] l eq_refl)). }
    done. }
  apply Hclosed; intros p q E.
  - by apply (proj1 (stripAnnotations_complete s p q)).
  - by apply (proj2 (stripAnnotations_complete s p q)).
Qed.

(** ** The scorer *)

Section ScorerProperties.
Variable toLowerCase : jsstring → jsstring.


Lemma normalizeTitle_normalized input : normalized (normalizeTitle toLowerCase input).
Proof.
  unfold normalizeTitle, collapseWhitespace.
  set (s := stripPunctuation _).
  destruct (collapseFrom_normal false s (stripPunctuation_kept _)) as (H1 & H2 & _).
  by apply trim_normalized.
Qed.

(** The two branches of [similarity], with the distance and the
    denominator in closed form. *)
Lemma similarity_cases aRaw bRaw :
  (normalizeTitle toLowerCase aRaw = [] ∧ normalizeTitle toLowerCase bRaw = [] ∧ similarity toLowerCase aRaw bRaw = 1%Q)
  ∨ (¬ (normalizeTitle toLowerCase aRaw = [] ∧ normalizeTitle toLowerCase bRaw = [])
     ∧ 1 ≤ Nat.max (length (normalizeTitle toLowerCase aRaw)) (length (normalizeTitle toLowerCase bRaw))
     ∧ similarity toLowerCase aRaw bRaw =
         (1 - inject_Z (Z.of_nat (lev (normalizeTitle toLowerCase aRaw) (normalizeTitle toLowerCase bRaw)))
              / inject_Z (Z.of_nat (Nat.max (length (normalizeTitle toLowerCase aRaw))
                                            (length (normalizeTitle toLowerCase bRaw)))))%Q).
Proof.
  unfold similarity.
  destruct (normalizeTitle toLowerCase aRaw) as [|x a], (normalizeTitle toLowerCase bRaw) as [|y b]; cbn [length Nat.eqb andb];
    [by left|right..]; rewrite levenshteinDistance_lev;
    (split; [by intros [? ?]|split; [cbn; lia|done]]).
Qed.

Lemma similarity_threshold aRaw bRaw :
  (THRESHOLD <= similarity toLowerCase aRaw bRaw)%Q ↔
  10 * lev (normalizeTitle toLowerCase aRaw) (normalizeTitle toLowerCase bRaw)
    ≤ 3 * Nat.max (length (normalizeTitle toLowerCase aRaw)) (length (normalizeTitle toLowerCase bRaw)).
Proof.
  destruct (similarity_cases aRaw bRaw) as [(Ha & Hb & ->)|(_ & Hm & ->)].
  - rewrite Ha, Hb. cbn. split; [lia|done].
  - by apply ratio_threshold.
Qed.

(** The test [sim >= 0.7] gives the same verdict on the JS number as on
    the rational of the model, for normalized forms of up to 256 code
    units. *)
Lemma threshold64_agrees aRaw bRaw :
  ¬ (normalizeTitle toLowerCase aRaw = [] ∧ normalizeTitle toLowerCase bRaw = []) →
  Nat.max (length (normalizeTitle toLowerCase aRaw))
          (length (normalizeTitle toLowerCase bRaw)) ≤ 256 →
  PrimFloat.leb THRESHOLD64
    (ratio64 (levenshteinDistance (normalizeTitle toLowerCase aRaw)
                                  (normalizeTitle toLowerCase bRaw))
             (Nat.max (length (normalizeTitle toLowerCase aRaw))
                      (length (normalizeTitle toLowerCase bRaw))))
  = Qle_bool THRESHOLD (similarity toLowerCase aRaw bRaw).
Proof.
  intros Hne Hlen.
  destruct (similarity_cases aRaw bRaw) as [(Ha & Hb & _)|(_ & Hm & ->)].
  { by destruct Hne. }
  rewrite levenshteinDistance_lev.
  pose proof (lev_le_max (normalizeTitle toLowerCase aRaw)
                         (normalizeTitle toLowerCase bRaw)) as Hle.
  pose proof (ratioAgrees_upto_256 _ _ (conj Hm Hlen) Hle) as Hag.
  unfold ratioAgrees in Hag. apply andb_true_iff in Hag as [Hag _].
  apply andb_true_iff in Hag as [Hag _]. by apply Bool.eqb_prop in Hag.
Qed.

Lemma submit_result st track :
  currentTrack st = Some track →
  result (handleGuessSubmit toLowerCase st) =
    if Qle_bool THRESHOLD (similarity toLowerCase (guess st) (name track)) then Correct else Wrong.
Proof.
  intros Ht. unfold handleGuessSubmit. rewrite Ht.
  destruct (Qle_bool _ _); [done|]. by destruct (_ <=? _)%Z.
Qed.

(** While the Guess button is enabled at least one try is left. *)
Lemma reachable_triesLeft st :
  reachable toLowerCase st →
  revealed st = false → (1 ≤ triesLeft st ≤ 3)%Z.
Proof.
  induction 1 as [|st ch _ IH|st g _ IH|st _ IH|st _ IH|st _ _|st _ IH
                 |st _ IH Hrev _]; cbn; try done; try lia.
  - unfold playSnippet. by destruct (canPlay st).
  - unfold handleGuessSubmit. destruct (currentTrack st); [|done].
    destruct (Qle_bool _ _); [done|].
    destruct (Z.leb_spec (triesLeft st - 1) 0); cbn; [done|].
    intros _. specialize (IH Hrev). lia.
Qed.

(** C1.  [similarity] returns exactly 1 when both normalized forms are
    empty; otherwise it returns 1 minus the Levenshtein distance of the
    normalized forms (the least number of single-character edits) over
    the larger of their lengths.  The result lies between 0 and 1, and it
    is 1 exactly when the two normalized forms are the same string. *)
Theorem similarity_contract aRaw bRaw :
  ((normalizeTitle toLowerCase aRaw = [] ∧ normalizeTitle toLowerCase bRaw = [] ∧ similarity toLowerCase aRaw bRaw = 1%Q)
   ∨ (¬ (normalizeTitle toLowerCase aRaw = [] ∧ normalizeTitle toLowerCase bRaw = [])
      ∧ ∃ d, editDistance (normalizeTitle toLowerCase aRaw) (normalizeTitle toLowerCase bRaw) d
         ∧ similarity toLowerCase aRaw bRaw =
             (1 - inject_Z (Z.of_nat d)
                  / inject_Z (Z.of_nat (Nat.max (length (normalizeTitle toLowerCase aRaw))
                                                (length (normalizeTitle toLowerCase bRaw)))))%Q))
  ∧ (0 <= similarity toLowerCase aRaw bRaw)%Q ∧ (similarity toLowerCase aRaw bRaw <= 1)%Q
  ∧ ((similarity toLowerCase aRaw bRaw == 1)%Q ↔ normalizeTitle toLowerCase aRaw = normalizeTitle toLowerCase bRaw).
Proof.
  destruct (similarity_cases aRaw bRaw) as [(Ha & Hb & Hs)|(Hne & Hm & Hs)].
  - split; [by left|]. rewrite Hs, Ha, Hb. by repeat split.
  - split.
    { right. split; [done|]. exists (lev (normalizeTitle toLowerCase aRaw) (normalizeTitle toLowerCase bRaw)).
      split; [by apply editDistance_lev|done]. }
    rewrite Hs.
    pose proof (lev_le_max (normalizeTitle toLowerCase aRaw) (normalizeTitle toLowerCase bRaw)) as Hle.
    destruct (ratio_bounds _ _ Hle Hm) as [H0 H1].
    repeat split; [done..| |].
    + intros H. by apply ratio_eq_1, lev_eq_0 in H.
    + intros H. apply ratio_eq_1; [done|]. by apply lev_eq_0.
Qed.

(** C6.  [similarity] does not depend on the order of its arguments. *)
Theorem similarity_symmetric aRaw bRaw : similarity toLowerCase aRaw bRaw = similarity toLowerCase bRaw aRaw.
Proof.
  unfold similarity.
  rewrite !levenshteinDistance_lev, (lev_sym (normalizeTitle toLowerCase bRaw)).
  by rewrite (Nat.max_comm (length (normalizeTitle toLowerCase bRaw))), andb_comm.
Qed.

(** C7.  Every string is fully similar to itself. *)
Theorem similarity_identity s : (similarity toLowerCase s s == 1)%Q.
Proof.
  destruct (similarity_cases s s) as [(_ & _ & ->)|(_ & Hm & ->)]; [done|].
  apply ratio_eq_1; [done|]. apply lev_refl.
Qed.

(** C2.  With a current track, a submitted guess is marked correct
    exactly when its similarity to the track's title reaches the
    threshold 0.7.  A guess at edit distance 1 from a title whose longer
    normalized form has 10 code units scores 0.9 and is marked correct; a
    guess whose edit distance exceeds 30% of the longer normalized length
    is marked wrong. *)
Theorem guess_judged_by_threshold st track :
  currentTrack st = Some track →
  (result (handleGuessSubmit toLowerCase st) = Correct ↔ (THRESHOLD <= similarity toLowerCase (guess st) (name track))%Q)
  ∧ (result (handleGuessSubmit toLowerCase st) = Wrong ↔ ¬ (THRESHOLD <= similarity toLowerCase (guess st) (name track))%Q)
  ∧ (∀ d, editDistance (normalizeTitle toLowerCase (guess st)) (normalizeTitle toLowerCase (name track)) d →
       (d = 1 →
        Nat.max (length (normalizeTitle toLowerCase (guess st))) (length (normalizeTitle toLowerCase (name track))) = 10 →
        (similarity toLowerCase (guess st) (name track) == 9 # 10)%Q ∧ result (handleGuessSubmit toLowerCase st) = Correct)
       ∧ (3 * Nat.max (length (normalizeTitle toLowerCase (guess st))) (length (normalizeTitle toLowerCase (name track)))
            < 10 * d →
          result (handleGuessSubmit toLowerCase st) = Wrong)).
Proof.
  intros Ht. rewrite (submit_result st track Ht).
  destruct (Qle_bool _ _) eqn:E.
  - assert (Hyes : (THRESHOLD <= similarity toLowerCase (guess st) (name track))%Q)
      by (by apply Qle_bool_iff).
    split; [done|]. split; [split; [done|by intros []]|].
    intros d Hd. apply editDistance_lev in Hd as ->. split.
    + intros Hlev Hmax. split; [|done].
      destruct (similarity_cases (guess st) (name track))
        as [(Ha & Hb & _)|(_ & _ & ->)].
      * rewrite Ha, Hb in Hmax. done.
      * rewrite Hlev, Hmax. done.
    + intros Hfar. apply similarity_threshold in Hyes. lia.
  - assert (Hno : ¬ (THRESHOLD <= similarity toLowerCase (guess st) (name track))%Q).
    { intros H. apply Qle_bool_iff in H. congruence. }
    split; [split; [done|intros H; by apply Hno in H]|]. split; [done|].
    intros d Hd. apply editDistance_lev in Hd as ->. split; [|done].
    intros Hlev Hmax. destruct Hno. apply similarity_threshold. lia.
Qed.

(** C10.  With a current track, a submission judged correct leaves
    [triesLeft] and [wrongCount] alone and adds one to [correctCount]; a
    submission judged wrong takes one from [triesLeft] and leaves
    [correctCount] alone; it adds one to [wrongCount] and reveals the
    answer when the decremented [triesLeft] is used up, and otherwise
    leaves both alone.  Starting from at least one try left, as is the
    case whenever the Guess button is enabled, [wrongCount] is
    incremented exactly when the decremented [triesLeft] is zero. *)
Theorem handleGuessSubmit_frame st track :
  currentTrack st = Some track →
  ((THRESHOLD <= similarity toLowerCase (guess st) (name track))%Q →
     triesLeft (handleGuessSubmit toLowerCase st) = triesLeft st
     ∧ wrongCount (handleGuessSubmit toLowerCase st) = wrongCount st
     ∧ correctCount (handleGuessSubmit toLowerCase st) = (correctCount st + 1)%Z)
  ∧ (¬ (THRESHOLD <= similarity toLowerCase (guess st) (name track))%Q →
     triesLeft (handleGuessSubmit toLowerCase st) = (triesLeft st - 1)%Z
     ∧ correctCount (handleGuessSubmit toLowerCase st) = correctCount st
     ∧ ((triesLeft (handleGuessSubmit toLowerCase st) <= 0)%Z →
          wrongCount (handleGuessSubmit toLowerCase st) = (wrongCount st + 1)%Z
          ∧ revealed (handleGuessSubmit toLowerCase st) = true)
     ∧ ((0 < triesLeft (handleGuessSubmit toLowerCase st))%Z →
          wrongCount (handleGuessSubmit toLowerCase st) = wrongCount st
          ∧ revealed (handleGuessSubmit toLowerCase st) = revealed st)
     ∧ ((1 <= triesLeft st)%Z →
          (wrongCount (handleGuessSubmit toLowerCase st) = (wrongCount st + 1)%Z
           ↔ triesLeft (handleGuessSubmit toLowerCase st) = 0%Z)
          ∧ (triesLeft (handleGuessSubmit toLowerCase st) = 0%Z → revealed (handleGuessSubmit toLowerCase st) = true))).
Proof.
  intros Ht. unfold handleGuessSubmit. rewrite Ht.
  destruct (Qle_bool _ _) eqn:E.
  - apply Qle_bool_iff in E. split; [done|]. by intros [].
  - split; [intros H; apply Qle_bool_iff in H; congruence|]. intros _.
    destruct (Z.leb_spec (triesLeft st - 1) 0); cbn;
      repeat match goal with
        | |- _ ∧ _ => split
        | |- _ ↔ _ => split
        | |- _ → _ => intro
        end; try done; try lia.
Qed.

(** When exactly one normalized form is empty the distance is the other
    one's length, and the ratio is 0. *)
Lemma similarity_one_empty aRaw bRaw :
  (normalizeTitle toLowerCase aRaw = [] ∧ normalizeTitle toLowerCase bRaw ≠ [])
  ∨ (normalizeTitle toLowerCase aRaw ≠ [] ∧ normalizeTitle toLowerCase bRaw = []) →
  (similarity toLowerCase aRaw bRaw == 0)%Q.
Proof.
  intros Hone.
  destruct (similarity_cases aRaw bRaw) as [(Ha & Hb & _)|(_ & Hm & ->)].
  { by destruct Hone as [[_ ?]|[? _]]. }
  apply ratio_eq_0; [done|].
  destruct Hone as [[-> _]|[_ ->]]; [done|rewrite lev_nil_r; cbn [length]; lia].
Qed.

(** *** Statements that look at the ASCII behaviour of the runtime *)

(** On a string of ASCII code units [toLowerCase] moves [A-Z] to [a-z]
    and changes nothing else. *)
Hypothesis toLowerCase_ascii :
  ∀ s, Forall (λ c, isAscii c = true) s → toLowerCase s = asciiLower <$> s.

Lemma normalizeTitle_ascii s :
  Forall (λ c, isAscii c = true) s →
  normalizeTitle toLowerCase s = normalizeTitle asciiToLowerCase s.
Proof. intros Hs. unfold normalizeTitle. by rewrite toLowerCase_ascii. Qed.

Lemma similarity_ascii a b :
  Forall (λ c, isAscii c = true) a → Forall (λ c, isAscii c = true) b →
  similarity toLowerCase a b = similarity asciiToLowerCase a b.
Proof. intros Ha Hb. unfold similarity. by rewrite !normalizeTitle_ascii. Qed.

Lemma normalizeTitle_fixed s : normalized s → normalizeTitle toLowerCase s = s.
Proof.
  intros Hs. pose proof Hs as (Hall & Hsp & _ & _).
  unfold normalizeTitle. rewrite toLowerCase_ascii.
  2:{ eapply list.Forall_impl; [exact Hall|]. apply normalChar_ascii. }
  replace (asciiLower <$> s) with s.
  2:{ clear -Hall. induction Hall as [|c s Hc _ IH]; [done|].
      cbn. by rewrite (normalChar_lower c Hc), <- IH. }
  rewrite stripAnnotations_fixed.
  2:{ eapply list.Forall_impl; [exact Hall|]. apply normalChar_not_delimiter. }
  rewrite stripPunctuation_fixed by done.
  unfold collapseWhitespace.
  rewrite (proj1 (collapseFrom_fixed s Hall Hsp)).
  by apply trim_fixed.
Qed.

(** C9.  Normalizing twice is normalizing once, so [similarity] does not
    change when a raw input is replaced by its normalized form. *)
Theorem normalizeTitle_idempotent s :
  normalizeTitle toLowerCase (normalizeTitle toLowerCase s) = normalizeTitle toLowerCase s
  ∧ ∀ t, similarity toLowerCase (normalizeTitle toLowerCase s) t = similarity toLowerCase s t
         ∧ similarity toLowerCase t (normalizeTitle toLowerCase s) = similarity toLowerCase t s
         ∧ similarity toLowerCase (normalizeTitle toLowerCase s) (normalizeTitle toLowerCase t) = similarity toLowerCase s t.
Proof.
  assert (Hid : ∀ u, normalizeTitle toLowerCase (normalizeTitle toLowerCase u) = normalizeTitle toLowerCase u).
  { intros u. apply normalizeTitle_fixed, normalizeTitle_normalized. }
  split; [done|]. intros t. unfold similarity. by rewrite !Hid.
Qed.

(** C8.  The similarity of the empty string and ["Stay"] is 0; whenever exactly one of the two
    normalized forms is empty the similarity is 0, and then a guess that
    normalizes to the empty string is marked wrong against a title whose
    normalized form is not empty. *)
Theorem similarity_empty_vs_nonempty :
  (similarity toLowerCase [] (js "Stay") == 0)%Q
  ∧ (∀ aRaw bRaw,
       (normalizeTitle toLowerCase aRaw = [] ∧ normalizeTitle toLowerCase bRaw ≠ [])
       ∨ (normalizeTitle toLowerCase aRaw ≠ [] ∧ normalizeTitle toLowerCase bRaw = []) →
       (similarity toLowerCase aRaw bRaw == 0)%Q)
  ∧ (∀ st track,
       currentTrack st = Some track →
       normalizeTitle toLowerCase (guess st) = [] → normalizeTitle toLowerCase (name track) ≠ [] →
       ¬ (THRESHOLD <= similarity toLowerCase (guess st) (name track))%Q
       ∧ result (handleGuessSubmit toLowerCase st) = Wrong).
Proof.
  split; [|split].
  - rewrite similarity_ascii; [done|by apply forallb_true_Forall..].
  - apply similarity_one_empty.
  - intros st track Ht Hg Hn.
    pose proof (similarity_one_empty (guess st) (name track)
                  ltac:(left; by split)) as H0.
    assert (Hno : ¬ (THRESHOLD <= similarity toLowerCase (guess st) (name track))%Q).
    { rewrite H0. intros H. vm_compute in H. by apply H. }
    split; [done|]. rewrite (submit_result st track Ht).
    destruct (Qle_bool _ _) eqn:E; [|done].
    apply Qle_bool_iff in E. by destruct Hno.
Qed.

Lemma normalizeTitle_drop_group open close pre body rest :
  (open = LPAREN ∧ close = RPAREN) ∨ (open = LBRACKET ∧ close = RBRACKET) →
  Forall (λ c, isAscii c = true) (pre ++ open :: body ++ close :: rest) →
  Forall (λ c, c ≠ LPAREN ∧ c ≠ LBRACKET) pre →
  close ∉ body →
  normalizeTitle toLowerCase (pre ++ open :: body ++ close :: rest) = normalizeTitle toLowerCase (pre ++ rest).
Proof.
  intros Hpair Hascii Hpre Hbody.
  assert (Hascii' : Forall (λ c, isAscii c = true) (pre ++ rest)).
  { pose proof Hascii as H.
    apply Forall_app in H as [H1 H]. apply list.Forall_cons in H as [_ H].
    apply Forall_app in H as [_ H]. apply list.Forall_cons in H as [_ H].
    by apply Forall_app. }
  assert (Hopen : isDelimiter open = true ∧ isDelimiter close = true).
  { by destruct Hpair as [[-> ->]|[-> ->]]. }
  destruct Hopen as [Hopen Hclose].
  unfold normalizeTitle. rewrite !toLowerCase_ascii by done.
  rewrite !fmap_app, !fmap_cons, !fmap_app, !fmap_cons.
  rewrite (proj2 (asciiLower_delimiter open open Hopen) eq_refl).
  rewrite (proj2 (asciiLower_delimiter close close Hclose) eq_refl).
  assert (Hpre' : Forall (λ c, c ≠ LPAREN ∧ c ≠ LBRACKET) (asciiLower <$> pre)).
  { apply Forall_fmap. eapply list.Forall_impl; [exact Hpre|].
    intros c [H1 H2]. cbn. split; intros E.
    - by apply (asciiLower_delimiter c LPAREN) in E.
    - by apply (asciiLower_delimiter c LBRACKET) in E. }
  assert (Hbody' : close ∉ asciiLower <$> body).
  { intros (c & E & Hc)%list_elem_of_fmap. symmetry in E.
    apply (asciiLower_delimiter c close Hclose) in E. by subst. }
  rewrite !stripAnnotations_app_keep by done.
  do 4 f_equal. rewrite stripAnnotations_cons.
  destruct Hpair as [[-> ->]|[-> ->]]; cbn [N.eqb Pos.eqb LPAREN LBRACKET];
    by rewrite findClose_first.
Qed.

(** C4.  [normalizeTitle] strips annotations from the lower-cased input
    before anything else.  The stripping removes a group from an opening
    delimiter to the first closing delimiter of the same kind after it,
    whatever follows; an opening delimiter with no such closing delimiter
    after it is kept, as is every other code unit; and no kept opening
    delimiter has its closing delimiter to its right afterwards.  On
    ASCII input a group that comes after text without opening delimiters
    disappears from the normalized form.  ["Song (A) (B)"] normalizes to
    ["song"], and in ["a (b) c (d) e"] the two groups go while the [c]
    between them stays. *)
Theorem normalizeTitle_strips_groups :
  (∀ input, normalizeTitle toLowerCase input =
     trim (collapseWhitespace (stripPunctuation (stripAnnotations (toLowerCase input)))))
  ∧ (∀ body rest, RPAREN ∉ body →
       stripAnnotations (LPAREN :: body ++ RPAREN :: rest) = stripAnnotations rest)
  ∧ (∀ body rest, RBRACKET ∉ body →
       stripAnnotations (LBRACKET :: body ++ RBRACKET :: rest) = stripAnnotations rest)
  ∧ (∀ t, RPAREN ∉ t → stripAnnotations (LPAREN :: t) = LPAREN :: stripAnnotations t)
  ∧ (∀ t, RBRACKET ∉ t → stripAnnotations (LBRACKET :: t) = LBRACKET :: stripAnnotations t)
  ∧ (∀ c t, c ≠ LPAREN → c ≠ LBRACKET →
       stripAnnotations (c :: t) = c :: stripAnnotations t)
  ∧ (∀ s p q, (stripAnnotations s = p ++ LPAREN :: q → RPAREN ∉ q)
              ∧ (stripAnnotations s = p ++ LBRACKET :: q → RBRACKET ∉ q))
  ∧ (∀ open close pre body rest,
       (open = LPAREN ∧ close = RPAREN) ∨ (open = LBRACKET ∧ close = RBRACKET) →
       Forall (λ c, isAscii c = true) (pre ++ open :: body ++ close :: rest) →
       Forall (λ c, c ≠ LPAREN ∧ c ≠ LBRACKET) pre →
       close ∉ body →
       normalizeTitle toLowerCase (pre ++ open :: body ++ close :: rest) = normalizeTitle toLowerCase (pre ++ rest))
  ∧ normalizeTitle toLowerCase (js "Song (A) (B)") = js "song"
  ∧ normalizeTitle toLowerCase (js "a (b) c (d) e") = js "a c e".
Proof.
  repeat apply conj.
  - done.
  - intros body rest Hb. rewrite stripAnnotations_cons. cbn [N.eqb Pos.eqb LPAREN].
    by rewrite findClose_first.
  - intros body rest Hb. rewrite stripAnnotations_cons. cbn [N.eqb Pos.eqb LPAREN LBRACKET].
    by rewrite findClose_first.
  - intros t Ht. rewrite stripAnnotations_cons. cbn [N.eqb Pos.eqb LPAREN].
    by rewrite (proj2 (findClose_None _ _) Ht).
  - intros t Ht. rewrite stripAnnotations_cons. cbn [N.eqb Pos.eqb LPAREN LBRACKET].
    by rewrite (proj2 (findClose_None _ _) Ht).
  - apply stripAnnotations_keep.
  - apply stripAnnotations_complete.
  - apply normalizeTitle_drop_group.
  - rewrite normalizeTitle_ascii; [done|by apply forallb_true_Forall].
  - rewrite normalizeTitle_ascii; [done|by apply forallb_true_Forall].
Qed.

(** C5.  The output of [normalizeTitle] is made of lowercase ASCII
    letters, digits and spaces only, never has two spaces in a row, does
    not begin or end with a space, and holds no delimiter.  Nothing of a
    parenthesized or bracketed substring of the source reaches it: the
    output is computed from the lower-cased source without its groups and
    from nothing else, so two sources that differ only inside their groups
    have the same normalized form; on ASCII input, normalizing the source
    is normalizing the source without its groups, and
    ["Stay (with Justin Bieber)"] normalizes to ["stay"].  A group is the
    span from an opening delimiter to the first closing delimiter of its
    kind.  [normalizeTitle] yields a result for every input; the result
    is empty when nothing but punctuation is left after lower-casing, in
    particular for an input of ASCII punctuation and brackets only. *)
Theorem normalizeTitle_output_invariant input :
  (∃ out, normalizeTitle toLowerCase input = out
     ∧ Forall (λ c, isLowerAlnum c = true ∨ c = SPACE) out
     ∧ singleSpaces out = true
     ∧ head out ≠ Some SPACE
     ∧ list.last out ≠ Some SPACE
     ∧ Forall (λ c, c ≠ LPAREN ∧ c ≠ RPAREN ∧ c ≠ LBRACKET ∧ c ≠ RBRACKET) out)
  ∧ (∃ kept, withoutGroups (toLowerCase input) kept)
  ∧ (∀ kept, withoutGroups (toLowerCase input) kept →
       normalizeTitle toLowerCase input
       = trim (collapseWhitespace (stripPunctuation kept)))
  ∧ (∀ other kept,
       withoutGroups (toLowerCase input) kept →
       withoutGroups (toLowerCase other) kept →
       normalizeTitle toLowerCase other = normalizeTitle toLowerCase input)
  ∧ (∀ kept, Forall (λ c, isAscii c = true) input → withoutGroups input kept →
       normalizeTitle toLowerCase input = normalizeTitle toLowerCase kept)
  ∧ normalizeTitle toLowerCase (js "Stay (with Justin Bieber)") = js "stay"
  ∧ (Forall (λ c, isLowerAlnum c || isWhiteSpace c = false)
       (stripAnnotations (toLowerCase input)) →
     normalizeTitle toLowerCase input = [])
  ∧ (Forall (λ c, isPunctuation c = true) input → normalizeTitle toLowerCase input = []).
Proof.
  repeat apply conj.
  - exists (normalizeTitle toLowerCase input).
    destruct (normalizeTitle_normalized input) as (Hall & Hsp & Hh & Hl).
    repeat split; [| done.. |].
    + eapply list.Forall_impl; [exact Hall|]. intros c Hc. cbn.
      unfold isNormalChar in Hc. apply orb_true_iff in Hc as [?|?]; [by left|].
      right. by apply N.eqb_eq.
    + eapply list.Forall_impl; [exact Hall|]. intros c Hc. cbn.
      apply normalChar_not_delimiter in Hc.
      repeat split; intros ->; done.
  - eexists. apply withoutGroups_total.
  - intros kept Hk. unfold normalizeTitle.
    by rewrite (withoutGroups_stripAnnotations _ _ Hk).
  - intros other kept Hk Ho. unfold normalizeTitle.
    by rewrite (withoutGroups_stripAnnotations _ _ Hk),
               (withoutGroups_stripAnnotations _ _ Ho).
  - intros kept Hascii Hk.
    assert (Hkept : Forall (λ c, isAscii c = true) kept).
    { rewrite <- (withoutGroups_stripAnnotations _ _ Hk).
      apply list.Forall_forall. intros c Hc%stripAnnotations_elem_of.
      rewrite list.Forall_forall in Hascii. by apply Hascii. }
    pose proof (withoutGroups_stripAnnotations _ _
                  (withoutGroups_asciiLower _ _ Hk)) as Hlow.
    unfold normalizeTitle. rewrite !toLowerCase_ascii by done.
    by rewrite <- Hlow, stripAnnotations_idempotent.
  - rewrite normalizeTitle_ascii; [done|by apply forallb_true_Forall].
  - intros Hp. unfold normalizeTitle. by rewrite stripPunctuation_all_dropped.
  - intros Hp. unfold normalizeTitle. rewrite toLowerCase_ascii.
    2:{ eapply list.Forall_impl; [exact Hp|]. apply punctuation_ascii. }
    replace (asciiLower <$> input) with input.
    2:{ clear -Hp. induction Hp as [|c s Hc _ IH]; [done|].
        cbn. by rewrite (punctuation_lower c Hc), <- IH. }
    rewrite stripPunctuation_all_dropped; [done|].
    apply list.Forall_forall. intros c Hc%stripAnnotations_elem_of.
    apply punctuation_dropped. rewrite list.Forall_forall in Hp. by apply Hp.
Qed.
End ScorerProperties.

(** ** The distance computed by the code *)

(** C3.  The single rolling row of [levenshteinDistance] holds, after each
    pass of the outer loop, the corresponding row of the classic cost table
    ([n + 1] entries), whose base cases and transition are the standard
    ones; the value returned is the table's last entry, and it is the
    least number of single-character insertions, deletions and
    substitutions that turn [a] into [b]. *)
Theorem levenshteinDistance_classic a b :
  (∀ i, distance a b i 0 = i)
  ∧ (∀ j, distance a b 0 j = j)
  ∧ (∀ i j, distance a b (S i) (S j) =
       if decide (a !! i = b !! j) then distance a b i j
       else 1 + min3 (distance a b i (S j)) (distance a b (S i) j) (distance a b i j))
  ∧ (∀ k, foldl (outerBody a b (length b)) (seq 0 (length b + 1)) (seq 1 k)
          = distance a b k <$> seq 0 (S (length b)))
  ∧ levenshteinDistance a b = distance a b (length a) (length b)
  ∧ editDistance a b (levenshteinDistance a b).
Proof.
  repeat apply conj.
  - apply distance_0_r.
  - done.
  - apply distance_S_S.
  - apply outerLoop_row.
  - apply levenshteinDistance_table.
  - rewrite levenshteinDistance_lev. apply lev_upper_bound.
  - intros k. rewrite levenshteinDistance_lev. apply lev_lower_bound.
Qed.

(** ** Worked examples

    The sample cases of the design document, with the runtime's
    [toLowerCase] instantiated on ASCII. *)

Example case_insensitivity :
  (similarity asciiToLowerCase (js "Blinding Lights") (js "blinding lights") == 1)%Q.
Proof. vm_compute. reflexivity. Qed.

Example annotation_stripping :
  (similarity asciiToLowerCase (js "Stay (with Justin Bieber)") (js "Stay") == 1)%Q.
Proof. vm_compute. reflexivity. Qed.

Example punctuation_insensitivity :
  (similarity asciiToLowerCase (js "Levitating!") (js "levitating") == 1)%Q.
Proof. vm_compute. reflexivity. Qed.

Example empty_vs_empty : similarity asciiToLowerCase [] [] = 1%Q.
Proof. reflexivity. Qed.

Example whitespace_collapsing :
  (similarity asciiToLowerCase (js "Blinding   Lights") (js "Blinding Lights") == 1)%Q.
Proof. vm_compute. reflexivity. Qed.

Example levitatin_scenario :
  normalizeTitle asciiToLowerCase (js "levitatin") = js "levitatin"
  ∧ normalizeTitle asciiToLowerCase (js "Levitating") = js "levitating"
  ∧ levenshteinDistance (js "levitatin") (js "levitating") = 1
  ∧ similarity asciiToLowerCase (js "levitatin") (js "Levitating") = (9 # 10)%Q
  ∧ ratio64 1 10 = 0x1.ccccccccccccdp-1%float
  ∧ result (handleGuessSubmit asciiToLowerCase levitatingRound) = Correct.
Proof. vm_compute. repeat split. Qed.

(** Nested and crossed delimiters: each group ends at the first closing
    delimiter of its own kind. *)
Example nested_groups :
  normalizeTitle asciiToLowerCase (js "a (b (c) d) e [f (g] h) i (j") = js "a d e h i j".
Proof. reflexivity. Qed.

(** ** Instances *)

Lemma asciiToLowerCase_ascii :
  ∀ s, Forall (λ c, isAscii c = true) s → asciiToLowerCase s = asciiLower <$> s.
Proof. reflexivity. Qed.

Lemma guess_judged_by_threshold_witness :
  currentTrack levitatingRound = Some levitating
  ∧ result (handleGuessSubmit asciiToLowerCase levitatingRound) = Correct.
Proof.
  split; [reflexivity|].
  apply (guess_judged_by_threshold asciiToLowerCase levitatingRound
           levitating eq_refl).
  vm_compute. discriminate.
Defined.

Lemma handleGuessSubmit_frame_witness :
  currentTrack lastTryRound = Some levitating
  ∧ triesLeft (handleGuessSubmit asciiToLowerCase lastTryRound) = 0%Z
  ∧ correctCount (handleGuessSubmit asciiToLowerCase lastTryRound) = 0%Z.
Proof.
  split; [reflexivity|].
  destruct (handleGuessSubmit_frame asciiToLowerCase lastTryRound
              levitating eq_refl) as [_ Hwrong].
  destruct Hwrong as (Htries & Hcorrect & _).
  - vm_compute. intros H. apply H. reflexivity.
  - rewrite Htries, Hcorrect. split; reflexivity.
Defined.

Lemma normalizeTitle_strips_groups_witness :
  (∀ s, Forall (λ c, isAscii c = true) s → asciiToLowerCase s = asciiLower <$> s)
  ∧ normalizeTitle asciiToLowerCase (js "Song (A) (B)") = js "song".
Proof.
  split; [intros s _; reflexivity|].
  apply (normalizeTitle_strips_groups asciiToLowerCase asciiToLowerCase_ascii).
Defined.

Lemma normalizeTitle_output_invariant_witness :
  (∀ s, Forall (λ c, isAscii c = true) s → asciiToLowerCase s = asciiLower <$> s)
  ∧ Forall (λ c, isPunctuation c = true) (js "(!)[?]--...")
  ∧ normalizeTitle asciiToLowerCase (js "(!)[?]--...") = []
  ∧ Forall (λ c, isAscii c = true) (js "Stay (with Justin Bieber)")
  ∧ withoutGroups (js "Stay (with Justin Bieber)") (js "Stay ")
  ∧ normalizeTitle asciiToLowerCase (js "Stay (with Justin Bieber)")
    = normalizeTitle asciiToLowerCase (js "Stay ").
Proof.
  split; [intros s _; reflexivity|].
  assert (Hp : Forall (λ c, isPunctuation c = true) (js "(!)[?]--...")).
  { apply forallb_true_Forall. reflexivity. }
  assert (Ha : Forall (λ c, isAscii c = true) (js "Stay (with Justin Bieber)")).
  { apply forallb_true_Forall. reflexivity. }
  assert (Hg : withoutGroups (js "Stay (with Justin Bieber)") (js "Stay ")).
  { do 5 (apply without_keep; [discriminate|discriminate|]).
    apply (without_group LPAREN RPAREN (js "with Justin Bieber") [] []).
    - by left.
    - apply findClose_None. reflexivity.
    - constructor. }
  pose proof (normalizeTitle_output_invariant asciiToLowerCase asciiToLowerCase_ascii)
    as H.
  split; [exact Hp|]. split; [by apply H|]. split; [exact Ha|]. split; [exact Hg|].
  destruct (H (js "Stay (with Justin Bieber)")) as (_ & _ & _ & _ & Hsrc & _).
  exact (Hsrc _ Ha Hg).
Defined.

Lemma similarity_empty_vs_nonempty_witness :
  (∀ s, Forall (λ c, isAscii c = true) s → asciiToLowerCase s = asciiLower <$> s)
  ∧ (similarity asciiToLowerCase [] (js "Stay") == 0)%Q.
Proof.
  split; [intros s _; reflexivity|].
  exact (proj1 (similarity_empty_vs_nonempty asciiToLowerCase asciiToLowerCase_ascii)).
Defined.

Lemma normalizeTitle_idempotent_witness :
  (∀ s, Forall (λ c, isAscii c = true) s → asciiToLowerCase s = asciiLower <$> s)
  ∧ normalizeTitle asciiToLowerCase
      (normalizeTitle asciiToLowerCase (js "Stay (with Justin Bieber)"))
    = normalizeTitle asciiToLowerCase (js "Stay (with Justin Bieber)").
Proof.
  split; [intros s _; reflexivity|].
  exact (proj1 (normalizeTitle_idempotent asciiToLowerCase asciiToLowerCase_ascii _)).
Defined.

(** * More of the application *)

(** ** Playing a round *)

Section PlayProperties.
Variable toLowerCase : jsstring → jsstring.

Lemma reachable_index_bounds st :
  reachable toLowerCase st →
  (-1 ≤ currentIndex st)%Z
  ∧ (tracks st ≠ [] → (0 ≤ currentIndex st < Z.of_nat (length (tracks st)))%Z).
Proof.
  induction 1 as [|st ch _ IH|st g _ IH|st _ IH|st _ IH|st _ IH|st _ IH
                 |st _ IH Hrev _]; cbn; try done.
  - split; [done|]. destruct ch; [done|]. cbn [length]. lia.
  - unfold playSnippet. by destruct (canPlay st).
  - destruct IH as [IH1 IH2]. split; [lia|].
    intros Hne. specialize (IH2 Hne). lia.
  - destruct IH as [IH1 IH2]. split; [done|].
    intros Hne. destruct (tracks st); [done|]. cbn [length]. lia.
  - unfold handleGuessSubmit. destruct (currentTrack st); [|done].
    destruct (Qle_bool _ _); [done|]. by destruct (_ <=? _)%Z.
Qed.

Lemma currentTrack_in_bounds st :
  (0 ≤ currentIndex st < Z.of_nat (length (tracks st)))%Z →
  ∃ track, currentTrack st = Some track ∧ track ∈ tracks st.
Proof.
  intros [H0 Hlt]. unfold currentTrack.
  destruct (Z.leb_spec 0 (currentIndex st)); [|lia].
  destruct (lookup_lt_is_Some_2 (tracks st) (Z.to_nat (currentIndex st)))
    as [track Ht]; [lia|].
  exists track. split; [done|]. by eapply list_elem_of_lookup_2.
Qed.

(** X1.  In every state the component can reach, once tracks are loaded
    there is a current track, taken from the loaded tracks: Next stops at
    the last track and Replay returns to the first. *)
Theorem reachable_has_current_track st :
  reachable toLowerCase st → tracks st ≠ [] →
  ∃ track, currentTrack st = Some track ∧ track ∈ tracks st.
Proof.
  intros Hr Hne. apply currentTrack_in_bounds.
  by apply (reachable_index_bounds st Hr).
Qed.

(** X2.  In every reachable state the two counters are non-negative and
    together count at most one point per round: at most [round - 1] while
    the current round is still open, at most [round] once its answer is
    revealed. *)
Theorem reachable_score_bounded st :
  reachable toLowerCase st →
  (0 ≤ correctCount st)%Z ∧ (0 ≤ wrongCount st)%Z ∧ (1 ≤ round st)%Z
  ∧ (correctCount st + wrongCount st
     ≤ round st - (if revealed st then 0 else 1))%Z.
Proof.
  induction 1 as [|st ch _ IH|st g _ IH|st _ IH|st _ IH|st _ IH|st _ IH
                 |st _ IH Hrev _]; cbn; try done.
  - unfold playSnippet. by destruct (canPlay st).
  - destruct (revealed st); lia.
  - destruct (revealed st); lia.
  - unfold handleGuessSubmit. destruct (currentTrack st); [|done].
    rewrite Hrev in IH.
    destruct (Qle_bool _ _); cbn; [lia|].
    destruct (_ <=? _)%Z; cbn; [lia|]. rewrite Hrev. lia.
Qed.

Lemma typeAndSubmit_revealed g st :
  revealed st = true → typeAndSubmit toLowerCase g st = setGuess g st.
Proof.
  intros Hr. unfold typeAndSubmit, guessDisabled. cbn. rewrite Hr.
  by rewrite orb_true_r.
Qed.

(** What one enabled submission does to a round that is still open. *)
Lemma typeAndSubmit_open g st track :
  currentTrack st = Some track → revealed st = false → trim g ≠ [] →
  tracks (typeAndSubmit toLowerCase g st) = tracks st
  ∧ currentIndex (typeAndSubmit toLowerCase g st) = currentIndex st
  ∧ ((revealed (typeAndSubmit toLowerCase g st) = true
      ∧ (correctCount (typeAndSubmit toLowerCase g st)
         + wrongCount (typeAndSubmit toLowerCase g st)
         = correctCount st + wrongCount st + 1)%Z)
     ∨ (revealed (typeAndSubmit toLowerCase g st) = false
        ∧ (1 ≤ triesLeft (typeAndSubmit toLowerCase g st))%Z
        ∧ triesLeft (typeAndSubmit toLowerCase g st) = (triesLeft st - 1)%Z
        ∧ correctCount (typeAndSubmit toLowerCase g st) = correctCount st
        ∧ wrongCount (typeAndSubmit toLowerCase g st) = wrongCount st)).
Proof.
  intros Ht Hr Hg. unfold typeAndSubmit, guessDisabled. cbn [guess setGuess revealed].
  rewrite Hr, orb_false_r.
  destruct (length (trim g) =? 0) eqn:E.
  { apply Nat.eqb_eq in E. by destruct (trim g). }
  unfold handleGuessSubmit.
  replace (currentTrack (setGuess g st)) with (Some track) by done.
  destruct (Qle_bool _ _); cbn; [split; [done|split; [done|left; split; [done|lia]]]|].
  destruct (Z.leb_spec (triesLeft st - 1) 0); cbn.
  - split; [done|split; [done|left; split; [done|lia]]].
  - split; [done|split; [done|right]]. rewrite Hr. repeat split; lia.
Qed.

(** X3.  A round that starts with three tries is decided by three
    non-blank guesses at the latest: whatever is typed, after the third
    press of Guess the answer is revealed and exactly one point has been
    added to [correctCount] and [wrongCount] together; a further guess
    changes nothing but the text field. *)
Theorem round_decided_in_three_guesses st track g1 g2 g3 g4 :
  currentTrack st = Some track → revealed st = false → triesLeft st = 3%Z →
  trim g1 ≠ [] → trim g2 ≠ [] → trim g3 ≠ [] →
  let st3 := typeAndSubmit toLowerCase g3
               (typeAndSubmit toLowerCase g2 (typeAndSubmit toLowerCase g1 st)) in
  revealed st3 = true
  ∧ (correctCount st3 + wrongCount st3 = correctCount st + wrongCount st + 1)%Z
  ∧ typeAndSubmit toLowerCase g4 st3 = setGuess g4 st3.
Proof.
  intros Ht Hr H3 Hg1 Hg2 Hg3.
  assert (Hgoal : ∀ s, revealed s = true →
            (correctCount s + wrongCount s = correctCount st + wrongCount st + 1)%Z →
            revealed s = true
            ∧ (correctCount s + wrongCount s = correctCount st + wrongCount st + 1)%Z
            ∧ typeAndSubmit toLowerCase g4 s = setGuess g4 s).
  { intros s Hs Hc. by rewrite typeAndSubmit_revealed. }
  assert (Hclosed : ∀ g s, revealed s = true →
            revealed (typeAndSubmit toLowerCase g s) = true
            ∧ correctCount (typeAndSubmit toLowerCase g s) = correctCount s
            ∧ wrongCount (typeAndSubmit toLowerCase g s) = wrongCount s).
  { intros g s Hs. by rewrite typeAndSubmit_revealed. }
  pose proof (typeAndSubmit_open g1 st track Ht Hr Hg1) as H1.
  cbv zeta. remember (typeAndSubmit toLowerCase g1 st) as s1 eqn:E1.
  destruct H1 as (Htr1 & Hix1 & [[Hr1 Hc1]|(Hr1 & Hp1 & Ht1 & Hc1 & Hw1)]).
  { destruct (Hclosed g2 s1 Hr1) as (Hr2 & Hc2 & Hw2).
    destruct (Hclosed g3 _ Hr2) as (Hr3 & Hc3 & Hw3).
    apply Hgoal; [done|]. lia. }
  assert (Hcur1 : currentTrack s1 = Some track).
  { unfold currentTrack. rewrite Htr1, Hix1. exact Ht. }
  pose proof (typeAndSubmit_open g2 s1 track Hcur1 Hr1 Hg2) as H2.
  remember (typeAndSubmit toLowerCase g2 s1) as s2 eqn:E2.
  destruct H2 as (Htr2 & Hix2 & [[Hr2 Hc2]|(Hr2 & Hp2 & Ht2 & Hc2 & Hw2)]).
  { destruct (Hclosed g3 s2 Hr2) as (Hr3 & Hc3 & Hw3).
    apply Hgoal; [done|]. lia. }
  assert (Hcur2 : currentTrack s2 = Some track).
  { unfold currentTrack. rewrite Htr2, Hix2. exact Hcur1. }
  destruct (typeAndSubmit_open g3 s2 track Hcur2 Hr2 Hg3)
    as (Htr3 & Hix3 & [[Hr3 Hc3]|(Hr3 & Hp3 & Ht3 & Hc3 & Hw3)]).
  - apply Hgoal; [done|]. lia.
  - lia.
Qed.

End PlayProperties.

Lemma levitatingRound_reachable : reachable asciiToLowerCase levitatingRound.
Proof. apply reach_type, reach_load, reach_init. Qed.

Lemma reachable_has_current_track_witness :
  reachable asciiToLowerCase levitatingRound ∧ tracks levitatingRound ≠ []
  ∧ ∃ track, currentTrack levitatingRound = Some track
             ∧ track ∈ tracks levitatingRound.
Proof.
  split; [exact levitatingRound_reachable|]. split; [discriminate|].
  apply (reachable_has_current_track asciiToLowerCase levitatingRound
           levitatingRound_reachable). discriminate.
Defined.

Lemma reachable_score_bounded_witness :
  reachable asciiToLowerCase
    (nextRound (handleGuessSubmit asciiToLowerCase levitatingRound))
  ∧ (correctCount (nextRound (handleGuessSubmit asciiToLowerCase levitatingRound))
     + wrongCount (nextRound (handleGuessSubmit asciiToLowerCase levitatingRound))
     ≤ 2 - 1)%Z.
Proof.
  assert (Hr : reachable asciiToLowerCase
                 (nextRound (handleGuessSubmit asciiToLowerCase levitatingRound))).
  { apply reach_next, reach_submit;
      [exact levitatingRound_reachable|reflexivity|discriminate]. }
  split; [exact Hr|].
  exact (proj2 (proj2 (proj2 (reachable_score_bounded asciiToLowerCase _ Hr)))).
Defined.

Lemma round_decided_in_three_guesses_witness :
  revealed (typeAndSubmit asciiToLowerCase (js "physical")
             (typeAndSubmit asciiToLowerCase (js "stay")
               (typeAndSubmit asciiToLowerCase (js "bad guy") levitatingRound)))
  = true.
Proof.
  apply (round_decided_in_three_guesses asciiToLowerCase levitatingRound levitating
           (js "bad guy") (js "stay") (js "physical") []);
    first [reflexivity | discriminate].
Defined.

(** ** Numbers as text *)

(** Linear arithmetic with quotients and remainders by constants. *)
Ltac div_lia := zify; Z.to_euclidean_division_equations; lia.

(** *** Integers in binary64 *)

Lemma isSafeInteger_representable z :
  isSafeInteger z = true → representable (inject_Z z).
Proof.
  unfold isSafeInteger. intros [H1 H2]%andb_true_iff.
  apply Z.ltb_lt in H1, H2.
  exists z, 0%Z. split; [lia|]. split; [lia|].
  change (2 ^ 0)%Q with 1%Q. ring.
Qed.

(** An operation whose exact result is a binary64 number returns it. *)
Lemma nearest64_exact x y r :
  (x == y)%Q → representable y → nearest64 x r → (r == y)%Q.
Proof.
  intros Hxy Hy [_ Hn]. specialize (Hn y Hy).
  assert (H0 : (Qabs (y - x) <= 0)%Q) by (apply Qabs_Qle_condition; lra).
  assert (H1 : (Qabs (r - x) <= 0)%Q) by lra.
  apply Qabs_Qle_condition in H1. lra.
Qed.

Lemma Qfloor_unique r z :
  (inject_Z z <= r)%Q → (r < inject_Z (z + 1))%Q → Qfloor r = z.
Proof.
  intros Hl Hu.
  pose proof (Qfloor_le r) as H1. pose proof (Qlt_floor r) as H2.
  assert (inject_Z (Qfloor r) < inject_Z (z + 1))%Q as H3 by lra.
  assert (inject_Z z < inject_Z (Qfloor r + 1))%Q as H4 by lra.
  rewrite <- Zlt_Qlt in H3, H4. lia.
Qed.

(** Rounding a quotient [a / d] of whole numbers does not change its
    floor while the quotient stays below 2^44 and the divisor below 1024:
    the exact quotient is at least [1 / d] below the next integer, and the
    binary64 numbers are less than [2^-9] apart there. *)
Lemma floor_quotient_exact a d r :
  (0 ≤ a)%Z → (0 < d < 1024)%Z → (a / d + 1 ≤ 2 ^ 44)%Z →
  nearest64 (inject_Z a / inject_Z d) r → Qfloor r = (a / d)%Z.
Proof.
  intros Ha Hd Hq [_ Hn].
  set (x := (inject_Z a / inject_Z d)%Q) in *.
  set (q := (a / d)%Z) in *.
  assert (Hq0 : (0 ≤ q)%Z) by (apply Z.div_pos; lia).
  assert (Hdiv : (a = d * q + a mod d)%Z) by (apply Z.div_mod; lia).
  assert (Hmod : (0 ≤ a mod d < d)%Z) by (apply Z.mod_pos_bound; lia).
  assert (Hd0 : (0 < inject_Z d)%Q)
    by (change 0%Q with (inject_Z 0); rewrite <- Zlt_Qlt; lia).
  assert (B1 : (inject_Z q <= x)%Q).
  { apply Qle_shift_div_l; [done|].
    rewrite <- inject_Z_mult, <- Zle_Qle. lia. }
  assert (B2 : (x < inject_Z q + 1 - (1 # 1024))%Q).
  { apply Qlt_shift_div_r; [done|].
    unfold Qlt, Qmult, Qplus, Qminus, Qopp, inject_Z. cbn.
    nia. }
  apply Qfloor_unique.
  - assert (Hrep : representable (inject_Z q)).
    { apply isSafeInteger_representable. unfold isSafeInteger.
      apply andb_true_iff. split; apply Z.ltb_lt; lia. }
    specialize (Hn _ Hrep).
    rewrite (Qabs_neg (inject_Z q - x)) in Hn by lra.
    apply Qabs_Qle_condition in Hn as [Hl _]. lra.
  - assert (Hrep : representable (inject_Z q + 1 - (1 # 512))).
    { exists ((q + 1) * 512 - 1)%Z, (-9)%Z. split; [lia|]. split; [lia|].
      change (2 ^ (-9))%Q with (1 # 512)%Q.
      unfold Qeq, Qmult, Qplus, Qminus, Qopp, inject_Z. cbn. lia. }
    specialize (Hn _ Hrep).
    rewrite inject_Z_plus. change (inject_Z 1) with 1%Q.
    apply Qabs_Qle_condition in Hn as [_ Hu].
    destruct (Qlt_le_dec (inject_Z q + 1 - (1 # 512) - x) 0) as [Hneg|Hpos].
    + rewrite Qabs_neg in Hu by lra. lra.
    + rewrite Qabs_pos in Hu by lra. lra.
Qed.

(** For a duration in the safe range, the two quotients that
    [formatDuration] computes in binary64, [Math.floor(ms / 1000)] and
    [Math.floor(totalSeconds / 60)], are the quotients of the model. *)
Lemma formatDuration_quotients_exact ms totalSeconds minutes :
  (0 ≤ ms < 2 ^ 53)%Z →
  nearest64 (inject_Z ms / 1000) totalSeconds →
  nearest64 (inject_Z (Qfloor totalSeconds) / 60) minutes →
  Qfloor totalSeconds = (ms / 1000)%Z ∧ Qfloor minutes = (ms / 1000 / 60)%Z.
Proof.
  intros Hms Hs Hm.
  assert (Es : Qfloor totalSeconds = (ms / 1000)%Z).
  { apply (floor_quotient_exact ms 1000); [lia|lia|div_lia|exact Hs]. }
  split; [exact Es|]. rewrite Es in Hm.
  apply (floor_quotient_exact (ms / 1000) 60); [div_lia|lia|div_lia|exact Hm].
Qed.

(** Conversely, a binary64 number is the result of every operation that
    yields it exactly. *)
Lemma nearest64_of_exact x y : (x == y)%Q → representable y → nearest64 x y.
Proof.
  intros Hxy Hy. split; [exact Hy|]. intros r' _.
  assert (H0 : (Qabs (y - x) <= 0)%Q) by (apply Qabs_Qle_condition; lra).
  pose proof (Qabs_nonneg (r' - x)). lra.
Qed.

Example formatDuration_quotients_exact_two_minutes :
  nearest64 (inject_Z 120000 / 1000) 120
  ∧ nearest64 (inject_Z (Qfloor 120) / 60) 2
  ∧ Qfloor 120 = (120000 / 1000)%Z ∧ Qfloor 2 = (120000 / 1000 / 60)%Z.
Proof.
  assert (H1 : nearest64 (inject_Z 120000 / 1000) 120).
  { apply nearest64_of_exact; [reflexivity|].
    by apply (isSafeInteger_representable 120). }
  assert (H2 : nearest64 (inject_Z (Qfloor 120) / 60) 2).
  { apply nearest64_of_exact; [reflexivity|].
    by apply (isSafeInteger_representable 2). }
  split; [exact H1|]. split; [exact H2|].
  apply (formatDuration_quotients_exact 120000 120 2); [lia|exact H1|exact H2].
Qed.

(** The same comparison run in binary64 itself: on the two thousand
    smallest durations, on the two thousand largest of the safe range, and
    on two thousand durations spread over the range that end one
    millisecond before a full second, where the quotient is nearest to the
    next integer. *)
Lemma quotients64_agree :
  forallb (λ k, quotientsAgree (Z.of_nat k)
                && quotientsAgree (2 ^ 53 - 1 - Z.of_nat k)
                && quotientsAgree (1000 * (Z.of_nat k * 4503599627 + 1) - 1))
          (seq 0 2000) = true.
Proof. vm_compute. reflexivity. Qed.

(** Beyond the safe range the two arithmetics part, which is why the
    statements below keep to it: for 2^63 ms the rounded quotient is the
    next integer. *)
Lemma quotient64_beyond_safe_range :
  floor64 (0x1p63 / 1000)%float = 9223372036854776%Z
  ∧ (2 ^ 63 / 1000 = 9223372036854775)%Z.
Proof. split; vm_compute; reflexivity. Qed.

Lemma digitsOf_inj d d' : digitsOf d = digitsOf d' → d = d'.
Proof.
  revert d'. induction d; destruct d'; cbn; intros H;
    try discriminate; try done;
    injection H as H; f_equal; auto.
Qed.

Lemma numberToString_inj z z' : numberToString z = numberToString z' → z = z'.
Proof.
  unfold numberToString. intros H.
  rewrite <- (DecimalZ.of_to z), <- (DecimalZ.of_to z').
  destruct (Z.to_int z) as [d|d] eqn:E, (Z.to_int z') as [d'|d'] eqn:E'.
  - by rewrite (digitsOf_inj _ _ H).
  - destruct d; discriminate.
  - destruct d'; discriminate.
  - injection H as H. by rewrite (digitsOf_inj _ _ H).
Qed.

(** The seconds field, for each of the sixty values it can take. *)
Lemma seconds_two_digits s :
  (0 ≤ s < 60)%Z →
  padStart 2 [48%N] (numberToString s)
  = [(48 + Z.to_N (s / 10))%N; (48 + Z.to_N (s mod 10))%N].
Proof.
  intros Hs.
  assert (Hall : forallb (λ n : nat,
            bool_decide (padStart 2 [48%N] (numberToString (Z.of_nat n))
                         = [(48 + Z.to_N (Z.of_nat n / 10))%N;
                            (48 + Z.to_N (Z.of_nat n mod 10))%N]))
            (seq 0 60) = true) by (vm_compute; reflexivity).
  rewrite List.forallb_forall in Hall.
  assert (Hin : In (Z.to_nat s) (seq 0 60)) by (apply List.in_seq; lia).
  apply Hall in Hin. rewrite Z2Nat.id in Hin by lia.
  by apply bool_decide_eq_true in Hin.
Qed.

(** X4.  For a duration that is a safe integer and not negative,
    [formatDuration] prints the whole minutes in decimal, a colon, and the
    remaining seconds always on two digits; so two such durations print
    alike exactly when they agree to the second. *)
Theorem formatDuration_minutes_seconds ms :
  (0 ≤ ms < 2 ^ 53)%Z →
  formatDuration ms
  = numberToString (ms / 60000)
    ++ [58%N; (48 + Z.to_N ((ms / 1000) mod 60 / 10))%N;
              (48 + Z.to_N ((ms / 1000) mod 60 mod 10))%N]
  ∧ ∀ ms', (0 ≤ ms' < 2 ^ 53)%Z →
      formatDuration ms = formatDuration ms' ↔ (ms / 1000 = ms' / 1000)%Z.
Proof.
  assert (Hshape : ∀ m, (0 ≤ m)%Z →
    formatDuration m
    = numberToString (m / 60000)
      ++ [58%N; (48 + Z.to_N ((m / 1000) mod 60 / 10))%N;
                (48 + Z.to_N ((m / 1000) mod 60 mod 10))%N]).
  { intros m Hm. unfold formatDuration.
    rewrite Z.rem_mod_nonneg by div_lia.
    rewrite seconds_two_digits by div_lia.
    rewrite Z.div_div by lia. done. }
  intros [Hms _]. split; [by apply Hshape|].
  intros ms' [Hms' _]. split; [|by unfold formatDuration; intros ->].
  rewrite !Hshape by done. intros H.
  apply app_inj_2 in H as [Hmin Hsec]; [|done].
  apply numberToString_inj in Hmin. injection Hsec as H1 H2.
  div_lia.
Qed.

Lemma formatDuration_minutes_seconds_witness :
  (0 ≤ 200040 < 2 ^ 53)%Z ∧ formatDuration 200040 = js "3:20"
  ∧ (0 ≤ 200999 < 2 ^ 53)%Z
  ∧ formatDuration 200040 = formatDuration 200999.
Proof.
  assert (H1 : (0 ≤ 200040 < 2 ^ 53)%Z) by lia.
  assert (H2 : (0 ≤ 200999 < 2 ^ 53)%Z) by lia.
  destruct (formatDuration_minutes_seconds 200040 H1) as [Hshape Hsame].
  split; [exact H1|]. split; [rewrite Hshape; reflexivity|].
  split; [exact H2|].
  apply (Hsame 200999%Z H2). reflexivity.
Defined.

(** ** PKCE helpers *)

Lemma generateRandomString_map len randomValues :
  len ≤ length randomValues →
  generateRandomString len randomValues
  = (λ v, CHARSET !!! N.to_nat (v mod 66)) <$> take len randomValues.
Proof.
  unfold generateRandomString. induction len as [|len IH]; intros Hlen.
  - by rewrite take_0.
  - rewrite seq_S, foldl_app, IH by lia. cbn [foldl].
    destruct (lookup_lt_is_Some_2 randomValues len) as [v Hv]; [lia|].
    rewrite (take_S_r _ _ _ Hv), fmap_app.
    by rewrite (list_lookup_total_correct _ _ _ Hv).
Qed.

Lemma CHARSET_unreserved k :
  k < 66 → isUnreserved (CHARSET !!! k) = true.
Proof.
  intros Hk.
  assert (Hall : forallb (λ k, isUnreserved (CHARSET !!! k)) (seq 0 66) = true)
    by (vm_compute; reflexivity).
  rewrite List.forallb_forall in Hall. apply Hall, List.in_seq. lia.
Qed.

(** X5.  [generateRandomString] returns exactly as many characters as
    asked for, one per random byte, each of them an unreserved URL
    character; so the verifier of 64 and the state of 24 characters need no
    escaping. *)
Theorem generateRandomString_unreserved len randomValues :
  length randomValues = len →
  length (generateRandomString len randomValues) = len
  ∧ Forall (λ c, isUnreserved c = true) (generateRandomString len randomValues)
  ∧ ∀ i v, randomValues !! i = Some v →
      generateRandomString len randomValues !! i
      = Some (CHARSET !!! N.to_nat (v mod 66)).
Proof.
  intros Hlen. rewrite generateRandomString_map by lia.
  rewrite firstn_all2 by lia. split; [by rewrite length_fmap|]. split.
  - apply Forall_fmap, list.Forall_forall. intros v _. cbn.
    apply CHARSET_unreserved. assert (v mod 66 < 66)%N by (by apply N.mod_lt). lia.
  - intros i v Hv. by rewrite list_lookup_fmap, Hv.
Qed.

Lemma generateRandomString_unreserved_witness :
  length [0; 25; 26; 65; 66; 255]%N = 6
  ∧ length (generateRandomString 6 [0; 25; 26; 65; 66; 255]%N) = 6
  ∧ generateRandomString 6 [0; 25; 26; 65; 66; 255]%N !! 5 = Some 53%N.
Proof.
  split; [reflexivity|].
  destruct (generateRandomString_unreserved 6 [0; 25; 26; 65; 66; 255]%N eq_refl)
    as (Hlen & _ & Hat).
  split; [exact Hlen|]. exact (Hat 5 255%N eq_refl).
Defined.

(** *** base64url *)

Lemma list_ind3 (P : list N → Prop) :
  P [] → (∀ a, P [a]) → (∀ a b, P [a; b]) →
  (∀ a b c l, P l → P (a :: b :: c :: l)) →
  ∀ l, P l.
Proof.
  intros H0 H1 H2 H3 l.
  cut (P l ∧ (∀ a, P (a :: l)) ∧ (∀ a b, P (a :: b :: l))); [tauto|].
  induction l as [|x l (IH0 & IH1 & IH2)]; [by auto|].
  split; [apply IH1|]. split; [intros a; apply IH2|]. intros a b. by apply H3.
Qed.

Lemma foldl_snoc_id (l acc : list N) :
  foldl (λ binary b, binary ++ [b]) acc l = acc ++ l.
Proof.
  revert acc. induction l as [|x l IH]; intros acc; cbn.
  - by rewrite app_nil_r.
  - by rewrite IH, <- app_assoc.
Qed.

Lemma sextets_bounded bytes :
  Forall (λ b, isByte b = true) bytes → Forall (λ v, (v < 64)%N) (sextets bytes).
Proof.
  unfold isByte.
  induction bytes as [|x|x y|x y z bytes IH] using list_ind3; intros Hb; cbn [sextets].
  - constructor.
  - apply list.Forall_cons in Hb as [H0%N.ltb_lt _].
    repeat constructor; div_lia.
  - apply list.Forall_cons in Hb as [H0%N.ltb_lt Hb].
    apply list.Forall_cons in Hb as [H1%N.ltb_lt _].
    repeat constructor; div_lia.
  - apply list.Forall_cons in Hb as [H0%N.ltb_lt Hb].
    apply list.Forall_cons in Hb as [H1%N.ltb_lt Hb].
    apply list.Forall_cons in Hb as [H2%N.ltb_lt Hb].
    cbn [app]. repeat (constructor; [div_lia|]). auto.
Qed.

Lemma sextets_length bytes : length (sextets bytes) = (4 * length bytes + 2) / 3.
Proof.
  induction bytes as [|x|x y|x y z bytes IH] using list_ind3;
    cbn [sextets length app]; try done.
  rewrite IH.
  replace (4 * S (S (S (length bytes))) + 2) with ((4 * length bytes + 2) + 4 * 3) by lia.
  rewrite Nat.div_add by done. lia.
Qed.

Lemma sextet_first_byte (x y b0 b1 : N) :
  (x < 256 → b0 < 256 → x / 4 = b0 / 4 →
   (x mod 4) * 16 + y / 16 = (b0 mod 4) * 16 + b1 / 16 →
   y < 256 → b1 < 256 → x = b0 ∧ y / 16 = b1 / 16)%N.
Proof. intros. assert (x = b0) by div_lia. subst. split; [done|lia]. Qed.

Lemma sextet_second_byte (y z b1 b2 : N) :
  (y < 256 → b1 < 256 → y / 16 = b1 / 16 →
   (y mod 16) * 4 + z / 64 = (b1 mod 16) * 4 + b2 / 64 →
   z < 256 → b2 < 256 → y = b1 ∧ z / 64 = b2 / 64)%N.
Proof. intros. assert (y = b1) by div_lia. subst. split; [done|lia]. Qed.

Lemma sextet_third_byte (z b2 : N) :
  (z / 64 = b2 / 64 → z mod 64 = b2 mod 64 → z = b2)%N.
Proof. intros. div_lia. Qed.

Lemma sextet_only_byte (x b0 : N) :
  (x / 4 = b0 / 4 → (x mod 4) * 16 = (b0 mod 4) * 16 → x = b0)%N.
Proof. intros. div_lia. Qed.

Lemma sextet_last_byte (y b1 : N) :
  (y / 16 = b1 / 16 → (y mod 16) * 4 = (b1 mod 16) * 4 → y = b1)%N.
Proof. intros. div_lia. Qed.

Lemma sextets_inj a b :
  Forall (λ x, isByte x = true) a → Forall (λ x, isByte x = true) b →
  sextets a = sextets b → a = b.
Proof.
  unfold isByte. revert b.
  induction a as [|x|x y|x y z a IH] using list_ind3; intros b Ha Hb Heq;
    destruct b as [|b0 [|b1 [|b2 rest]]]; cbn [sextets app] in Heq;
    try discriminate; try done;
    repeat match goal with
      | H : Forall _ (_ :: _) |- _ => apply list.Forall_cons in H as [?%N.ltb_lt H]
      end;
    try (destruct (sextets rest); discriminate);
    try (destruct (sextets a); discriminate).
  - injection Heq as E0 E1.
    by rewrite (sextet_only_byte x b0 E0 E1).
  - injection Heq as E0 E1 E2.
    destruct (sextet_first_byte x y b0 b1) as [-> E1']; [done..|].
    by rewrite (sextet_last_byte y b1 E1' E2).
  - injection Heq as E0 E1 E2 E3 Erest.
    destruct (sextet_first_byte x y b0 b1) as [-> E1']; [done..|].
    destruct (sextet_second_byte y z b1 b2) as [-> E2']; [done..|].
    rewrite (sextet_third_byte z b2 E2' E3), (IH rest) by done. done.
Qed.

(** The alphabet after the two replacements. *)
Lemma base64url_char v :
  (v < 64)%N →
  let c := (λ x, if (x =? 47)%N then 95%N else x)
             ((λ x, if (x =? 43)%N then 45%N else x)
                (BASE64_ALPHABET !!! N.to_nat v)) in
  isBase64Url c = true ∧ c ≠ EQUALS
  ∧ ∀ w, (w < 64)%N →
      c = (λ x, if (x =? 47)%N then 95%N else x)
            ((λ x, if (x =? 43)%N then 45%N else x)
               (BASE64_ALPHABET !!! N.to_nat w)) → v = w.
Proof.
  intros Hv.
  pose (enc := λ k : nat,
          (λ x, if (x =? 47)%N then 95%N else x)
            ((λ x, if (x =? 43)%N then 45%N else x) (BASE64_ALPHABET !!! k))).
  assert (Hall : forallb (λ k,
            isBase64Url (enc k) && negb (enc k =? EQUALS)%N
            && forallb (λ j, negb (enc k =? enc j)%N || (k =? j)) (seq 0 64))
            (seq 0 64) = true) by (vm_compute; reflexivity).
  rewrite List.forallb_forall in Hall.
  specialize (Hall (N.to_nat v) ltac:(apply List.in_seq; lia)).
  apply andb_true_iff in Hall as [Hall Hinj].
  apply andb_true_iff in Hall as [Halpha Hne].
  cbv zeta. fold (enc (N.to_nat v)).
  split; [done|]. split; [by apply negb_true_iff, N.eqb_neq in Hne|].
  intros w Hw Heq. fold (enc (N.to_nat w)) in Heq.
  rewrite List.forallb_forall in Hinj.
  specialize (Hinj (N.to_nat w) ltac:(apply List.in_seq; lia)).
  apply orb_true_iff in Hinj as [Hd|He].
  - apply negb_true_iff, N.eqb_neq in Hd. done.
  - apply Nat.eqb_eq in He. lia.
Qed.

Lemma dropEquals_replicate n s :
  (∀ c, head s = Some c → c ≠ EQUALS) → dropEquals (replicate n EQUALS ++ s) = s.
Proof.
  intros Hs. induction n as [|n IH]; cbn; [|done].
  destruct s as [|c s]; [done|]. cbn.
  destruct (N.eqb_spec c EQUALS) as [->|]; [|done]. by destruct (Hs EQUALS).
Qed.

Lemma stripTrailingEquals_padding s n :
  Forall (λ c, c ≠ EQUALS) s →
  stripTrailingEquals (s ++ replicate n EQUALS) = s.
Proof.
  intros Hs. unfold stripTrailingEquals.
  rewrite rev_app_distr.
  replace (rev (replicate n EQUALS)) with (replicate n EQUALS).
  2:{ induction n as [|n IH]; [done|]. cbn [replicate rev].
      rewrite <- IH. clear. induction n; [done|]. cbn. by f_equal. }
  rewrite dropEquals_replicate; [apply rev_involutive|].
  intros c Hc. rewrite list.Forall_forall in Hs. apply Hs.
  apply head_Some in Hc as [l Hl]. apply list_elem_of_In, in_rev.
  rewrite Hl. by left.
Qed.

Lemma replaceAll_app c d (s t : list N) :
  replaceAll c d (s ++ t) = replaceAll c d s ++ replaceAll c d t.
Proof. apply fmap_app. Qed.

Lemma replaceAll_padding n :
  replaceAll 47%N 95%N (replaceAll 43%N 45%N (replicate n EQUALS)) = replicate n EQUALS.
Proof. induction n as [|n IH]; [done|]. cbn. f_equal. exact IH. Qed.

(** [base64UrlEncode] in closed form: the 6-bit groups written with the
    base64url alphabet, without padding. *)
Lemma base64UrlEncode_sextets buffer :
  Forall (λ b, isByte b = true) buffer →
  base64UrlEncode buffer
  = Some ((λ v, (λ x, if (x =? 47)%N then 95%N else x)
                  ((λ x, if (x =? 43)%N then 45%N else x)
                     (BASE64_ALPHABET !!! N.to_nat v))) <$> sextets buffer).
Proof.
  intros Hb. unfold base64UrlEncode, btoa. rewrite foldl_snoc_id. cbn [app].
  replace (forallb (λ c, (c <? 256)%N) buffer) with true.
  2:{ symmetry. apply List.forallb_forall. intros x Hx%list_elem_of_In.
      rewrite list.Forall_forall in Hb. by apply Hb. }
  f_equal. rewrite !replaceAll_app, replaceAll_padding.
  unfold replaceAll. rewrite <- !list_fmap_compose.
  apply stripTrailingEquals_padding, Forall_fmap.
  eapply list.Forall_impl; [apply sextets_bounded, Hb|].
  intros v Hv. by apply base64url_char.
Qed.

Lemma base64UrlEncode_shape buffer :
  Forall (λ b, isByte b = true) buffer →
  ∃ out, base64UrlEncode buffer = Some out
    ∧ Forall (λ c, isBase64Url c = true) out
    ∧ length out = (4 * length buffer + 2) / 3.
Proof.
  intros Hb. eexists. split; [by apply base64UrlEncode_sextets|]. split.
  - apply Forall_fmap. eapply list.Forall_impl; [apply sextets_bounded, Hb|].
    intros v Hv. by apply base64url_char.
  - by rewrite length_fmap, sextets_length.
Qed.

(** X6.  On a byte buffer [base64UrlEncode] never fails; its output uses
    only the base64url alphabet (no [+], [/] or [=]) and has
    [ceil(4 n / 3)] characters for [n] bytes. *)
Theorem base64UrlEncode_alphabet buffer :
  Forall (λ b, isByte b = true) buffer →
  ∃ out, base64UrlEncode buffer = Some out
    ∧ Forall (λ c, isBase64Url c = true) out
    ∧ length out = (4 * length buffer + 2) / 3.
Proof. apply base64UrlEncode_shape. Qed.

(** X7.  [base64UrlEncode] loses nothing: two byte buffers with the same
    encoding are the same buffer. *)
Theorem base64UrlEncode_injective a b :
  Forall (λ x, isByte x = true) a → Forall (λ x, isByte x = true) b →
  base64UrlEncode a = base64UrlEncode b → a = b.
Proof.
  intros Ha Hb. rewrite !base64UrlEncode_sextets by done. intros [= Heq].
  apply sextets_inj; [done..|].
  pose proof (sextets_bounded a Ha) as Hsa. pose proof (sextets_bounded b Hb) as Hsb.
  revert Heq Hsa Hsb. generalize (sextets a) (sextets b). clear.
  induction l as [|v l IH]; intros [|w l']; cbn; try done.
  intros [= Hc Hl] [Hv Hsa]%list.Forall_cons [Hw Hsb]%list.Forall_cons.
  f_equal; [|by apply IH].
  by apply (proj2 (proj2 (base64url_char v Hv)) w Hw).
Qed.

Lemma base64UrlEncode_alphabet_witness :
  Forall (λ b, isByte b = true) [255; 239; 190; 251; 255]%N
  ∧ ∃ out, base64UrlEncode [255; 239; 190; 251; 255]%N = Some out ∧ length out = 7.
Proof.
  assert (Hb : Forall (λ b, isByte b = true) [255; 239; 190; 251; 255]%N)
    by (repeat constructor).
  split; [exact Hb|].
  destruct (base64UrlEncode_alphabet _ Hb) as (out & Hout & _ & Hlen).
  exists out. split; [exact Hout|exact Hlen].
Defined.

Lemma base64UrlEncode_injective_witness :
  Forall (λ b, isByte b = true) [77; 97; 110]%N
  ∧ base64UrlEncode [77; 97; 110]%N = base64UrlEncode [77; 97; 110]%N
  ∧ [77; 97; 110]%N = [77; 97; 110]%N.
Proof.
  assert (Hb : Forall (λ b, isByte b = true) [77; 97; 110]%N) by (repeat constructor).
  split; [exact Hb|]. split; [reflexivity|].
  exact (base64UrlEncode_injective _ _ Hb Hb eq_refl).
Defined.

Section ChallengeProperties.
Variable sha256 : jsstring → list N.

(** A SHA-256 digest is 32 bytes. *)
Hypothesis sha256_digest :
  ∀ input, length (sha256 input) = 32 ∧ Forall (λ b, isByte b = true) (sha256 input).

(** X8.  The code challenge of any verifier is 43 characters of the
    base64url alphabet, the form RFC 7636 prescribes for the S256 method. *)
Theorem createCodeChallenge_form verifier :
  ∃ challenge, createCodeChallenge sha256 verifier = Some challenge
    ∧ length challenge = 43
    ∧ Forall (λ c, isBase64Url c = true) challenge.
Proof.
  destruct (sha256_digest verifier) as [Hlen Hb].
  destruct (base64UrlEncode_shape _ Hb) as (out & Hout & Halpha & Hl).
  exists out. split; [done|]. split; [|done]. by rewrite Hl, Hlen.
Qed.
End ChallengeProperties.

Lemma createCodeChallenge_form_witness :
  (∀ input, length (zeroDigest input) = 32
            ∧ Forall (λ b, isByte b = true) (zeroDigest input))
  ∧ ∃ challenge, createCodeChallenge zeroDigest (js "verifier") = Some challenge
      ∧ length challenge = 43.
Proof.
  assert (Hd : ∀ input, length (zeroDigest input) = 32
                 ∧ Forall (λ b, isByte b = true) (zeroDigest input)).
  { intros input. split; [reflexivity|]. repeat constructor. }
  split; [exact Hd|].
  destruct (createCodeChallenge_form zeroDigest Hd (js "verifier"))
    as (challenge & Hc & Hlen & _).
  exists challenge. split; [exact Hc|exact Hlen].
Defined.

(** ** Loading a game *)

Lemma splice1_in_range {A : Type} (idx : Z) (pool : list A) :
  (0 ≤ idx < Z.of_nat (length pool))%Z →
  ∃ x, pool !! Z.to_nat idx = Some x
    ∧ splice1 idx pool
      = ([x], take (Z.to_nat idx) pool ++ drop (S (Z.to_nat idx)) pool)
    ∧ pool ≡ₚ x :: (take (Z.to_nat idx) pool ++ drop (S (Z.to_nat idx)) pool)
    ∧ S (length (take (Z.to_nat idx) pool ++ drop (S (Z.to_nat idx)) pool))
      = length pool.
Proof.
  intros Hidx. unfold splice1.
  destruct (Z.ltb_spec idx 0); [lia|].
  rewrite Z.min_l by lia.
  destruct (lookup_lt_is_Some_2 pool (Z.to_nat idx)) as [x Hx]; [lia|].
  exists x. split; [done|].
  pose proof (take_drop_middle pool _ x Hx) as Hmid.
  split; [|split].
  - f_equal. rewrite (drop_S _ _ _ Hx). done.
  - rewrite <- Hmid at 1. by rewrite Permutation_middle.
  - rewrite <- Hmid at 3. rewrite !length_app. cbn. lia.
Qed.

Section LoadingProperties.
Variable random : nat → Q.

(** [Math.random()] returns a number from 0 up to, not including, 1. *)
Hypothesis random_unit : ∀ k, (0 <= random k)%Q ∧ (random k < 1)%Q.

Lemma draw_in_range k n :
  0 < n →
  (0 ≤ Qfloor (random k * inject_Z (Z.of_nat n)) < Z.of_nat n)%Z.
Proof.
  intros Hn. destruct (random_unit k) as [H0 H1].
  assert (Hpos : (0 < inject_Z (Z.of_nat n))%Q).
  { change 0%Q with (inject_Z 0). rewrite <- Zlt_Qlt. lia. }
  split.
  - change 0%Z with (Qfloor 0). apply Qfloor_resp_le.
    apply Qmult_le_0_compat; [done|]. by apply Qlt_le_weak.
  - rewrite Zlt_Qlt.
    apply Qle_lt_trans with (random k * inject_Z (Z.of_nat n))%Q;
      [apply Qfloor_le|].
    rewrite <- (Qmult_1_l (inject_Z (Z.of_nat n))) at 2.
    by apply Qmult_lt_compat_r.
Qed.

Lemma pickLoop_spec rounds fuel : ∀ k pool chosen,
  length pool ≤ fuel → length chosen ≤ rounds →
  ∃ out rest, pickLoop random rounds fuel k pool chosen = Some out
    ∧ length out = Nat.min rounds (length chosen + length pool)
    ∧ out ++ rest ≡ₚ chosen ++ pool
    ∧ chosen `prefix_of` out.
Proof.
  induction fuel as [|fuel IH]; intros k pool chosen Hfuel Hch.
  - destruct pool; [|cbn in Hfuel; lia]. cbn.
    exists chosen, []. split; [done|]. split; [cbn; lia|]. done.
  - cbn [pickLoop].
    destruct (Nat.ltb_spec 0 (length pool)) as [Hpool|Hpool]; cbn [andb].
    2:{ destruct pool; [|cbn in Hpool; lia].
        exists chosen, []. split; [done|]. split; [cbn; lia|]. done. }
    destruct (Nat.ltb_spec (length chosen) rounds) as [Hlt|Hge].
    2:{ exists chosen, pool. split; [done|]. split; [lia|]. done. }
    destruct (splice1_in_range _ pool (draw_in_range k _ Hpool))
      as (x & Hx & -> & Hperm & Hlen).
    set (pool' := take _ pool ++ drop _ pool) in *.
    destruct (IH (S k) pool' (chosen ++ [x])) as (out & rest & Hout & Hl & Hp & Hpre).
    { lia. } { rewrite length_app. cbn. lia. }
    exists out, rest. split; [done|]. split; [|split].
    + rewrite Hl, length_app. cbn. lia.
    + rewrite Hp, Hperm, <- app_assoc. done.
    + etrans; [|exact Hpre]. by apply prefix_app_r.
Qed.

(** X9.  The picking loop of the loading effect ends within one pass per
    fetched track; it keeps [min(rounds, fetched.length)] tracks, and they
    are drawn from the fetched ones without repetition: together with the
    tracks left in the pool they are the fetched tracks, reordered. *)
Theorem pickLoop_draws_without_repetition rounds fuel fetchedTracks :
  length fetchedTracks ≤ fuel →
  ∃ chosen rest,
    pickLoop random rounds fuel 0 fetchedTracks [] = Some chosen
    ∧ length chosen = Nat.min rounds (length fetchedTracks)
    ∧ chosen ++ rest ≡ₚ fetchedTracks.
Proof.
  intros Hfuel.
  destruct (pickLoop_spec rounds fuel 0 fetchedTracks [] Hfuel ltac:(cbn; lia))
    as (out & rest & Hout & Hl & Hp & _).
  by exists out, rest.
Qed.

Lemma roundsOf_allowed n : roundsOf n = 3 ∨ roundsOf n = 10 ∨ roundsOf n = 20.
Proof.
  destruct n as [q| | |]; cbn; auto.
  destruct (Qeq_bool q 3); [auto|]. destruct (Qeq_bool q 10); [auto|].
  destruct (Qeq_bool q 20); auto.
Qed.

End LoadingProperties.

Lemma pickLoop_draws_without_repetition_witness :
  (∀ k, (0 <= halfDraws k)%Q ∧ (halfDraws k < 1)%Q)
  ∧ length [levitating; levitating] ≤ 2
  ∧ ∃ chosen, pickLoop halfDraws 1 2 0 [levitating; levitating] [] = Some chosen
      ∧ length chosen = 1.
Proof.
  assert (Hd : ∀ k, (0 <= halfDraws k)%Q ∧ (halfDraws k < 1)%Q) by (by intros k).
  split; [exact Hd|]. split; [cbn; lia|].
  destruct (pickLoop_draws_without_repetition halfDraws Hd 1 2
              [levitating; levitating] ltac:(cbn; lia))
    as (chosen & rest & Hc & Hl & _).
  exists chosen. split; [exact Hc|exact Hl].
Defined.

(** Whatever the draws are: a result of the picking loop is made of
    tracks of the pool, is not empty unless the pool is, and has at most
    [rounds] tracks. *)
Lemma pickLoop_safe random rounds fuel : ∀ k pool acc out,
  pickLoop random rounds fuel k pool acc = Some out →
  0 < rounds → length acc ≤ rounds → (acc ≠ [] ∨ pool ≠ []) →
  out ≠ [] ∧ length out ≤ rounds ∧ ∀ t, t ∈ out → t ∈ acc ∨ t ∈ pool.
Proof.
  assert (Hstop : ∀ pool acc : list GameTrack,
    (0 <? length pool) && (length acc <? rounds) = false →
    0 < rounds → length acc ≤ rounds → (acc ≠ [] ∨ pool ≠ []) →
    acc ≠ [] ∧ length acc ≤ rounds ∧ ∀ t, t ∈ acc → t ∈ acc ∨ t ∈ pool).
  { intros pool acc Hc Hr Hlen Hne. split; [|by auto].
    apply andb_false_iff in Hc as [Hc|Hc].
    - apply Nat.ltb_ge in Hc. destruct Hne as [?|Hne]; [done|].
      destruct pool; [done|cbn in Hc; lia].
    - apply Nat.ltb_ge in Hc. intros ->. cbn in Hc. lia. }
  induction fuel as [|fuel IH]; intros k pool acc out Hp Hr Hlen Hne;
    cbn [pickLoop] in Hp;
    destruct ((0 <? length pool) && (length acc <? rounds)) eqn:Hc;
    try (injection Hp as <-; by apply Hstop); [done|].
  apply andb_true_iff in Hc as [_ Hlt%Nat.ltb_lt].
  unfold splice1 in Hp. cbv zeta in Hp. set (i := Z.to_nat _) in Hp.
  assert (Hsub : ∀ t, t ∈ take i pool ++ drop (S i) pool → t ∈ pool).
  { intros t [Ht|Ht]%elem_of_app;
      [by apply (subseteq_take i pool)|by apply (subseteq_drop (S i) pool)]. }
  destruct (drop i pool) as [|x l] eqn:Hd; cbn [take] in Hp.
  - assert (Hsame : take i pool ++ drop (S i) pool = pool).
    { assert (length pool ≤ i).
      { destruct (Nat.le_gt_cases (length pool) i); [done|].
        assert (length (drop i pool) = 0) by (by rewrite Hd).
        rewrite length_drop in *. lia. }
      by rewrite take_ge, drop_ge, app_nil_r by lia. }
    rewrite Hsame in Hp. by apply (IH _ _ _ _ Hp).
  - destruct (IH _ _ _ _ Hp) as (H1 & H2 & H3); [done| | |].
    + rewrite length_app. cbn. lia.
    + left. by destruct acc.
    + split; [done|]. split; [done|]. intros t Ht.
      destruct (H3 t Ht) as [[?|Hx%list_elem_of_singleton]%elem_of_app|?]; auto.
      right. subst t. apply (subseteq_drop i pool). rewrite Hd. by left.
Qed.

(** X10.  Whenever the loading effect ends, the number of rounds is 3, 10
    or 20 and exactly one of [error] and the tracks is set.  The tracks
    handed to the game are non-empty, at most as many as the rounds, and
    all of them have a preview, so the loaded game starts on a current
    track that can be played.  This holds whatever [Math.random] returns. *)
Theorem loadGame_result random fuel token mode playlistId numTracksParam api r :
  loadGame random fuel token mode playlistId numTracksParam api = Some r →
  (totalRounds r = 3 ∨ totalRounds r = 10 ∨ totalRounds r = 20)
  ∧ ((∃ message, loadError r = Some message ∧ loadedTracks r = None)
     ∨ (∃ chosen, loadError r = None ∧ loadedTracks r = Some chosen
          ∧ chosen ≠ [] ∧ length chosen ≤ totalRounds r
          ∧ Forall (λ t, previewable t = true) chosen
          ∧ ∀ st, ∃ track,
              currentTrack (loadTracks chosen st) = Some track
              ∧ canPlay (loadTracks chosen st) = true)).
Proof.
  unfold loadGame. intros Hr.
  destruct (truthy token); cbn [negb] in Hr.
  2:{ injection Hr as <-. cbn. split; [auto|]. left. eauto. }
  pose proof (roundsOf_allowed numTracksParam) as Hrounds.
  set (rounds := roundsOf numTracksParam) in *.
  set (Claim := (totalRounds r = 3 ∨ totalRounds r = 10 ∨ totalRounds r = 20)
    ∧ ((∃ message, loadError r = Some message ∧ loadedTracks r = None)
       ∨ (∃ chosen, loadError r = None ∧ loadedTracks r = Some chosen
            ∧ chosen ≠ [] ∧ length chosen ≤ totalRounds r
            ∧ Forall (λ t, previewable t = true) chosen
            ∧ ∀ st, ∃ track,
                currentTrack (loadTracks chosen st) = Some track
                ∧ canPlay (loadTracks chosen st) = true))).
  assert (Hfailed : ∀ message,
    Some {| loadError := Some message; totalRounds := rounds;
            loadedTracks := None |} = Some r → Claim).
  { intros message [= <-]. split; [done|]. left. eauto. }
  assert (Hpick : ∀ fetched, Forall (λ t, previewable t = true) fetched →
    (if length fetched =? 0
     then Some {| loadError := Some (js "No previewable tracks found in the selected source.");
                  totalRounds := rounds; loadedTracks := None |}
     else match pickLoop random rounds fuel 0 fetched [] with
          | Some chosen => Some {| loadError := None; totalRounds := rounds;
                                   loadedTracks := Some chosen |}
          | None => None
          end) = Some r → Claim).
  { intros fetched Hall Hres.
    destruct (length fetched =? 0) eqn:E; [by eapply Hfailed|].
    apply Nat.eqb_neq in E.
    destruct (pickLoop random rounds fuel 0 fetched []) as [chosen|] eqn:Hp; [|done].
    injection Hres as <-. split; [done|]. right. exists chosen.
    destruct (pickLoop_safe _ _ _ _ _ _ _ Hp) as (Hne & Hlen & Hin).
    { lia. } { cbn. lia. } { right. by destruct fetched. }
    assert (Hprev : Forall (λ t, previewable t = true) chosen).
    { apply list.Forall_forall. intros t Ht.
      destruct (Hin t Ht) as [Hnil|Hf]; [by apply elem_of_nil in Hnil|].
      rewrite list.Forall_forall in Hall. by apply Hall. }
    repeat split; [done..|]. intros st.
    destruct chosen as [|track chosen]; [done|]. exists track.
    apply list.Forall_cons in Hprev as [Hprev _].
    split; [done|]. unfold canPlay. cbn.
    unfold previewable, truthy in Hprev. destruct track as [? [[|? ?]|]]; done. }
  destruct (bool_decide (mode = Some (js "playlist"))).
  - destruct (truthy playlistId); cbn [negb] in Hr; [|by eapply Hfailed].
    destruct (playlistReply api _) as [message| |items]; [by eapply Hfailed..|].
    eapply Hpick; [|exact Hr].
    apply list.Forall_forall. intros t (o & _ & Ho)%list_elem_of_omap.
    destruct o as [track|]; [|done].
    destruct (previewable track) eqn:Hpv; [|done]. by injection Ho as <-.
  - destruct (topTracksReply api) as [message| |items]; [by eapply Hfailed..|].
    eapply Hpick; [|exact Hr].
    apply list.Forall_forall. intros t Ht%list_elem_of_In.
    by apply List.filter_In in Ht as [_ Ht].
Qed.

Lemma omap_length_le {A B : Type} (f : A → option B) (l : list A) :
  length (omap f l) ≤ length l.
Proof. induction l as [|x l IH]; [done|]. cbn. destruct (f x); cbn; lia. Qed.

Section LoadingTermination.
Variable random : nat → Q.
Hypothesis random_unit : ∀ k, (0 <= random k)%Q ∧ (random k < 1)%Q.

(** X11.  With draws in the unit interval the loading effect always ends,
    given one pass of the picking loop per item the server returns. *)
Theorem loadGame_terminates fuel token mode playlistId numTracksParam api :
  (∀ items, topTracksReply api = FetchOk items → length items ≤ fuel) →
  (∀ id items, playlistReply api id = FetchOk items → length items ≤ fuel) →
  ∃ r, loadGame random fuel token mode playlistId numTracksParam api = Some r.
Proof.
  intros Htop Hpl. unfold loadGame.
  destruct (truthy token); cbn [negb]; [|by eauto].
  assert (Hpick : ∀ fetched, length fetched ≤ fuel →
    ∃ r, (if length fetched =? 0
     then Some {| loadError := Some (js "No previewable tracks found in the selected source.");
                  totalRounds := roundsOf numTracksParam; loadedTracks := None |}
     else match pickLoop random (roundsOf numTracksParam) fuel 0 fetched [] with
          | Some chosen => Some {| loadError := None;
                                   totalRounds := roundsOf numTracksParam;
                                   loadedTracks := Some chosen |}
          | None => None
          end) = Some r).
  { intros fetched Hlen. destruct (length fetched =? 0); [by eauto|].
    destruct (pickLoop_spec random random_unit (roundsOf numTracksParam) fuel 0
                fetched [] Hlen ltac:(cbn; lia)) as (out & rest & -> & _).
    by eauto. }
  destruct (bool_decide (mode = Some (js "playlist"))).
  - destruct (truthy playlistId); cbn [negb]; [|by eauto].
    destruct (playlistReply api _) as [message| |items] eqn:E; [by eauto..|].
    apply Hpick. etrans; [|exact (Hpl _ _ E)]. apply omap_length_le.
  - destruct (topTracksReply api) as [message| |items] eqn:E; [by eauto..|].
    apply Hpick. etrans; [|exact (Htop _ eq_refl)]. apply List.filter_length_le.
Qed.
End LoadingTermination.

Lemma loadGame_result_witness :
  loadGame halfDraws 1 (Some (js "token")) None None (Num 3)
    {| topTracksReply := FetchOk [levitating];
       playlistReply := λ _, FetchNotOk |}
  = Some {| loadError := None; totalRounds := 3;
            loadedTracks := Some [levitating] |}
  ∧ (3 = 3 ∨ 3 = 10 ∨ 3 = 20).
Proof.
  split; [reflexivity|].
  exact (proj1 (loadGame_result halfDraws 1 (Some (js "token")) None None (Num 3)
                  {| topTracksReply := FetchOk [levitating];
                     playlistReply := λ _, FetchNotOk |}
                  {| loadError := None; totalRounds := 3;
                     loadedTracks := Some [levitating] |} eq_refl)).
Defined.

Lemma loadGame_terminates_witness :
  (∀ k, (0 <= halfDraws k)%Q ∧ (halfDraws k < 1)%Q)
  ∧ ∃ r, loadGame halfDraws 2 (Some (js "token")) (Some (js "playlist"))
           (Some (js "37i9dQZF1DXcBWIGoYBM5M")) NaN
           {| topTracksReply := FetchNotOk;
              playlistReply := λ _, FetchOk [None; Some levitating] |} = Some r.
Proof.
  assert (Hd : ∀ k, (0 <= halfDraws k)%Q ∧ (halfDraws k < 1)%Q) by (by intros k).
  split; [exact Hd|].
  apply (loadGame_terminates halfDraws Hd).
  - intros items [=].
  - intros id items [= <-]. cbn. lia.
Defined.

(** ** The game history *)

Lemma bitsPositive_positiveBits p : bitsPositive (positiveBits p) = Some p.
Proof. induction p as [p IH|p IH|]; cbn; by rewrite ?IH. Qed.

Lemma standInParse_stringify entries :
  standInParse (standInStringify entries) = Some entries ∧ standInStringify entries ≠ [].
Proof.
  split; [|done]. unfold standInParse, standInStringify. cbn.
  rewrite bitsPositive_positiveBits. cbn. rewrite decode_encode. cbn.
  f_equal. rewrite <- list_fmap_compose.
  rewrite <- (list_fmap_id entries) at 2. apply list_fmap_ext.
  by intros _ [] _.
Qed.

Lemma take_take_cons {A : Type} (n : nat) (x : A) (l : list A) :
  take (S n) (x :: take (S n) l) = take (S n) (x :: l).
Proof. cbn. f_equal. rewrite take_take. f_equal. lia. Qed.

Section HistoryProperties.
Variable stringify : list HistoryEntry → jsstring.
Variable parse : jsstring → option (list HistoryEntry).

(** What is written by [JSON.stringify] is read back by [JSON.parse], and
    it is never the empty string. *)
Hypothesis parse_stringify : ∀ entries, parse (stringify entries) = Some entries.
Hypothesis stringify_nonempty : ∀ entries, stringify entries ≠ [].

Lemma readHistory_written entries ls :
  readHistory parse (<[STORAGE_KEY := stringify entries]> ls) = entries.
Proof.
  unfold readHistory. rewrite lookup_insert_eq.
  destruct (stringify entries) as [|c raw] eqn:E; [by destruct (stringify_nonempty entries)|].
  by rewrite <- E, parse_stringify.
Qed.

Lemma saveRecap_readable entry ls :
  readable parse ls →
  saveRecap stringify parse entry ls
  = <[STORAGE_KEY := stringify (take 200 (entry :: readHistory parse ls))]> ls.
Proof.
  unfold readable, saveRecap, readHistory.
  destruct (ls !! STORAGE_KEY) as [[|c raw]|]; [done| |done].
  by intros [l ->].
Qed.

Lemma saveRecap_keeps_readable entry ls :
  readable parse ls → readable parse (saveRecap stringify parse entry ls).
Proof.
  intros Hr. rewrite saveRecap_readable by done.
  unfold readable. rewrite lookup_insert_eq.
  destruct (stringify _) as [|c raw] eqn:E; [done|].
  by rewrite <- E, parse_stringify.
Qed.

Lemma saveRecap_frame entry ls key :
  key ≠ STORAGE_KEY → saveRecap stringify parse entry ls !! key = ls !! key.
Proof.
  intros Hk. unfold saveRecap.
  destruct (match ls !! STORAGE_KEY with Some (c :: raw) => parse (c :: raw) | _ => Some [] end);
    [|done].
  by rewrite lookup_insert_ne.
Qed.

Lemma saveRecap_many_readable entries ls :
  readable parse ls →
  readable parse (foldl (λ ls e, saveRecap stringify parse e ls) ls entries).
Proof.
  revert ls. induction entries as [|e entries IH]; intros ls Hr; [done|].
  cbn. by apply IH, saveRecap_keeps_readable.
Qed.

(** X12.  While the stored history can be read, Play again puts the new
    entry first and keeps at most 200 entries; so after any number of
    recaps the history holds them newest first, followed by the entries
    that were there before, cut at 200.  No other item of the storage
    changes, and the history stays readable. *)
Theorem saveRecap_newest_first entry entries ls :
  readable parse ls →
  let ls' := foldl (λ ls e, saveRecap stringify parse e ls) ls (entry :: entries) in
  readHistory parse ls' = take 200 (rev (entry :: entries) ++ readHistory parse ls)
  ∧ length (readHistory parse ls') ≤ 200
  ∧ readable parse ls'
  ∧ ∀ key, key ≠ STORAGE_KEY → ls' !! key = ls !! key.
Proof.
  intros Hr. cbv zeta.
  assert (Hread : readHistory parse
            (foldl (λ ls e, saveRecap stringify parse e ls) ls (entry :: entries))
          = take 200 (rev (entry :: entries) ++ readHistory parse ls)).
  { cbn [foldl]. induction entries as [|e entries IH] using rev_ind.
    - cbn [foldl]. rewrite saveRecap_readable by done. apply readHistory_written.
    - rewrite foldl_app. cbn [foldl].
      rewrite saveRecap_readable
        by (by apply saveRecap_many_readable, saveRecap_keeps_readable).
      rewrite readHistory_written, IH.
      change (entry :: entries ++ [e]) with ((entry :: entries) ++ [e]).
      rewrite rev_app_distr. cbn [rev app].
      apply (take_take_cons 199). }
  split; [exact Hread|]. split; [|split].
  - rewrite Hread, length_take. lia.
  - by apply saveRecap_many_readable.
  - intros key Hk. generalize (entry :: entries). clear -Hk.
    intros l. revert ls. induction l as [|e l IH]; intros ls; [done|].
    cbn. by rewrite IH, saveRecap_frame.
Qed.

(** X13.  A stored history that does not parse is never overwritten by
    Play again: however many recaps follow, the storage stays as it is and
    the recaps are lost, while the history page shows no entries. *)
Theorem saveRecap_corrupt entries ls c raw :
  ls !! STORAGE_KEY = Some (c :: raw) → parse (c :: raw) = None →
  foldl (λ ls e, saveRecap stringify parse e ls) ls entries = ls
  ∧ readHistory parse ls = [].
Proof.
  intros Hraw Hp. split; [|by unfold readHistory; rewrite Hraw, Hp].
  induction entries as [|e entries IH]; [done|]. cbn [foldl].
  replace (saveRecap stringify parse e ls) with ls; [done|].
  unfold saveRecap. by rewrite Hraw, Hp.
Qed.

(** X14.  Clear history empties the history whatever was stored, also a
    history that did not parse, and recaps are recorded again afterwards;
    no other item of the storage changes. *)
Theorem handleClear_resets entry ls :
  readHistory parse (handleClear stringify ls) = []
  ∧ readHistory parse (saveRecap stringify parse entry (handleClear stringify ls))
    = [entry]
  ∧ ∀ key, key ≠ STORAGE_KEY → handleClear stringify ls !! key = ls !! key.
Proof.
  assert (Hc : readHistory parse (handleClear stringify ls) = [])
    by apply readHistory_written.
  split; [done|]. split.
  - rewrite saveRecap_readable.
    + by rewrite readHistory_written, Hc.
    + unfold readable, handleClear, writeHistory. rewrite lookup_insert_eq.
      destruct (stringify []) as [|c raw] eqn:E; [done|].
      by rewrite <- E, parse_stringify.
  - intros key Hk. unfold handleClear, writeHistory. by rewrite lookup_insert_ne.
Qed.
End HistoryProperties.

Lemma saveRecap_newest_first_witness :
  (∀ entries, standInParse (standInStringify entries) = Some entries)
  ∧ (∀ entries, standInStringify entries ≠ [])
  ∧ readable standInParse ∅
  ∧ readHistory standInParse
      (saveRecap standInStringify standInParse
         (recapEntry (js "id-1") (js "2026-11-01T10:00:00.000Z") None None 10
            levitatingRound) ∅)
    = [recapEntry (js "id-1") (js "2026-11-01T10:00:00.000Z") None None 10
         levitatingRound].
Proof.
  split; [intros entries; apply standInParse_stringify|].
  split; [intros entries; apply standInParse_stringify|].
  split; [exact I|].
  exact (proj1 (saveRecap_newest_first standInStringify standInParse
                  (λ l, proj1 (standInParse_stringify l))
                  (λ l, proj2 (standInParse_stringify l))
                  (recapEntry (js "id-1") (js "2026-11-01T10:00:00.000Z") None None 10
                     levitatingRound) [] ∅ I)).
Defined.

Lemma saveRecap_corrupt_witness :
  ({[STORAGE_KEY := js "{oops"]} : Storage) !! STORAGE_KEY = Some (js "{oops")
  ∧ standInParse (js "{oops") = None
  ∧ foldl (λ ls e, saveRecap standInStringify standInParse e ls)
      {[STORAGE_KEY := js "{oops"]}
      [recapEntry (js "id-1") (js "2026-11-01T10:00:00.000Z") None None 10
         levitatingRound]
    = {[STORAGE_KEY := js "{oops"]}.
Proof.
  split; [reflexivity|]. split; [reflexivity|].
  exact (proj1 (saveRecap_corrupt standInStringify standInParse
                  [recapEntry (js "id-1") (js "2026-11-01T10:00:00.000Z") None None 10
                     levitatingRound]
                  {[STORAGE_KEY := js "{oops"]} 123%N (js "oops") eq_refl eq_refl)).
Defined.

Lemma handleClear_resets_witness :
  (∀ entries, standInParse (standInStringify entries) = Some entries)
  ∧ (∀ entries, standInStringify entries ≠ [])
  ∧ readHistory standInParse
      (handleClear standInStringify {[STORAGE_KEY := js "{oops"]}) = [].
Proof.
  split; [intros entries; apply standInParse_stringify|].
  split; [intros entries; apply standInParse_stringify|].
  exact (proj1 (handleClear_resets standInStringify standInParse
                  (λ l, proj1 (standInParse_stringify l))
                  (λ l, proj2 (standInParse_stringify l))
                  (recapEntry [] [] None None 3 levitatingRound)
                  {[STORAGE_KEY := js "{oops"]})).
Defined.

(** ** Spotify authorization *)

Lemma auth_keys_distinct :
  ACCESS_TOKEN_KEY ≠ REFRESH_TOKEN_KEY ∧ ACCESS_TOKEN_KEY ≠ ACCESS_EXPIRES_AT_MS_KEY
  ∧ REFRESH_TOKEN_KEY ≠ ACCESS_EXPIRES_AT_MS_KEY ∧ PKCE_VERIFIER_KEY ≠ PKCE_STATE_KEY.
Proof. by repeat split. Qed.

Ltac storage :=
  repeat first
    [ rewrite lookup_delete_eq
    | rewrite lookup_insert_eq
    | rewrite lookup_delete_ne by done
    | rewrite lookup_insert_ne by done ].

Lemma clearAuthStorage_getters br :
  getStoredAccessToken (clearAuthStorage br) = None
  ∧ getStoredRefreshToken (clearAuthStorage br) = None
  ∧ localStorage (clearAuthStorage br) !! ACCESS_EXPIRES_AT_MS_KEY = None
  ∧ getStoredPkceVerifier (clearAuthStorage br) = None
  ∧ getStoredState (clearAuthStorage br) = None.
Proof.
  unfold getStoredAccessToken, getStoredRefreshToken,
    getStoredPkceVerifier, getStoredState, clearAuthStorage. cbn.
  repeat split; by storage.
Qed.

Section AuthProperties.
Variable env : Env.
Variable tokenEndpoint : TokenRequest → TokenReply.
Variable Number : jsstring → jsnumber.

(** X15.  After [clearAuthStorage] none of the five stored values can be
    read and [getValidAccessToken] returns no token without asking the
    server; every other item of the two storages, the history among them,
    is untouched. *)
Theorem clearAuthStorage_logs_out br :
  (∀ now nowStore,
     getValidAccessToken env tokenEndpoint Number now nowStore (clearAuthStorage br)
     = (None, clearAuthStorage br))
  ∧ getStoredPkceVerifier (clearAuthStorage br) = None
  ∧ getStoredState (clearAuthStorage br) = None
  ∧ (∀ key, key ∉ [ACCESS_TOKEN_KEY; REFRESH_TOKEN_KEY; ACCESS_EXPIRES_AT_MS_KEY] →
       localStorage (clearAuthStorage br) !! key = localStorage br !! key)
  ∧ (∀ key, key ∉ [PKCE_VERIFIER_KEY; PKCE_STATE_KEY] →
       sessionStorage (clearAuthStorage br) !! key = sessionStorage br !! key)
  ∧ localStorage (clearAuthStorage br) !! STORAGE_KEY = localStorage br !! STORAGE_KEY.
Proof.
  destruct (clearAuthStorage_getters br) as (Ha & Hr & He & Hv & Hs).
  split; [|split; [done|split; [done|split; [|split]]]].
  - intros now nowStore. unfold getValidAccessToken, tokenFresh. by rewrite Ha, Hr.
  - intros key Hk. rewrite !not_elem_of_cons in Hk. destruct Hk as (? & ? & ? & _).
    unfold clearAuthStorage. cbn. by storage.
  - intros key Hk. rewrite !not_elem_of_cons in Hk. destruct Hk as (? & ? & _).
    unfold clearAuthStorage. cbn. by storage.
  - unfold clearAuthStorage. cbn. by storage.
Qed.

Lemma storeTokens_getters now tokens br :
  getStoredAccessToken (storeTokens now tokens br) = Some (access_token tokens)
  ∧ localStorage (storeTokens now tokens br) !! ACCESS_EXPIRES_AT_MS_KEY
    = Some (numberToString (now + expires_in tokens * 1000 - 60000))
  ∧ getStoredRefreshToken (storeTokens now tokens br)
    = (if truthy (refresh_token tokens) then refresh_token tokens
       else getStoredRefreshToken br)
  ∧ sessionStorage (storeTokens now tokens br) = sessionStorage br
  ∧ alerts (storeTokens now tokens br) = alerts br.
Proof.
  unfold getStoredAccessToken, getStoredRefreshToken, storeTokens. cbn.
  destruct (refresh_token tokens) as [[|c t]|]; cbn; repeat split; by storage.
Qed.



Lemma getValidAccessToken_cleared br now nowStore :
  getValidAccessToken env tokenEndpoint Number now nowStore (clearAuthStorage br)
  = (None, clearAuthStorage br).
Proof.
  destruct (clearAuthStorage_getters br) as (Ha & Hr & _).
  unfold getValidAccessToken, tokenFresh. by rewrite Ha, Hr.
Qed.

Lemma getValidAccessToken_refresh now nowStore br c refreshToken :
  tokenFresh Number now br = false →
  getStoredRefreshToken br = Some (c :: refreshToken) →
  getValidAccessToken env tokenEndpoint Number now nowStore br
  = match refreshAccessToken env tokenEndpoint nowStore br with
    | inr br' => (getStoredAccessToken br', br')
    | inl _ => (None, clearAuthStorage br)
    end.
Proof.
  intros Hfresh Hrt. unfold getValidAccessToken. by rewrite Hfresh, Hrt.
Qed.

(** When [safeExpiry] holds, the expiry that [storeTokens] computes in
    binary64, one rounded operation after the other, is the integer of the
    model. *)
Lemma storeTokens_expiry_exact now tokens product sum expiresAtMs :
  safeExpiry now tokens = true →
  nearest64 (inject_Z (expires_in tokens) * 1000) product →
  nearest64 (inject_Z now + product) sum →
  nearest64 (sum - 60000) expiresAtMs →
  (expiresAtMs == inject_Z (now + expires_in tokens * 1000 - 60000))%Q.
Proof.
  unfold safeExpiry. rewrite !andb_true_iff. intros [[[_ Hp] Hs] He] Np Ns Ne.
  assert (Ep : (product == inject_Z (expires_in tokens * 1000))%Q).
  { apply (nearest64_exact (inject_Z (expires_in tokens) * 1000));
      [by rewrite inject_Z_mult|by apply isSafeInteger_representable|done]. }
  assert (Es : (sum == inject_Z (now + expires_in tokens * 1000))%Q).
  { apply (nearest64_exact (inject_Z now + product));
      [by rewrite inject_Z_plus, Ep|by apply isSafeInteger_representable|done]. }
  apply (nearest64_exact (sum - 60000));
    [|by apply isSafeInteger_representable|done].
  rewrite Es. unfold Qeq, Qminus, Qplus, Qopp, inject_Z. cbn. lia.
Qed.

(** X17.  When the stored token cannot be served and a refresh token is
    there, [getValidAccessToken] asks the server once, with the client id
    and that refresh token.  If the server answers with tokens, whose
    lifetime keeps the expiry within the safe integers, the new access
    token is returned and stored with its own expiry, and the old refresh
    token is kept unless a new one comes with it.  In every other case (no
    client id, a rejection, a status that is not ok) the user is logged
    out: nothing is returned, the storage is cleared, and later calls
    return nothing either. *)
Theorem refresh_or_log_out now nowStore br c refreshToken :
  tokenFresh Number now br = false →
  getStoredRefreshToken br = Some (c :: refreshToken) →
  (∀ clientId data,
     tokenEndpoint (RefreshTokenGrant clientId (c :: refreshToken)) = TokenOk data →
     safeExpiry nowStore data = true) →
  match VITE_SPOTIFY_CLIENT_ID env with
  | Some (c1 :: clientId) =>
      match tokenEndpoint (RefreshTokenGrant (c1 :: clientId) (c :: refreshToken)) with
      | TokenOk data =>
          getValidAccessToken env tokenEndpoint Number now nowStore br
          = (Some (access_token data), storeTokens nowStore data br)
          ∧ getStoredRefreshToken (storeTokens nowStore data br)
            = (if truthy (refresh_token data) then refresh_token data
               else Some (c :: refreshToken))
          ∧ localStorage (storeTokens nowStore data br) !! ACCESS_EXPIRES_AT_MS_KEY
            = Some (numberToString (nowStore + expires_in data * 1000 - 60000))
      | _ =>
          getValidAccessToken env tokenEndpoint Number now nowStore br
          = (None, clearAuthStorage br)
          ∧ ∀ later laterStore,
              getValidAccessToken env tokenEndpoint Number later laterStore
                (clearAuthStorage br) = (None, clearAuthStorage br)
      end
  | _ =>
      getValidAccessToken env tokenEndpoint Number now nowStore br
      = (None, clearAuthStorage br)
      ∧ ∀ later laterStore,
          getValidAccessToken env tokenEndpoint Number later laterStore
            (clearAuthStorage br) = (None, clearAuthStorage br)
  end.
Proof.
  intros Hfresh Hrt Hsafe.
  rewrite (getValidAccessToken_refresh now nowStore br c refreshToken Hfresh Hrt).
  unfold refreshAccessToken. rewrite Hrt.
  destruct (VITE_SPOTIFY_CLIENT_ID env) as [[|c1 clientId]|];
    try (split; [done|]; intros; apply getValidAccessToken_cleared).
  destruct (tokenEndpoint _) as [message|status text|data];
    try (split; [done|]; intros; apply getValidAccessToken_cleared).
  destruct (storeTokens_getters nowStore data br) as (Ha & He & Hr & _).
  rewrite Ha, Hr, Hrt. done.
Qed.

Lemma handleCallback_mismatch now br code :
  searchCode br = Some code →
  ¬ (truthy (searchState br) = true ∧ searchState br = getStoredState br) →
  handleSpotifyRedirectCallback env tokenEndpoint now br
  = (true, replaceStateHome
             (clearAuthStorage
                (alert (js "State mismatch. Please try logging in again.") br))).
Proof.
  intros Hcode Hmis. unfold handleSpotifyRedirectCallback. rewrite Hcode.
  destruct (truthy (searchState br)) eqn:Hs; cbn [negb orb]; [|done].
  destruct (truthy (getStoredState br)) eqn:He; cbn [negb orb].
  - case_bool_decide as Heq; cbn [negb]; [|done]. by destruct Hmis.
  - done.
Qed.

(** X18.  A redirect that carries a code but not the state that was
    stored at the start (no state, none stored, or a different one) is
    refused: the server is not asked, so the outcome is the same for every
    server; no access token, refresh token or PKCE value is in the storage
    afterwards, one alert is shown and the query string is removed. *)
Theorem callback_refuses_foreign_state now br code :
  searchCode br = Some code →
  ¬ (truthy (searchState br) = true ∧ searchState br = getStoredState br) →
  (∀ otherEndpoint,
     handleSpotifyRedirectCallback env otherEndpoint now br
     = handleSpotifyRedirectCallback env tokenEndpoint now br)
  ∧ fst (handleSpotifyRedirectCallback env tokenEndpoint now br) = true
  ∧ let br' := snd (handleSpotifyRedirectCallback env tokenEndpoint now br) in
    getStoredAccessToken br' = None ∧ getStoredRefreshToken br' = None
    ∧ getStoredPkceVerifier br' = None ∧ getStoredState br' = None
    ∧ alerts br' = alerts br ++ [js "State mismatch. Please try logging in again."]
    ∧ searchCode br' = None ∧ searchState br' = None.
Proof.
  intros Hcode Hmis.
  split; [|split]; [|rewrite (handleCallback_mismatch _ _ _ Hcode Hmis)..].
  - intros other. unfold handleSpotifyRedirectCallback. rewrite Hcode.
    destruct (truthy (searchState br)) eqn:Hs; cbn [negb orb]; [|done].
    destruct (truthy (getStoredState br)) eqn:He; cbn [negb orb]; [|done].
    case_bool_decide as Heq; cbn [negb]; [|done]. by destruct Hmis.
  - done.
  - cbn [snd].
    destruct (clearAuthStorage_getters
                (alert (js "State mismatch. Please try logging in again.") br))
      as (Ha & Hr & _ & Hv & Hs).
    repeat split; done.
Qed.

(** X19.  [handleSpotifyRedirectCallback] acts exactly when the URL
    carries a code, and then, whatever the outcome, the PKCE verifier and
    the state are gone from the storage and the query string is removed; a
    second call finds no code and changes nothing. *)
Theorem callback_consumes_one_time_values now br :
  let r := handleSpotifyRedirectCallback env tokenEndpoint now br in
  (searchCode br = None → r = (false, br))
  ∧ (is_Some (searchCode br) →
     fst r = true
     ∧ getStoredPkceVerifier (snd r) = None ∧ getStoredState (snd r) = None
     ∧ searchCode (snd r) = None ∧ searchState (snd r) = None
     ∧ handleSpotifyRedirectCallback env tokenEndpoint now (snd r) = (false, snd r)).
Proof.
  cbv zeta. split.
  { intros Hc. unfold handleSpotifyRedirectCallback. by rewrite Hc. }
  intros [code Hcode].
  assert (Hshape : ∃ b,
    handleSpotifyRedirectCallback env tokenEndpoint now br = (true, replaceStateHome b)
    ∧ getStoredPkceVerifier b = None ∧ getStoredState b = None).
  { unfold handleSpotifyRedirectCallback. rewrite Hcode.
    destruct (negb (truthy (searchState br)) || negb (truthy (getStoredState br))
              || negb (bool_decide (searchState br = getStoredState br))).
    { eexists. split; [done|].
      by destruct (clearAuthStorage_getters
                     (alert (js "State mismatch. Please try logging in again.") br))
        as (_ & _ & _ & Hv & Hs). }
    destruct (match code with [] => inl (js "Missing code")
              | _ :: _ => exchangeCodeForTokens env tokenEndpoint now code br end)
      as [message|br'] eqn:Hx.
    { eexists. split; [done|].
      by destruct (clearAuthStorage_getters
                     (alert (js "Spotify auth failed: " ++ message) br))
        as (_ & _ & _ & Hv & Hs). }
    exists br'. split; [done|].
    destruct code as [|c0 code]; [done|].
    unfold exchangeCodeForTokens in Hx.
    destruct (VITE_SPOTIFY_CLIENT_ID env) as [[|c1 clientId]|]; try done.
    destruct (VITE_SPOTIFY_REDIRECT_URI env) as [[|c2 redirectUri]|]; try done.
    destruct (getStoredPkceVerifier br) as [[|c3 verifier]|]; try done.
    destruct (tokenEndpoint _) as [m|st t|data]; try done.
    injection Hx as <-.
    unfold getStoredPkceVerifier, getStoredState. cbn. split; by storage. }
  destruct Hshape as (b & -> & Hv & Hs). cbn [fst snd].
  repeat split; done.
Qed.
End AuthProperties.

(** *** The login flow from start to tokens *)

Section LoginFlow.
Variable env : Env.
Variable tokenEndpoint : TokenRequest → TokenReply.
Variable sha256 : jsstring → list N.

Hypothesis sha256_digest :
  ∀ input, length (sha256 input) = 32 ∧ Forall (λ b, isByte b = true) (sha256 input).

Lemma generateRandomString_length len randomValues :
  length randomValues = len → length (generateRandomString len randomValues) = len.
Proof.
  intros Hlen. rewrite generateRandomString_map by lia.
  rewrite length_fmap, length_take. lia.
Qed.

(** X20.  With the client id and the redirect URI configured,
    [startSpotifyAuth] stores a verifier of 64 and a state of 24 characters
    and sends the browser to the authorize URL with that state and with the
    challenge computed from that verifier.  When Spotify sends the browser
    back with a code and the same state, the callback posts the stored
    verifier with the code; if the server answers with tokens the access
    token is stored, no alert is shown, and the one-time values are gone;
    otherwise nothing is stored and one alert is shown. *)
Theorem login_round_trip verifierValues stateValues br code now c1 clientId c2 redirectUri :
  VITE_SPOTIFY_CLIENT_ID env = Some (c1 :: clientId) →
  VITE_SPOTIFY_REDIRECT_URI env = Some (c2 :: redirectUri) →
  length verifierValues = 64 → length stateValues = 24 → code ≠ [] →
  let verifier := generateRandomString 64 verifierValues in
  let state := generateRandomString 24 stateValues in
  let started := startSpotifyAuth env sha256 verifierValues stateValues br in
  let back := handleSpotifyRedirectCallback env tokenEndpoint now
                (redirectBack code state started) in
  getStoredPkceVerifier started = Some verifier
  ∧ getStoredState started = Some state
  ∧ localStorage started = localStorage br
  ∧ (∃ challenge,
       createCodeChallenge sha256 verifier = Some challenge
       ∧ assigned started
         = Some [("client_id"%string, c1 :: clientId);
                 ("response_type"%string, js "code");
                 ("redirect_uri"%string, c2 :: redirectUri);
                 ("code_challenge_method"%string, js "S256");
                 ("code_challenge"%string, challenge);
                 ("scope"%string, default DEFAULT_SCOPES (VITE_SPOTIFY_SCOPES env));
                 ("state"%string, state)])
  ∧ fst back = true
  ∧ getStoredPkceVerifier (snd back) = None ∧ getStoredState (snd back) = None
  ∧ match tokenEndpoint (AuthorizationCodeGrant (c1 :: clientId) code
                           (c2 :: redirectUri) verifier) with
    | TokenOk data =>
        getStoredAccessToken (snd back) = Some (access_token data)
        ∧ alerts (snd back) = alerts br
    | _ =>
        getStoredAccessToken (snd back) = None
        ∧ length (alerts (snd back)) = S (length (alerts br))
    end.
Proof.
  intros Hcid Hruri Hv Hs Hcode. cbv zeta.
  destruct (sha256_digest (generateRandomString 64 verifierValues)) as [Hlen Hb].
  destruct (base64UrlEncode_shape _ Hb) as (challenge & Hch & _ & _).
  assert (Hstart : startSpotifyAuth env sha256 verifierValues stateValues br
    = locationAssign
        [("client_id"%string, c1 :: clientId);
         ("response_type"%string, js "code");
         ("redirect_uri"%string, c2 :: redirectUri);
         ("code_challenge_method"%string, js "S256");
         ("code_challenge"%string, challenge);
         ("scope"%string, default DEFAULT_SCOPES (VITE_SPOTIFY_SCOPES env));
         ("state"%string, generateRandomString 24 stateValues)]
        (withSession (λ ss, <[PKCE_STATE_KEY := generateRandomString 24 stateValues]>
                              (<[PKCE_VERIFIER_KEY := generateRandomString 64 verifierValues]> ss))
           br)).
  { unfold startSpotifyAuth, createCodeChallenge. by rewrite Hcid, Hruri, Hch. }
  rewrite Hstart.
  pose proof (generateRandomString_length 64 verifierValues Hv) as Hlv.
  pose proof (generateRandomString_length 24 stateValues Hs) as Hls.
  destruct (generateRandomString 64 verifierValues) as [|v0 verifier] eqn:Ev;
    [discriminate|].
  destruct (generateRandomString 24 stateValues) as [|s0 state] eqn:Es;
    [discriminate|].
  assert (Hver : ∀ ss : Storage,
    (<[PKCE_STATE_KEY := s0 :: state]> (<[PKCE_VERIFIER_KEY := v0 :: verifier]> ss))
      !! PKCE_VERIFIER_KEY = Some (v0 :: verifier)) by (intros ss; by storage).
  assert (Hst : ∀ ss : Storage,
    (<[PKCE_STATE_KEY := s0 :: state]> (<[PKCE_VERIFIER_KEY := v0 :: verifier]> ss))
      !! PKCE_STATE_KEY = Some (s0 :: state)) by (intros ss; by storage).
  split; [apply Hver|]. split; [apply Hst|]. split; [done|].
  split; [by exists challenge|].
  set (b0 := redirectBack code (s0 :: state) _).
  assert (Hb_state : getStoredState b0 = Some (s0 :: state)) by apply Hst.
  assert (Hb_ver : getStoredPkceVerifier b0 = Some (v0 :: verifier)) by apply Hver.
  assert (Hb_code : searchCode b0 = Some code) by done.
  assert (Hb_ss : searchState b0 = Some (s0 :: state)) by done.
  assert (Hb_alerts : alerts b0 = alerts br) by done.
  clearbody b0.
  unfold handleSpotifyRedirectCallback. rewrite Hb_code, Hb_ss, Hb_state.
  cbn [truthy negb orb]. rewrite bool_decide_eq_true_2 by done. cbn [negb].
  destruct code as [|c0 code]; [done|].
  unfold exchangeCodeForTokens. rewrite Hcid, Hruri, Hb_ver.
  assert (Hfail : ∀ message,
    getStoredPkceVerifier (replaceStateHome (clearAuthStorage (alert message b0))) = None
    ∧ getStoredState (replaceStateHome (clearAuthStorage (alert message b0))) = None
    ∧ getStoredAccessToken (replaceStateHome (clearAuthStorage (alert message b0))) = None
    ∧ length (alerts (replaceStateHome (clearAuthStorage (alert message b0))))
      = S (length (alerts br))).
  { intros message.
    destruct (clearAuthStorage_getters (alert message b0))
      as (Ha & _ & _ & Hpv & Hps).
    repeat split; [done..|]. cbn. rewrite length_app, Hb_alerts. cbn. lia. }
  destruct (tokenEndpoint _) as [message|status text|data]; cbn [fst snd].
  - destruct (Hfail message) as (? & ? & ? & ?). done.
  - destruct (Hfail (js "Token exchange failed: " ++ numberToString status
                       ++ [32%N] ++ text)) as (? & ? & ? & ?). done.
  - destruct (storeTokens_getters now data b0) as (Ha & _ & _ & _ & Hal).
    split; [done|]. unfold getStoredPkceVerifier, getStoredState.
    cbn [sessionStorage replaceStateHome withSession].
    repeat split; [by storage..| |].
    + exact Ha.
    + cbn. by rewrite <- Hb_alerts, <- Hal.
Qed.
End LoginFlow.

(** *** Instances *)


Lemma refresh_or_log_out_witness :
  tokenFresh decimalNumber 5000
    (withLocal (λ ls, <[REFRESH_TOKEN_KEY := js "refresh-1"]> ls) freshBrowser) = false
  ∧ getStoredRefreshToken
      (withLocal (λ ls, <[REFRESH_TOKEN_KEY := js "refresh-1"]> ls) freshBrowser)
    = Some (js "refresh-1")
  ∧ (∀ clientId data,
       acceptingEndpoint (RefreshTokenGrant clientId (js "refresh-1")) = TokenOk data →
       safeExpiry 5001 data = true)
  ∧ fst (getValidAccessToken demoEnv acceptingEndpoint decimalNumber 5000 5001
           (withLocal (λ ls, <[REFRESH_TOKEN_KEY := js "refresh-1"]> ls) freshBrowser))
    = Some (js "access-1").
Proof.
  assert (Hsafe : ∀ clientId data,
            acceptingEndpoint (RefreshTokenGrant clientId (js "refresh-1")) = TokenOk data →
            safeExpiry 5001 data = true).
  { intros clientId data [= <-]. reflexivity. }
  split; [reflexivity|]. split; [reflexivity|]. split; [exact Hsafe|].
  pose proof (refresh_or_log_out demoEnv acceptingEndpoint decimalNumber 5000 5001
                (withLocal (λ ls, <[REFRESH_TOKEN_KEY := js "refresh-1"]> ls) freshBrowser)
                114%N (js "efresh-1") eq_refl eq_refl Hsafe) as H.
  destruct H as [H _]. rewrite H. reflexivity.
Defined.

Lemma callback_refuses_foreign_state_witness :
  searchCode (redirectBack (js "code-1") (js "forged") freshBrowser) = Some (js "code-1")
  ∧ ¬ (truthy (searchState (redirectBack (js "code-1") (js "forged") freshBrowser)) = true
       ∧ searchState (redirectBack (js "code-1") (js "forged") freshBrowser)
         = getStoredState (redirectBack (js "code-1") (js "forged") freshBrowser))
  ∧ fst (handleSpotifyRedirectCallback demoEnv acceptingEndpoint 1000
           (redirectBack (js "code-1") (js "forged") freshBrowser)) = true.
Proof.
  split; [reflexivity|].
  assert (Hm : ¬ (truthy (searchState (redirectBack (js "code-1") (js "forged") freshBrowser)) = true
       ∧ searchState (redirectBack (js "code-1") (js "forged") freshBrowser)
         = getStoredState (redirectBack (js "code-1") (js "forged") freshBrowser))).
  { intros [_ H]. discriminate H. }
  split; [exact Hm|].
  exact (proj1 (proj2 (callback_refuses_foreign_state demoEnv acceptingEndpoint 1000%Z
                         (redirectBack (js "code-1") (js "forged") freshBrowser)
                         (js "code-1") eq_refl Hm))).
Defined.

Lemma login_round_trip_witness :
  (∀ input, length (zeroDigest input) = 32
            ∧ Forall (λ b, isByte b = true) (zeroDigest input))
  ∧ length (replicate 64 7%N) = 64 ∧ length (replicate 24 9%N) = 24
  ∧ js "code-1" ≠ []
  ∧ fst (handleSpotifyRedirectCallback demoEnv acceptingEndpoint 1000
           (redirectBack (js "code-1") (generateRandomString 24 (replicate 24 9%N))
              (startSpotifyAuth demoEnv zeroDigest (replicate 64 7%N)
                 (replicate 24 9%N) freshBrowser))) = true.
Proof.
  assert (Hd : ∀ input, length (zeroDigest input) = 32
                 ∧ Forall (λ b, isByte b = true) (zeroDigest input)).
  { intros input. split; [reflexivity|]. repeat constructor. }
  split; [exact Hd|]. split; [reflexivity|]. split; [reflexivity|].
  split; [discriminate|].
  exact (proj1 (proj2 (proj2 (proj2 (proj2
    (login_round_trip demoEnv acceptingEndpoint zeroDigest Hd
       (replicate 64 7%N) (replicate 24 9%N) freshBrowser (js "code-1") 1000
       _ _ _ _ eq_refl eq_refl eq_refl eq_refl ltac:(discriminate))))))).
Defined.
